(** * Nebula icon generator: a shallow embedding of [scripts/generate-icon.py]

    The script paints one fixed 1024x1024 artwork with Pillow and serialises
    resized copies into a Windows [.ico] container.  This development embeds

    - the Python values the script computes with (integers as [Z], floats as
      IEEE binary64 [float], tuples as lists, [bytes] as [list byte],
      exceptions as an error monad),
    - [lerp_color], [draw_thick_arc], [draw_orbital], [draw_sphere],
      [draw_sparkle], [create_nebula_icon] and [create_ico],
    - the library calls the script makes ([math], [random], [struct], Pillow)
      as interfaces, with reference instances to run the model on,

    and proves the properties stated about them. *)

From Stdlib Require Import Strings.String Strings.Byte.
From Stdlib Require Import ZArith NArith List Lia Bool.
From Stdlib Require Import Floats.PrimFloat Floats.FloatOps Floats.SpecFloat
  Floats.FloatAxioms.
From Stdlib Require Import Numbers.Cyclic.Int63.Uint63.
Import ListNotations.

Local Open Scope Z_scope.

(* ================================================================== *)
(** * Python runtime: exceptions, ranges, numbers *)
(* ================================================================== *)

Module Py.

(** The exception classes that can reach the script. [FileNotFoundError]
    is a subclass of [OSError]; [IOError] is an alias of [OSError]. *)
Inductive exn : Set :=
| StructError
| OSError
| FileNotFoundError
| ImportError
| ValueError
| OverflowError
| ZeroDivisionError
| IndexError
| TypeError
| SystemError.

(** [isinstance(e, (OSError, IOError))] *)
Definition is_OSError (e : exn) : bool :=
  match e with
  | OSError | FileNotFoundError => true
  | _ => false
  end.

(** A computation either returns or raises. *)
Inductive result (A : Type) : Type :=
| Ok (a : A)
| Raise (e : exn).
Arguments Ok {A} a.
Arguments Raise {A} e.

Definition bind {A B} (r : result A) (k : A -> result B) : result B :=
  match r with
  | Ok a => k a
  | Raise e => Raise e
  end.

(** [try: r  except (OSError, IOError): handler] *)
Definition try_except_OSError {A} (r : result A) (handler : result A)
  : result A :=
  match r with
  | Ok a => Ok a
  | Raise e => if is_OSError e then handler else Raise e
  end.

(** A comprehension or [for] loop whose body may raise: left to right,
    stopping at the first exception. *)
Fixpoint mapM {A B} (f : A -> result B) (l : list A) : result (list B) :=
  match l with
  | [] => Ok []
  | x :: rest =>
      bind (f x) (fun y => bind (mapM f rest) (fun ys => Ok (y :: ys)))
  end.

(** [range(n)] *)
Definition range (n : Z) : list Z :=
  map Z.of_nat (seq 0 (Z.to_nat n)).

(** [range(hi, lo, -1)]: hi, hi-1, ..., lo+1 *)
Definition range_down (hi lo : Z) : list Z :=
  map (fun k => hi - Z.of_nat k) (seq 0 (Z.to_nat (hi - lo))).

(** [enumerate(l)] *)
Definition enumerate {A} (l : list A) : list (Z * A) :=
  combine (range (Z.of_nat (length l))) l.

(** int -> float conversion (round to nearest even; exact below 2^53).
    An integer too large for a double (2^1024 or so) becomes an infinity
    here, where Python raises [OverflowError] at the conversion: the
    statements that depend on a conversion bound the integer converted,
    as the coordinates, radii and colour channels of the script are. *)
Definition float_of_Z (z : Z) : float :=
  if Z.abs z <? 2 ^ 62 then
    if z <? 0 then PrimFloat.opp (PrimFloat.of_uint63 (Uint63.of_Z (- z)))
    else PrimFloat.of_uint63 (Uint63.of_Z z)
  else SF2Prim (binary_normalize prec emax z 0 false).

(** [int(x)] for a float [x]: truncation toward zero; NaN and the
    infinities raise. *)
Definition py_int (x : float) : result Z :=
  match Prim2SF x with
  | S754_zero _ => Ok 0
  | S754_finite s m e =>
      let v := if 0 <=? e then Z.pos m * 2 ^ e else Z.pos m / 2 ^ (- e) in
      Ok (if s then - v else v)
  | S754_infinity _ => Raise OverflowError
  | S754_nan => Raise ValueError
  end.

(** [a / b] on two ints (true division): the exact quotient, rounded
    once.  As CPython does, two operands below 2^53 in magnitude are
    converted (exactly) and divided as doubles; otherwise the quotient of
    the integers themselves is rounded to the nearest double, and a
    quotient too large for a double raises [OverflowError]. *)
Definition truediv (a b : Z) : result float :=
  if b =? 0 then Raise ZeroDivisionError
  else if (Z.abs a <? 2 ^ 53) && (Z.abs b <? 2 ^ 53)
  then Ok (PrimFloat.div (float_of_Z a) (float_of_Z b))
  else
    let s := xorb (a <? 0) (b <? 0) in
    let '(m, e, l) := SFdiv_core_binary prec emax (Z.abs a) 0 (Z.abs b) 0 in
    match binary_round_aux prec emax s m e l with
    | S754_infinity _ => Raise OverflowError
    | q => Ok (SF2Prim q)
    end.

(** [x / y] on floats. *)
Definition fdiv (x y : float) : result float :=
  if PrimFloat.eqb y 0%float then Raise ZeroDivisionError
  else Ok (PrimFloat.div x y).

End Py.
Import Py.

Declare Scope py_scope.
Notation "x <- e ;; k" := (bind e (fun x => k))
  (at level 61, e at next level, right associativity) : py_scope.
Notation "' pat <- e ;; k" := (bind e (fun x => match x with pat => k end))
  (at level 61, pat pattern, e at next level, right associativity) : py_scope.
Local Open Scope py_scope.

(* ================================================================== *)
(** * [struct.pack] with a little-endian format *)
(* ================================================================== *)

Module Struct.

(** The format characters the script uses: [B] (1 byte), [H] (2 bytes),
    [I] (4 bytes), all unsigned, byte order [<]. *)
Inductive fmt : Set := B | H | I.

Definition size (f : fmt) : nat :=
  match f with B => 1 | H => 2 | I => 4 end.

Definition byte_of_Z (z : Z) : byte :=
  match Byte.of_N (Z.to_N (z mod 256)) with
  | Some b => b
  | None => x00
  end.

Definition Z_of_byte (b : byte) : Z := Z.of_N (Byte.to_N b).

(** [n] bytes of [v], least significant first. *)
Fixpoint le_bytes (n : nat) (v : Z) : list byte :=
  match n with
  | O => []
  | S n' => byte_of_Z v :: le_bytes n' (v / 256)
  end.

(** The unsigned value of a little-endian byte string. *)
Fixpoint le_value (bs : list byte) : Z :=
  match bs with
  | [] => 0
  | b :: rest => Z_of_byte b + 256 * le_value rest
  end.

(** One field: [struct.error] unless [0 <= v < 256^size]. *)
Definition pack_field (f : fmt) (v : Z) : result (list byte) :=
  if (0 <=? v) && (v <? 256 ^ Z.of_nat (size f))
  then Ok (le_bytes (size f) v)
  else Raise StructError.

(** [struct.pack("<...", v1, v2, ...)] *)
Definition pack (fields : list (fmt * Z)) : result (list byte) :=
  chunks <- mapM (fun fv => pack_field (fst fv) (snd fv)) fields ;;
  Ok (concat chunks).

End Struct.

(* ================================================================== *)
(** * Raster images *)
(* ================================================================== *)

(** An RGBA pixel, 8 bits per channel. *)
Definition rgba : Type := Z * Z * Z * Z.

Definition alpha (p : rgba) : Z := snd p.

(** A Pillow image in mode RGBA: its size and its pixels. *)
Record Image : Type := mkImage {
  width : N;
  height : N;
  getpixel : Z -> Z -> rgba
}.

(** [Image.new("RGBA", (w, h), color)] *)
Definition Image_new (w h : N) (color : rgba) : Image :=
  mkImage w h (fun _ _ => color).

Definition in_image (img : Image) (x y : Z) : bool :=
  (0 <=? x) && (x <? Z.of_N (width img)) &&
  (0 <=? y) && (y <? Z.of_N (height img)).

(* ================================================================== *)
(** * [create_ico] *)
(* ================================================================== *)

(** An image with at least one pixel. *)
Definition has_pixels (img : Image) : Prop :=
  width img <> 0%N /\ height img <> 0%N.

(** [img.save(buf, format="PNG"); buf.getvalue()]: Pillow's PNG encoder.
    It returns the stream of an image that has pixels, and raises on an
    image of width or height zero. *)
Class PngEncoder : Type := {
  png_save : Image -> result (list byte);
  png_save_pixels : forall img,
    has_pixels img -> exists data, png_save img = Ok data;
  png_save_empty : forall img,
    width img = 0%N \/ height img = 0%N -> exists e, png_save img = Raise e
}.

Module Ico.
Section Encoder.

Context {enc : PngEncoder}.

(** The body of the directory loop for one image. *)
Definition dir_entry (img : Image) (data_size current_offset : Z)
  : result (list byte) :=
  let w := if (Z.of_N (width img) <? 256) then Z.of_N (width img) else 0 in
  let h := if (Z.of_N (height img) <? 256) then Z.of_N (height img) else 0 in
  Struct.pack
    [(Struct.B, w); (Struct.B, h); (Struct.B, 0); (Struct.B, 0);
     (Struct.H, 1); (Struct.H, 32);
     (Struct.I, data_size); (Struct.I, current_offset)].

(** [for i, img in enumerate(images): ...] with the loop's two
    accumulators. *)
Fixpoint directory_loop (image_data_list : list (list byte))
    (items : list (Z * Image)) (directory : list byte) (current_offset : Z)
  : result (list byte) :=
  match items with
  | [] => Ok directory
  | (i, img) :: rest =>
      match nth_error image_data_list (Z.to_nat i) with
      | None => Raise IndexError
      | Some data =>
          let data_size := Z.of_nat (length data) in
          entry <- dir_entry img data_size current_offset ;;
          directory_loop image_data_list rest
            (directory ++ entry) (current_offset + data_size)
      end
  end.

(** [create_ico(images, ico_path)]: the bytes written to [ico_path]. *)
Definition create_ico (images : list Image) : result (list byte) :=
  let num_images := Z.of_nat (length images) in
  header <- Struct.pack
              [(Struct.H, 0); (Struct.H, 1); (Struct.H, num_images)] ;;
  image_data_list <- mapM png_save images ;;
  let dir_offset := 6 + num_images * 16 in
  directory <- directory_loop image_data_list (enumerate images)
                 [] dir_offset ;;
  Ok (fold_left (fun f data => f ++ data) image_data_list
        (header ++ directory)).

End Encoder.
End Ico.

(* ================================================================== *)
(** * Library interfaces used by the canvas composer *)
(* ================================================================== *)

(** [math.cos] and [math.sin] (the platform's libm), on the arguments
    they return on: every double but the two infinities, on which they
    raise [ValueError].  The statements about a call whose rotation is
    not fixed by the script say that it is not infinite. *)
Class Libm : Type := {
  cos : float -> float;
  sin : float -> float
}.

(** The module-level generator of [random]: [random.seed(s)] replaces the
    whole generator state by one computed from [s]; [random.randint(a, b)]
    returns a number and advances the state. *)
Class PyRandom : Type := {
  rng_state : Type;
  seed : Z -> rng_state -> rng_state;
  randint : Z -> Z -> rng_state -> Z * rng_state;
  seed_resets : forall s g g', seed s g = seed s g'
}.

(** A tuple of ints used as a colour (RGB or RGBA). *)
Definition color : Type := list Z.

Definition point : Type := float * float.
Definition box : Type := float * float * float * float.

(** Pillow: fonts ([ImageFont]) and the rasteriser behind [ImageDraw].
    - [truetype name size] loads a font or raises;
    - [load_default] is the font built into Pillow;
    - [textbbox xy text font] is [draw.textbbox];
    - [ellipse_covers b x y]: does [draw.ellipse(b, fill=...)] touch pixel
      (x, y);
    - [line_covers p q w x y]: does [draw.line([p, q], width=w)] touch it;
    - [text_blend xy text ink font x y old]: the value [draw.text] leaves at
      pixel (x, y) that held [old]. *)
Class Pillow : Type := {
  font : Type;
  truetype : string -> Z -> result font;
  load_default : font;
  textbbox : Z * Z -> string -> font -> Z * Z * Z * Z;
  ellipse_covers : box -> Z -> Z -> bool;
  line_covers : point -> point -> Z -> Z -> Z -> bool;
  text_blend : Z * Z -> string -> rgba -> font -> Z -> Z -> rgba -> rgba
}.

(* ================================================================== *)
(** * The canvas composer *)
(* ================================================================== *)

#[local] Set Warnings "-inexact-float".

(** [SIZE = 1024  # Master icon size] *)
Definition SIZE : Z := 1024.

(** [lerp_color(c1, c2, t)] *)
Definition lerp_color (c1 c2 : color) (t : float) : result color :=
  mapM (fun ab : Z * Z =>
          let (a, b) := ab in
          py_int (float_of_Z a + float_of_Z (b - a) * t)%float)
       (combine c1 c2).

(** [math.radians(x)]: CPython multiplies by the constant pi / 180.0. *)
Definition degToRad : float := (3.141592653589793 / 180)%float.
Definition radians (x : float) : float := (x * degToRad)%float.

Section Composer.

Context {libm : Libm} {pil : Pillow} {rnd : PyRandom}.

(** The calls made on the [ImageDraw] object, in call order, each with
    the arguments it is given.  Pillow raises on a fill it cannot read
    (see [ink_of_fill] below) and on an ellipse whose box has its corners
    out of order, as the boxes of a sphere of radius -2 or less are: the
    statements that say that a drawing function returns are about fills
    of three or four channels and radii from -1 up. *)
Inductive draw_op : Type :=
| Ellipse (xy : box) (fill : color)
| Line (p q : point) (fill : color) (w : Z)
| Text (xy : Z * Z) (text : string) (fill : color) (f : font).

(** The point of the rotated ellipse at parameter [angle] (radians), as
    computed in the first loop of [draw_thick_arc]. *)
Definition arc_point (cx cy rx ry : Z) (cos_r sin_r angle : float) : point :=
  let ex := (float_of_Z rx * cos angle)%float in
  let ey := (float_of_Z ry * sin angle)%float in
  let px := (float_of_Z cx + ex * cos_r - ey * sin_r)%float in
  let py := (float_of_Z cy + ex * sin_r + ey * cos_r)%float in
  (px, py).

(** First loop of [draw_thick_arc]: the sample points with their
    fractions. *)
Definition arc_points (cx cy rx ry angle_start angle_end : Z)
    (rotation : float) (steps : Z) : result (list (float * float * float)) :=
  let cos_r := cos rotation in
  let sin_r := sin rotation in
  mapM (fun i =>
          t <- truediv i steps ;;
          let angle :=
            radians (float_of_Z angle_start
                     + float_of_Z (angle_end - angle_start) * t)%float in
          let (px, py) := arc_point cx cy rx ry cos_r sin_r angle in
          Ok (px, py, t))
       (range (steps + 1)).

(** Second loop of [draw_thick_arc]: one [draw.line] per pair of
    neighbouring points. *)
Definition arc_segments (points : list (float * float * float))
    (width : Z) (color_start color_end : color) : result (list draw_op) :=
  mapM (fun i =>
          match nth_error points (Z.to_nat i),
                nth_error points (Z.to_nat (i + 1)) with
          | Some (x1, y1, t1), Some (x2, y2, t2) =>
              let t_mid := ((t1 + t2) / 2)%float in
              color <- lerp_color color_start color_end t_mid ;;
              Ok (Line (x1, y1) (x2, y2) color width)
          | _, _ => Raise IndexError
          end)
       (range (Z.of_nat (length points) - 1)).

(** [draw_thick_arc(draw, cx, cy, rx, ry, angle_start, angle_end,
    rotation, width, color_start, color_end, steps=200)] *)
Definition draw_thick_arc (cx cy rx ry angle_start angle_end : Z)
    (rotation : float) (width : Z) (color_start color_end : color)
    (steps : Z) : result (list draw_op) :=
  points <- arc_points cx cy rx ry angle_start angle_end rotation steps ;;
  arc_segments points width color_start color_end.

(** [draw_orbital(draw, cx, cy, rx, ry, rotation, color_start, color_end,
    width=14, arc_start=0, arc_end=360)]: [steps] is left at its
    default. *)
Definition draw_orbital (cx cy rx ry : Z) (rotation : float)
    (color_start color_end : color) (width arc_start arc_end : Z)
  : result (list draw_op) :=
  draw_thick_arc cx cy rx ry arc_start arc_end rotation width
    color_start color_end 200.

Definition square (cx cy r : Z) : box :=
  (float_of_Z (cx - r), float_of_Z (cy - r),
   float_of_Z (cx + r), float_of_Z (cy + r)).

(** [draw_sphere(img, cx, cy, radius, base_color, highlight_color)] *)
Definition draw_sphere (cx cy radius : Z) (base_color highlight_color : color)
  : result (list draw_op) :=
  (* Outer glow *)
  glow <- mapM (fun r =>
                  q <- truediv (r - radius) 12 ;;
                  alpha <- py_int (60 * (1 - q))%float ;;
                  let glow_color := base_color ++ [alpha] in
                  Ok (Ellipse (square cx cy r) glow_color))
               (range_down (radius + 12) radius) ;;
  (* Sphere body *)
  body <- mapM (fun r =>
                  q <- truediv r radius ;;
                  let t := (1 - q)%float in
                  color <- lerp_color base_color highlight_color
                             (t * 0.6)%float ;;
                  Ok (Ellipse (square cx cy r) color))
               (range_down radius 0) ;;
  (* Specular highlight *)
  let hx := (float_of_Z cx - float_of_Z radius * 0.3)%float in
  let hy := (float_of_Z cy - float_of_Z radius * 0.3)%float in
  let hr := (float_of_Z radius * 0.35)%float in
  n <- py_int hr ;;
  spec <- mapM (fun r2 =>
                  q <- fdiv (float_of_Z r2) hr ;;
                  alpha <- py_int (200 * (1 - q))%float ;;
                  let r2f := float_of_Z r2 in
                  Ok (Ellipse (hx - r2f, hy - r2f, hx + r2f, hy + r2f)%float
                        [255; 255; 255; alpha]))
               (range_down n 0) ;;
  Ok (glow ++ body ++ spec).

(** [draw_sparkle(draw, x, y, size, color)] *)
Definition draw_sparkle (x y size : Z) (color : color) : list draw_op :=
  let s := size in
  let fx := float_of_Z x in
  let fy := float_of_Z y in
  let ds := (float_of_Z s * 0.6)%float in
  [ Line (fx, float_of_Z (y - s)) (fx, float_of_Z (y + s)) color 1;
    Line (float_of_Z (x - s), fy) (float_of_Z (x + s), fy) color 1;
    Line (fx - ds, fy - ds)%float (fx + ds, fy + ds)%float color 1;
    Line (fx + ds, fy - ds)%float (fx - ds, fy + ds)%float color 1 ].

(** How Pillow reads a [fill] tuple for an RGBA image: three or four
    channels, each clipped to a byte, alpha 255 when absent. *)
Definition clip8 (v : Z) : Z :=
  if v <=? 0 then 0 else if v <? 256 then v else 255.

Definition ink_of_fill (fill : color) : result rgba :=
  match fill with
  | [r; g; b] => Ok (clip8 r, clip8 g, clip8 b, 255)
  | [r; g; b; a] => Ok (clip8 r, clip8 g, clip8 b, clip8 a)
  | _ => Raise TypeError
  end.

(** One drawing call applied to the image.  [ImageDraw.Draw(img)] on an
    RGBA image draws in the image's own mode: a shape stores its ink,
    alpha included, in every pixel it covers (no compositing); text goes
    through the glyph mask. *)
Definition paint (img : Image) (op : draw_op) : result Image :=
  match op with
  | Ellipse xy fill =>
      ink <- ink_of_fill fill ;;
      Ok (mkImage (width img) (height img)
            (fun x y => if in_image img x y && ellipse_covers xy x y
                        then ink else getpixel img x y))
  | Line p q fill w =>
      ink <- ink_of_fill fill ;;
      Ok (mkImage (width img) (height img)
            (fun x y => if in_image img x y && line_covers p q w x y
                        then ink else getpixel img x y))
  | Text xy text fill f =>
      ink <- ink_of_fill fill ;;
      Ok (mkImage (width img) (height img)
            (fun x y => if in_image img x y
                        then text_blend xy text ink f x y (getpixel img x y)
                        else getpixel img x y))
  end.

Fixpoint paint_all (img : Image) (ops : list draw_op) : result Image :=
  match ops with
  | [] => Ok img
  | op :: rest => img' <- paint img op ;; paint_all img' rest
  end.

(** ** [create_nebula_icon] *)

Definition BLUE : color := [60; 120; 255].
Definition PURPLE : color := [160; 60; 220].
Definition PINK : color := [230; 60; 160].
Definition ORANGE : color := [255; 160; 30].
Definition RED_ORANGE : color := [240; 80; 40].

(** (rotation_degrees, color_start, color_end) *)
Definition orbitals : list (Z * color * color) :=
  [(-30, BLUE, PURPLE); (30, PURPLE, PINK); (90, ORANGE, RED_ORANGE)].

(** (orbital_index, angle_on_ellipse, radius, base_color, highlight) *)
Definition electrons : list (Z * Z * Z * color * color) :=
  [(0, 220, 22, [80; 130; 255], [180; 200; 255]);
   (2, 40, 22, [255; 160; 30], [255; 220; 140])].

Definition sparkle_positions : list (Z * Z * Z) :=
  [(180, 200, 6); (820, 180, 5); (850, 750, 7);
   (200, 700, 4); (750, 300, 5); (300, 150, 4);
   (700, 800, 6); (150, 450, 3); (880, 500, 4);
   (400, 850, 3); (600, 130, 4); (900, 350, 3)].

(** Background: subtle radial gradient (dark center). *)
Definition background (cx cy : Z) : result (list draw_op) :=
  mapM (fun r =>
          t <- truediv r (SIZE / 2) ;;
          val <- py_int (8 + 12 * t)%float ;;
          let alpha := 255 in
          blue <- py_int (float_of_Z val * 1.2)%float ;;
          Ok (Ellipse (square cx cy r) [val; val; blue; alpha]))
       (range_down (SIZE / 2) 0).

(** [for rot_deg, c_start, c_end in orbitals: draw_orbital(...)] *)
Definition orbital_halves (cx cy rx ry arc_start arc_end : Z)
  : result (list draw_op) :=
  parts <- mapM (fun o : Z * color * color =>
                   let '(rot_deg, c_start, c_end) := o in
                   let rot := radians (float_of_Z rot_deg) in
                   draw_orbital cx cy rx ry rot c_start c_end
                     16 arc_start arc_end)
                orbitals ;;
  Ok (concat parts).

(** The nested [try]/[except (OSError, IOError)] chain. *)
Definition load_font : result font :=
  let bracket_size := 240 in
  try_except_OSError (truetype "consola.ttf" bracket_size)
    (try_except_OSError (truetype "cour.ttf" bracket_size)
       (try_except_OSError
          (truetype "C:/Windows/Fonts/consola.ttf" bracket_size)
          (Ok load_default))).

(** The glyph string with its shadow. *)
Definition brackets (cx cy : Z) (f : font) : list draw_op :=
  let text := "</>"%string in
  let '(x0, y0, x1, y1) := textbbox (0, 0) text f in
  let tw := x1 - x0 in
  let th := y1 - y0 in
  let tx := cx - tw / 2 in
  let ty := cy - th / 2 - 20 in
  [ Text (tx + 3, ty + 3) text [0; 0; 0; 180] f;
    Text (tx, ty) text [230; 230; 240; 255] f ].

(** The position of one electron, as computed in the electron loop. *)
Definition electron_position (cx cy rx ry rot_deg angle_deg : Z) : point :=
  let rot := radians (float_of_Z rot_deg) in
  let angle := radians (float_of_Z angle_deg) in
  let ex := (float_of_Z rx * cos angle)%float in
  let ey := (float_of_Z ry * sin angle)%float in
  let px := (float_of_Z cx + ex * cos rot - ey * sin rot)%float in
  let py := (float_of_Z cy + ex * sin rot + ey * cos rot)%float in
  (px, py).

Definition electron_spheres (cx cy rx ry : Z) : result (list draw_op) :=
  parts <- mapM (fun e : Z * Z * Z * color * color =>
                   let '(orb_idx, angle_deg, rad, base_col, hi_col) := e in
                   match nth_error orbitals (Z.to_nat orb_idx) with
                   | None => Raise IndexError
                   | Some (rot_deg, _, _) =>
                       let (px, py) :=
                         electron_position cx cy rx ry rot_deg angle_deg in
                       ix <- py_int px ;;
                       iy <- py_int py ;;
                       draw_sphere ix iy rad base_col hi_col
                   end)
                electrons ;;
  Ok (concat parts).

(** The sparkle loop, threading the generator state. *)
Fixpoint sparkles (positions : list (Z * Z * Z)) (g : rng_state)
  : list draw_op * rng_state :=
  match positions with
  | [] => ([], g)
  | (sx, sy, ss) :: rest =>
      let (b, g1) := randint 180 255 g in
      let sparkle_color := [255; 255; b] in
      let (ops, g2) := sparkles rest g1 in
      (draw_sparkle sx sy ss sparkle_color ++ ops, g2)
  end.

(** The colours drawn by the sparkle loop, in order. *)
Fixpoint sparkle_colors (n : nat) (g : rng_state) : list color :=
  match n with
  | O => []
  | S n' =>
      let (b, g1) := randint 180 255 g in
      [255; 255; b] :: sparkle_colors n' g1
  end.

(** Every drawing call of [create_nebula_icon], in order, and the
    generator state it leaves behind; [g] is the state of the module-level
    generator when the function is entered. *)
Definition create_nebula_icon_ops (g : rng_state)
  : result (list draw_op * rng_state) :=
  let cx := SIZE / 2 in
  let cy := SIZE / 2 in
  bg <- background cx cy ;;
  let rx := 340 in
  let ry := 130 in
  back <- orbital_halves cx cy rx ry 180 360 ;;
  f <- load_font ;;
  let txt := brackets cx cy f in
  front <- orbital_halves cx cy rx ry 0 180 ;;
  spheres <- electron_spheres cx cy rx ry ;;
  let g1 := seed 42 g in
  let (sp, g2) := sparkles sparkle_positions g1 in
  Ok (bg ++ back ++ txt ++ front ++ spheres ++ sp, g2).

(** [create_nebula_icon()] *)
Definition create_nebula_icon (g : rng_state) : result (Image * rng_state) :=
  '(ops, g') <- create_nebula_icon_ops g ;;
  img <- paint_all (Image_new (Z.to_N SIZE) (Z.to_N SIZE) (0, 0, 0, 255))
           ops ;;
  Ok (img, g').

End Composer.

(* ================================================================== *)
(** * Reference instances of the library interfaces *)
(* ================================================================== *)

(** ** A libm: cosine and sine by their power series *)

Module RefLibm.

(** [series n k term acc x2]: adds [n] more terms of a series whose next
    term is [- term * x2 / (k * (k + 1))]. *)
Fixpoint series (n : nat) (k term acc x2 : float) : float :=
  match n with
  | O => acc
  | S n' =>
      let term' := (- (term * x2) / (k * (k + 1)))%float in
      series n' (k + 2)%float term' (acc + term')%float x2
  end.

Definition cos (x : float) : float := series 40 1 1 1 (x * x)%float.
Definition sin (x : float) : float := series 40 2 x x (x * x)%float.

End RefLibm.

#[export] Instance ref_libm : Libm :=
  {| cos := RefLibm.cos; sin := RefLibm.sin |}.

(** ** Pillow on a machine with none of the three named fonts installed *)

Module RefPillow.

(** The ellipse inscribed in the box. *)
Definition ellipse_covers (b : box) (x y : Z) : bool :=
  let '(x0, y0, x1, y1) := b in
  let rx := ((x1 - x0) / 2)%float in
  let ry := ((y1 - y0) / 2)%float in
  let dx := (float_of_Z x - (x0 + x1) / 2)%float in
  let dy := (float_of_Z y - (y0 + y1) / 2)%float in
  PrimFloat.leb (dx * dx * (ry * ry) + dy * dy * (rx * rx))%float
                (rx * rx * (ry * ry))%float.

(** The pixels within half the stroke width of the segment. *)
Definition line_covers (p q : point) (w x y : Z) : bool :=
  let '(px, py) := p in
  let '(qx, qy) := q in
  let fx := float_of_Z x in
  let fy := float_of_Z y in
  let dx := (qx - px)%float in
  let dy := (qy - py)%float in
  let len2 := (dx * dx + dy * dy)%float in
  let t := if PrimFloat.eqb len2 0 then 0%float
           else (((fx - px) * dx + (fy - py) * dy) / len2)%float in
  let t := if PrimFloat.ltb t 0 then 0%float
           else if PrimFloat.ltb 1 t then 1%float else t in
  let ex := (fx - (px + t * dx))%float in
  let ey := (fy - (py + t * dy))%float in
  let half := (float_of_Z (Z.max w 1) / 2)%float in
  PrimFloat.leb (ex * ex + ey * ey)%float (half * half)%float.

(** Glyph cells of 6 x 11 pixels, as in Pillow's built-in bitmap font. *)
Definition textbbox (xy : Z * Z) (text : string) (f : unit)
  : Z * Z * Z * Z :=
  let (x, y) := xy in
  (x, y, x + 6 * Z.of_nat (String.length text), y + 11).

(** Text paints its cell box. *)
Definition text_blend (xy : Z * Z) (text : string) (ink : rgba) (f : unit)
    (x y : Z) (old : rgba) : rgba :=
  let '(x0, y0, x1, y1) := textbbox xy text f in
  if (x0 <=? x) && (x <? x1) && (y0 <=? y) && (y <? y1) then ink else old.

End RefPillow.

#[export] Instance ref_pillow : Pillow :=
  {| font := unit;
     truetype := fun _ _ => Raise FileNotFoundError;
     load_default := tt;
     textbbox := RefPillow.textbbox;
     ellipse_covers := RefPillow.ellipse_covers;
     line_covers := RefPillow.line_covers;
     text_blend := RefPillow.text_blend |}.

(** ** Pillow built without FreeType: [ImageFont.truetype] raises
    [ImportError] whatever the font *)

Definition no_freetype_pillow : Pillow :=
  {| font := unit;
     truetype := fun _ _ => Raise ImportError;
     load_default := tt;
     textbbox := RefPillow.textbbox;
     ellipse_covers := RefPillow.ellipse_covers;
     line_covers := RefPillow.line_covers;
     text_blend := RefPillow.text_blend |}.

(** ** CPython's generator: the Mersenne Twister MT19937

    [random.seed(a)] for an int runs [init_by_array] on the 32-bit words of
    [abs(a)]; [random.randint(a, b)] is [a + _randbelow(b - a + 1)], and
    [_randbelow(n)] draws [getrandbits(n.bit_length())] until the result is
    below [n]. *)

Module MT19937.

Definition N : nat := 624.
Definition M : nat := 397.

Definition mask32 (z : Z) : Z := Z.land z 0xffffffff.

Definition get (mt : list Z) (i : nat) : Z := nth i mt 0.

Definition set (mt : list Z) (i : nat) (v : Z) : list Z :=
  firstn i mt ++ v :: skipn (S i) mt.

(** [init_genrand(s)] *)
Fixpoint init_tail (n : nat) (i prev : Z) : list Z :=
  match n with
  | O => []
  | S n' =>
      let v := mask32 (1812433253 * Z.lxor prev (Z.shiftr prev 30) + i) in
      v :: init_tail n' (i + 1) v
  end.

Definition init_genrand (s : Z) : list Z :=
  mask32 s :: init_tail (N - 1) 1 (mask32 s).

(** First loop of [init_by_array]. *)
Fixpoint mix_key (k : nat) (key : list Z) (mt : list Z) (i j : nat)
  : list Z * nat :=
  match k with
  | O => (mt, i)
  | S k' =>
      let prev := get mt (i - 1) in
      let v := mask32 (Z.lxor (get mt i)
                         (Z.lxor prev (Z.shiftr prev 30) * 1664525)
                       + nth j key 0 + Z.of_nat j) in
      let mt := set mt i v in
      let i := S i in
      let j := S j in
      let '(mt, i) := if (N <=? i)%nat then (set mt 0 (get mt (N - 1)), 1%nat)
                      else (mt, i) in
      let j := if (length key <=? j)%nat then 0%nat else j in
      mix_key k' key mt i j
  end.

(** Second loop of [init_by_array]. *)
Fixpoint mix_index (k : nat) (mt : list Z) (i : nat) : list Z :=
  match k with
  | O => mt
  | S k' =>
      let prev := get mt (i - 1) in
      let v := mask32 (Z.lxor (get mt i)
                         (Z.lxor prev (Z.shiftr prev 30) * 1566083941)
                       - Z.of_nat i) in
      let mt := set mt i v in
      let i := S i in
      let '(mt, i) := if (N <=? i)%nat then (set mt 0 (get mt (N - 1)), 1%nat)
                      else (mt, i) in
      mix_index k' mt i
  end.

Definition init_by_array (key : list Z) : list Z :=
  let mt := init_genrand 19650218 in
  let '(mt, i) := mix_key (Nat.max N (length key)) key mt 1 0 in
  let mt := mix_index (N - 1) mt i in
  set mt 0 0x80000000.

(** The 32-bit words of a non-negative integer, least significant first. *)
Fixpoint words (n : nat) (a : Z) : list Z :=
  match n with
  | O => []
  | S n' => mask32 a :: words n' (Z.shiftr a 32)
  end.

Definition key_of (a : Z) : list Z :=
  let a := Z.abs a in
  words (Z.to_nat (Z.log2 a / 32 + 1)) a.

(** Generator state: the 624 words and the position of the next one. *)
Definition state : Type := list Z * nat.

(** [random.seed(a)] for an int [a]: the old state is discarded. *)
Definition seed (a : Z) : state := (init_by_array (key_of a), N).

(** Regenerate the 624 words in place. *)
Fixpoint twist (n : nat) (kk : nat) (mt : list Z) : list Z :=
  match n with
  | O => mt
  | S n' =>
      let y := Z.lor (Z.land (get mt kk) 0x80000000)
                     (Z.land (get mt ((kk + 1) mod N)) 0x7fffffff) in
      let v := Z.lxor (Z.lxor (get mt ((kk + M) mod N)) (Z.shiftr y 1))
                      (if Z.odd y then 0x9908b0df else 0) in
      twist n' (S kk) (set mt kk v)
  end.

Definition genrand_uint32 (st : state) : Z * state :=
  let '(mt, idx) := st in
  let '(mt, idx) := if (N <=? idx)%nat then (twist N 0 mt, 0%nat)
                    else (mt, idx) in
  let y := get mt idx in
  let y := Z.lxor y (Z.shiftr y 11) in
  let y := Z.lxor y (Z.land (Z.shiftl y 7) 0x9d2c5680) in
  let y := Z.lxor y (Z.land (Z.shiftl y 15) 0xefc60000) in
  let y := Z.lxor y (Z.shiftr y 18) in
  (y, (mt, S idx)).

(** [getrandbits(k)] for 0 < k <= 32 *)
Definition getrandbits (k : Z) (st : state) : Z * state :=
  let (y, st) := genrand_uint32 st in
  (Z.shiftr y (32 - k), st).

(** [_randbelow(n)]: redraw until the number is below [n]; each draw
    succeeds with probability above 1/2, and the model gives up (returning
    0) after [fuel] draws. *)
Fixpoint randbelow (fuel : nat) (n : Z) (st : state) : Z * state :=
  match fuel with
  | O => (0, st)
  | S fuel' =>
      let k := Z.log2 n + 1 in
      let (r, st) := getrandbits k st in
      if r <? n then (r, st) else randbelow fuel' n st
  end.

(** [randint(a, b)] *)
Definition randint (a b : Z) (st : state) : Z * state :=
  let (r, st) := randbelow 64 (b - a + 1) st in
  (a + r, st).

End MT19937.

#[export] Instance mt_random : PyRandom :=
  {| rng_state := MT19937.state;
     seed := fun a _ => MT19937.seed a;
     randint := MT19937.randint;
     seed_resets := fun _ _ _ => eq_refl |}.

(* ================================================================== *)
(** * Reading an [.ico] file back *)
(* ================================================================== *)

(** The fields of the container as a reader finds them, by position: the
    6-byte ICONDIR header, then 16-byte ICONDIRENTRY records. *)
Module IcoReader.

Definition slice (off len : nat) (bs : list byte) : list byte :=
  firstn len (skipn off bs).

(** The little-endian unsigned field of [len] bytes at [off]. *)
Definition field (off len : nat) (bs : list byte) : Z :=
  Struct.le_value (slice off len bs).

Definition reserved (bs : list byte) : Z := field 0 2 bs.
Definition type (bs : list byte) : Z := field 2 2 bs.
Definition count (bs : list byte) : Z := field 4 2 bs.

Definition entry_at (i : nat) : nat := 6 + 16 * i.

Definition entry (bs : list byte) (i : nat) : list byte :=
  slice (entry_at i) 16 bs.

Definition entry_width (bs : list byte) (i : nat) : Z :=
  field (entry_at i) 1 bs.
Definition entry_height (bs : list byte) (i : nat) : Z :=
  field (entry_at i + 1) 1 bs.
Definition entry_color_count (bs : list byte) (i : nat) : Z :=
  field (entry_at i + 2) 1 bs.
Definition entry_reserved (bs : list byte) (i : nat) : Z :=
  field (entry_at i + 3) 1 bs.
Definition entry_planes (bs : list byte) (i : nat) : Z :=
  field (entry_at i + 4) 2 bs.
Definition entry_bit_count (bs : list byte) (i : nat) : Z :=
  field (entry_at i + 6) 2 bs.
Definition entry_size (bs : list byte) (i : nat) : Z :=
  field (entry_at i + 8) 4 bs.
Definition entry_offset (bs : list byte) (i : nat) : Z :=
  field (entry_at i + 12) 4 bs.

(** The bytes the [i]-th entry points at. *)
Definition payload (bs : list byte) (i : nat) : list byte :=
  slice (Z.to_nat (entry_offset bs i)) (Z.to_nat (entry_size bs i)) bs.

End IcoReader.

(** The container in closed form, for the proofs. *)
Module IcoSpec.
Section Spec.

Context {enc : PngEncoder}.

(** The PNG stream of an image the encoder accepts. *)
Definition payload_of (img : Image) : list byte :=
  match png_save img with
  | Ok data => data
  | Raise _ => []
  end.

Definition data_size (img : Image) : Z :=
  Z.of_nat (length (payload_of img)).

(** Every image of the list is one the encoder saves. *)
Definition saves (images : list Image) : Prop :=
  Forall (fun img => exists data, png_save img = Ok data) images.

Definition dim_byte (d : N) : Z :=
  if Z.of_N d <? 256 then Z.of_N d else 0.

Definition header_bytes (n : Z) : list byte :=
  Struct.le_bytes 2 0 ++ Struct.le_bytes 2 1 ++ Struct.le_bytes 2 n.

Definition entry_bytes (img : Image) (off : Z) : list byte :=
  Struct.le_bytes 1 (dim_byte (width img))
  ++ Struct.le_bytes 1 (dim_byte (height img))
  ++ Struct.le_bytes 1 0 ++ Struct.le_bytes 1 0
  ++ Struct.le_bytes 2 1 ++ Struct.le_bytes 2 32
  ++ Struct.le_bytes 4 (data_size img) ++ Struct.le_bytes 4 off.

(** Sum of the payload sizes. *)
Definition total_size (imgs : list Image) : Z :=
  fold_right (fun img acc => data_size img + acc) 0 imgs.

(** Where the payload of the [i]-th image starts. *)
Definition offset_of (images : list Image) (i : nat) : Z :=
  6 + Z.of_nat (length images) * 16 + total_size (firstn i images).

Fixpoint entries_from (imgs : list Image) (off : Z) : list (list byte) :=
  match imgs with
  | [] => []
  | img :: rest =>
      entry_bytes img off :: entries_from rest (off + data_size img)
  end.

(** Every size and offset fits its 32-bit field. *)
Fixpoint fits_from (imgs : list Image) (off : Z) : Prop :=
  match imgs with
  | [] => True
  | img :: rest =>
      data_size img < 2 ^ 32 /\ off < 2 ^ 32
      /\ fits_from rest (off + data_size img)
  end.

(** The inputs [create_ico] can serialise: at most 65535 images, and
    every payload size and payload offset below 2^32. *)
Definition ico_fits (images : list Image) : Prop :=
  Z.of_nat (length images) < 2 ^ 16
  /\ fits_from images (6 + Z.of_nat (length images) * 16).

Definition ico_file (images : list Image) : list byte :=
  let n := Z.of_nat (length images) in
  header_bytes n
  ++ concat (entries_from images (6 + n * 16))
  ++ concat (map payload_of images).

End Spec.
End IcoSpec.

(** ** A stand-in PNG encoder to run [create_ico] on

    The PNG signature, the two dimensions, and one byte per pixel column:
    not a PNG stream, but never empty and longer for wider images.  As
    Pillow's encoder does, it raises [SystemError] on an image without
    pixels. *)

Module RefPng.

Definition signature : list byte :=
  [x89; x50; x4e; x47; x0d; x0a; x1a; x0a].

Definition save (img : Image) : result (list byte) :=
  if (width img =? 0)%N || (height img =? 0)%N then Raise SystemError
  else Ok (signature
           ++ Struct.le_bytes 4 (Z.of_N (width img))
           ++ Struct.le_bytes 4 (Z.of_N (height img))
           ++ repeat x00 (N.to_nat (width img))).

End RefPng.

#[export] Instance ref_png : PngEncoder.
Proof.
  refine {| png_save := RefPng.save |}.
  - intros img [Hw Hh]. unfold RefPng.save.
    destruct (N.eqb_spec (width img) 0) as [ | _ ]; [ contradiction | ].
    destruct (N.eqb_spec (height img) 0) as [ | _ ]; [ contradiction | ].
    eexists. reflexivity.
  - intros img Hz. unfold RefPng.save. exists SystemError.
    destruct (N.eqb_spec (width img) 0) as [ | Hw ]; [ reflexivity | ].
    destruct (N.eqb_spec (height img) 0) as [ | Hh ]; [ reflexivity | ].
    destruct Hz; contradiction.
Defined.

(** [ico_sizes] of [main], as blank square images. *)
Definition ico_sizes : list N := [16; 24; 32; 48; 64; 128; 256]%N.

Definition blank (w h : N) : Image := Image_new w h (0, 0, 0, 255).

Definition ico_images : list Image := map (fun s => blank s s) ico_sizes.

(* ================================================================== *)
(** * Vocabulary of the statements *)
(* ================================================================== *)

(** The exact value of a finite double as a dyadic rational:
    [dyadic x = Some (n, k)] when x = n / 2^k, with k >= 0. *)
Definition dyadic (x : float) : option (Z * Z) :=
  match Prim2SF x with
  | S754_zero _ => Some (0, 0)
  | S754_finite s m e =>
      let n := if s then Z.neg m else Z.pos m in
      if 0 <=? e then Some (n * 2 ^ e, 0) else Some (n, - e)
  | _ => None
  end.

(** [v] is an integer nearest to n / 2^k. *)
Definition nearest_integer (n k v : Z) : Prop :=
  forall j : Z, Z.abs (n - v * 2 ^ k) <= Z.abs (n - j * 2 ^ k).

(** A colour with 8-bit channels. *)
Definition in_gamut (c : color) : Prop :=
  Forall (fun v => 0 <= v <= 255) c.

(** A priority list of load attempts read in order: the first attempt that
    does not fail with [OSError] decides; when all fail so, the last resort
    is used. *)
Fixpoint fallback {A} (attempts : list (result A)) (last_resort : A)
  : result A :=
  match attempts with
  | [] => Ok last_resort
  | Ok a :: _ => Ok a
  | Raise e :: rest =>
      if is_OSError e then fallback rest last_resort else Raise e
  end.

(** The three font names [create_nebula_icon] tries, in order. *)
Definition font_names : list string :=
  ["consola.ttf"; "cour.ttf"; "C:/Windows/Fonts/consola.ttf"]%string.

(** Size and pixels of the image a run returns, if it returns. *)
Definition image_size {S} (r : result (Image * S)) : option (N * N) :=
  match r with
  | Ok (img, _) => Some (width img, height img)
  | Raise _ => None
  end.

Definition pixel_at {S} (r : result (Image * S)) (x y : Z) : option rgba :=
  match r with
  | Ok (img, _) => Some (getpixel img x y)
  | Raise _ => None
  end.

(** Does a drawing call change pixel (x, y)?  Text is taken to. *)
Definition touches {pil : Pillow} (op : draw_op) (x y : Z) : bool :=
  match op with
  | Ellipse xy _ => ellipse_covers xy x y
  | Line p q _ w => line_covers p q w x y
  | Text _ _ _ _ => true
  end.

(** The run of [create_nebula_icon] on the reference libraries, entered
    with the generator as [random.seed(0)] leaves it. *)
Definition reference_run : result (Image * MT19937.state) :=
  create_nebula_icon (libm := ref_libm) (pil := ref_pillow)
    (rnd := mt_random) (MT19937.seed 0).

(** Magnitude bounds on doubles, read off their decomposition. *)

(** [m * 2^e < 2^K], for a mantissa [m >= 0]. *)
Definition bnd (m e K : Z) : Prop := 0 <= m < 2 ^ Z.max 0 (K - e).

(** A zero, or a finite number below [2^K] in magnitude whose exponent is
    at most [E]. *)
Definition sf_bnd (K E : Z) (x : spec_float) : Prop :=
  match x with
  | S754_zero _ => True
  | S754_finite _ m e => bnd (Z.pos m) e K /\ e <= E
  | _ => False
  end.

Definition sf_bndb (K E : Z) (x : spec_float) : bool :=
  match x with
  | S754_zero _ => true
  | S754_finite _ m e => (Z.pos m <? 2 ^ Z.max 0 (K - e)) && (e <=? E)
  | _ => false
  end.

(** Boolean tests used to check finitely many cases by evaluation. *)
Definition feq (x y : float) : bool := PrimFloat.Leibniz.eqb x y.

Definition int_is (x : float) (v : Z) : bool :=
  match py_int x with
  | Ok w => w =? v
  | Raise _ => false
  end.

Definition is_ok {A} (r : result A) : bool :=
  match r with
  | Ok _ => true
  | Raise _ => false
  end.

(** The fraction of sample [i] of a 200-step arc, and the point
    [draw_thick_arc] computes there. *)
Definition arc_fraction (i : Z) : float := (float_of_Z i / 200)%float.

Definition arc_sample {libm : Libm} (cx cy rx ry angle_start angle_end : Z)
    (rotation : float) (i : Z) : point :=
  arc_point cx cy rx ry (cos rotation) (sin rotation)
    (radians (float_of_Z angle_start
              + float_of_Z (angle_end - angle_start) * arc_fraction i)%float).

(* ================================================================== *)
(** * Vocabulary of the further properties *)
(* ================================================================== *)

(** A finite double other than zero, of the given sign. *)
Definition finite_nonzero (neg : bool) (x : float) : bool :=
  match Prim2SF x with
  | S754_finite s _ _ => Bool.eqb s neg
  | _ => false
  end.

(** The fraction [i / steps], and the point [draw_thick_arc] computes
    there. *)
Definition step_fraction (steps i : Z) : float :=
  (float_of_Z i / float_of_Z steps)%float.

Definition step_sample {libm : Libm} (cx cy rx ry angle_start angle_end : Z)
    (rotation : float) (steps i : Z) : point :=
  arc_point cx cy rx ry (cos rotation) (sin rotation)
    (radians (float_of_Z angle_start
              + float_of_Z (angle_end - angle_start)
                * step_fraction steps i)%float).

Definition is_line (width : Z) {pil : Pillow} (op : draw_op) : Prop :=
  match op with
  | Line _ _ _ w => w = width
  | _ => False
  end.

(** The alpha of the glow ring [j] pixels beyond the radius, j = 12 .. 1,
    as [int(60 * (1 - j / 12))] evaluates in doubles. *)
Definition glow_alphas : list (Z * Z) :=
  [(12, 0); (11, 5); (10, 9); (9, 15); (8, 20); (7, 24);
   (6, 30); (5, 34); (4, 40); (3, 45); (2, 50); (1, 55)].

(** The twelve glow ellipses of [draw_sphere], outermost first. *)
Definition glow_rings {pil : Pillow} (cx cy radius : Z) (base_color : color)
  : list draw_op :=
  map (fun ja : Z * Z =>
         Ellipse (square cx cy (radius + fst ja)) (base_color ++ [snd ja]))
      glow_alphas.

(** One ring of the body of a sphere, and one ring of its highlight, as
    the second and third loop of [draw_sphere] compute them. *)
Definition body_ring {pil : Pillow} (cx cy radius : Z)
    (base_color highlight_color : color) (r : Z) : result draw_op :=
  q <- truediv r radius ;;
  let t := (1 - q)%float in
  color <- lerp_color base_color highlight_color (t * 0.6)%float ;;
  Ok (Ellipse (square cx cy r) color).

Definition highlight_ring {pil : Pillow} (cx cy radius : Z) (r2 : Z)
  : result draw_op :=
  let hx := (float_of_Z cx - float_of_Z radius * 0.3)%float in
  let hy := (float_of_Z cy - float_of_Z radius * 0.3)%float in
  let hr := (float_of_Z radius * 0.35)%float in
  q <- fdiv (float_of_Z r2) hr ;;
  alpha <- py_int (200 * (1 - q))%float ;;
  let r2f := float_of_Z r2 in
  Ok (Ellipse (hx - r2f, hy - r2f, hx + r2f, hy + r2f)%float
        [255; 255; 255; alpha]).

(** The sign bit of a double that is not a NaN. *)
Definition sf_sign_is (s : bool) (x : spec_float) : Prop :=
  match x with
  | S754_zero s' | S754_infinity s' | S754_finite s' _ _ => s' = s
  | S754_nan => True
  end.

(** The interpolation fraction of body ring [r] of a sphere. *)
Definition body_fraction (radius r : Z) : float :=
  ((1 - float_of_Z r / float_of_Z radius) * 0.6)%float.

(** The float computations of [draw_sphere] for one radius, checked by
    evaluation: the body fractions lie in the unit interval, the highlight
    radius is [35 * radius / 100] rounded down, and the highlight alphas
    are defined. *)
Definition sphere_floats_ok (radius : Z) : bool :=
  forallb (fun r => (0 <=? body_fraction radius r)%float
                    && (body_fraction radius r <=? 1)%float)
          (range_down radius 0)
  && feq (body_fraction radius radius) 0
  && let hr := (float_of_Z radius * 0.35)%float in
     match py_int hr with
     | Ok n =>
         (n =? 35 * radius / 100)
         && forallb (fun r2 =>
                       is_ok (q <- fdiv (float_of_Z r2) hr ;;
                              py_int (200 * (1 - q))%float))
                    (range_down n 0)
     | Raise _ => false
     end.

(** How a reader of the container takes a dimension byte: 0 stands for
    256. *)
Definition read_dimension (b : Z) : Z := if b =? 0 then 256 else b.

(** ** The [.ico] step of [main] *)

(** [img.resize((w, h), Image.LANCZOS)]: Pillow's resampler; the image it
    returns has the requested size. *)
Class Resampler : Type := {
  resize : Image -> N * N -> Image;
  resize_size : forall img w h,
    width (resize img (w, h)) = w /\ height (resize img (w, h)) = h
}.

Section Main.

Context {enc : PngEncoder} {rs : Resampler}.

(** [ico_images = [master.resize((s, s), Image.LANCZOS) for s in ico_sizes]] *)
Definition main_ico_images (master : Image) : list Image :=
  map (fun s => resize master (s, s)) ico_sizes.

(** The [.ico] step of [main]: the bytes [create_ico(ico_images, ico_path)]
    writes to [icon.ico]. *)
Definition main_ico (master : Image) : result (list byte) :=
  Ico.create_ico (main_ico_images master).

End Main.

(** A resampler to run [main_ico] on: nearest neighbour. *)
Module RefResize.

Definition resize (img : Image) (size : N * N) : Image :=
  let (w, h) := size in
  mkImage w h
    (fun x y => getpixel img (x * Z.of_N (width img) / Z.of_N w)
                             (y * Z.of_N (height img) / Z.of_N h)).

End RefResize.

#[export] Instance ref_resize : Resampler :=
  {| resize := RefResize.resize;
     resize_size := fun img w h => conj eq_refl eq_refl |}.

(** ** Drawing calls and pixels *)

(** The [fill] argument of a drawing call. *)
Definition fill_of {pil : Pillow} (op : draw_op) : color :=
  match op with
  | Ellipse _ fill | Line _ _ fill _ | Text _ _ fill _ => fill
  end.

(** A call whose fill Pillow accepts for an RGBA image: three or four
    channels. *)
Definition accepted {pil : Pillow} (op : draw_op) : Prop :=
  length (fill_of op) = 3%nat \/ length (fill_of op) = 4%nat.

(** A shape drawn with an opaque ink: three channels, or a fourth equal
    to 255. *)
Definition opaque_call {pil : Pillow} (op : draw_op) : Prop :=
  match op with
  | Text _ _ _ _ => False
  | _ => length (fill_of op) = 3%nat
         \/ exists r g b, fill_of op = [r; g; b; 255]
  end.

(** A call that leaves pixel (x, y) as it was. *)
Definition leaves {pil : Pillow} (op : draw_op) (x y : Z) : Prop :=
  match op with
  | Ellipse xy _ => ellipse_covers xy x y = false
  | Line p q _ w => line_covers p q w x y = false
  | Text xy text _ f =>
      forall ink old, text_blend xy text ink f x y old = old
  end.

(** The four electron coordinates [create_nebula_icon] converts with
    [int]. *)
Definition electron_coordinates {libm : Libm} : list float :=
  [fst (electron_position 512 512 340 130 (-30) 220);
   snd (electron_position 512 512 340 130 (-30) 220);
   fst (electron_position 512 512 340 130 90 40);
   snd (electron_position 512 512 340 130 90 40)].

(** ** Enclosures of rounded values *)

(** A mantissa at an exponent, on the common scale 2^-3000: with an
    exponent above -3000 this is the integer [m * 2^e * 2^3000]. *)
Definition scaled (m e : Z) : Z := m * 2 ^ (e + 3000).

(** A double whose magnitude lies between the integers [L] and [U]: a
    zero (when [L] is 0) or a finite number. *)
Definition sf_between (L U : Z) (x : spec_float) : Prop :=
  match x with
  | S754_zero _ => L = 0
  | S754_finite _ m e =>
      -3000 <= e /\ scaled L 0 <= scaled (Z.pos m) e <= scaled U 0
  | _ => False
  end.

(** The double [x] is the integer [z], exactly. *)
Definition sf_is_int (z : Z) (x : spec_float) : bool :=
  match x with
  | S754_zero s => (z =? 0) && negb s
  | S754_finite s m e =>
      Bool.eqb s (z <? 0) && (-60 <=? e) && (e <=? 0)
      && (Z.pos m =? Z.abs z * 2 ^ (- e))
  | _ => false
  end.

(** Channel by channel, [out] lies between the colours [c1] and [c2]. *)
Definition between_colors (c1 c2 out : color) : Prop :=
  Forall2 (fun (ab : Z * Z) v =>
             Z.min (fst ab) (snd ab) <= v <= Z.max (fst ab) (snd ab))
          (combine c1 c2) out.

(** ** Fills that fit a byte *)

(** A channel value that fits a byte. *)
Definition is_byte (v : Z) : bool := (0 <=? v) && (v <=? 255).

(** The two channel values of background ring [r] fit a byte. *)
Definition background_ring_ok (r : Z) : bool :=
  match truediv r (SIZE / 2) with
  | Ok t =>
      match py_int (8 + 12 * t)%float with
      | Ok val =>
          match py_int (float_of_Z val * 1.2)%float with
          | Ok blue => is_byte val && is_byte blue
          | Raise _ => false
          end
      | Raise _ => false
      end
  | Raise _ => false
  end.

(** The alphas of the highlight of a sphere fit a byte. *)
Definition highlight_alphas_ok (radius : Z) : bool :=
  let hr := (float_of_Z radius * 0.35)%float in
  forallb (fun r2 =>
             match (q <- fdiv (float_of_Z r2) hr ;;
                    py_int (200 * (1 - q))%float) with
             | Ok alpha => is_byte alpha
             | Raise _ => false
             end)
          (range_down (35 * radius / 100) 0).

(** A fill whose channels all fit a byte, or the fill of a sparkle, whose
    blue channel is what [random.randint(180, 255)] returned. *)
Definition fill_in_gamut {pil : Pillow} (op : draw_op) : Prop :=
  in_gamut (fill_of op) \/ exists b, fill_of op = [255; 255; b].

(* ================================================================== *)
(** * Facts about the Python runtime model *)
(* ================================================================== *)

Section RuntimeFacts.

Lemma bind_Ok_inv {A B} (r : result A) (k : A -> result B) (b : B) :
  bind r k = Ok b -> exists a, r = Ok a /\ k a = Ok b.
Proof.
  destruct r as [a | e]; simpl; intros Hk; [ | discriminate ].
  exists a; split; [ reflexivity | exact Hk ].
Qed.

Lemma mapM_length {A B} (f : A -> result B) (l : list A) (ys : list B) :
  mapM f l = Ok ys -> length ys = length l.
Proof.
  revert ys; induction l as [ | x rest IH ]; simpl; intros ys Hys.
  - injection Hys as <-. reflexivity.
  - destruct (f x) as [y | e]; simpl in Hys; [ | discriminate ].
    destruct (mapM f rest) as [ys' | e]; simpl in Hys; [ | discriminate ].
    injection Hys as <-. simpl. f_equal. apply IH. reflexivity.
Qed.

Lemma mapM_nth_error {A B} (f : A -> result B) (l : list A) (ys : list B) :
  mapM f l = Ok ys ->
  forall i x, nth_error l i = Some x ->
              exists y, nth_error ys i = Some y /\ f x = Ok y.
Proof.
  revert ys; induction l as [ | x0 rest IH ]; simpl; intros ys Hys i x Hi.
  - destruct i; discriminate.
  - destruct (f x0) as [y0 | e] eqn:Hf; simpl in Hys; [ | discriminate ].
    destruct (mapM f rest) as [ys' | e]; simpl in Hys; [ | discriminate ].
    injection Hys as <-.
    destruct i as [ | i ]; simpl in *.
    + injection Hi as <-. exists y0. split; [ reflexivity | exact Hf ].
    + apply (IH ys' eq_refl i x Hi).
Qed.

(** [mapM] over total bodies is [map]. *)
Lemma mapM_Ok_map {A B} (f : A -> result B) (g : A -> B) (l : list A) :
  (forall x, In x l -> f x = Ok (g x)) -> mapM f l = Ok (map g l).
Proof.
  induction l as [ | x rest IH ]; simpl; intros Hf; [ reflexivity | ].
  rewrite (Hf x (or_introl eq_refl)). simpl.
  rewrite IH by (intros y Hy; apply Hf; right; exact Hy).
  reflexivity.
Qed.

Lemma range_length n : 0 <= n -> length (range n) = Z.to_nat n.
Proof. intros _. unfold range. rewrite length_map, length_seq. reflexivity. Qed.

Lemma range_nth_error n i :
  (i < Z.to_nat n)%nat -> nth_error (range n) i = Some (Z.of_nat i).
Proof.
  intros Hi. unfold range.
  rewrite nth_error_map, nth_error_seq.
  destruct (Nat.ltb_spec i (Z.to_nat n)); [ reflexivity | lia ].
Qed.

(** Operands below 2^53 are divided as doubles. *)
Lemma truediv_small (a b : Z) :
  b <> 0 -> Z.abs a < 2 ^ 53 -> Z.abs b < 2 ^ 53 ->
  truediv a b = Ok (float_of_Z a / float_of_Z b)%float.
Proof.
  intros Hb Ha Hb53. unfold truediv.
  destruct (Z.eqb_spec b 0) as [ | _ ]; [ contradiction | ].
  destruct (Z.ltb_spec (Z.abs a) (2 ^ 53)) as [ _ | ]; [ | lia ].
  destruct (Z.ltb_spec (Z.abs b) (2 ^ 53)) as [ _ | ]; [ | lia ].
  reflexivity.
Qed.

End RuntimeFacts.

(* ================================================================== *)
(** * Facts about [struct.pack] *)
(* ================================================================== *)

Module StructFacts.
Import Struct.

Lemma Z_of_byte_range b : 0 <= Z_of_byte b < 256.
Proof.
  unfold Z_of_byte. pose proof (Byte.to_N_bounded b). lia.
Qed.

Lemma Z_of_byte_of_Z z : 0 <= z < 256 -> Z_of_byte (byte_of_Z z) = z.
Proof.
  intros Hz. unfold Z_of_byte, byte_of_Z.
  rewrite Z.mod_small by lia.
  destruct (Byte.of_N (Z.to_N z)) as [b | ] eqn:Hb.
  - apply Byte.to_of_N in Hb. rewrite Hb. lia.
  - apply Byte.of_N_None_iff in Hb. lia.
Qed.

Lemma byte_of_Z_mod z : byte_of_Z (z mod 256) = byte_of_Z z.
Proof. unfold byte_of_Z. rewrite Z.mod_mod by lia. reflexivity. Qed.

Lemma le_bytes_length n v : length (le_bytes n v) = n.
Proof.
  revert v; induction n as [ | n IH ]; intros v; simpl;
    [ reflexivity | rewrite IH; reflexivity ].
Qed.

(** Decoding what was encoded gives the value back, when it fits. *)
Lemma le_value_le_bytes n v :
  0 <= v < 256 ^ Z.of_nat n -> le_value (le_bytes n v) = v.
Proof.
  revert v; induction n as [ | n IH ]; intros v Hv.
  - simpl in *. lia.
  - cbn [le_bytes le_value].
    rewrite Nat2Z.inj_succ, Z.pow_succ_r in Hv by lia.
    rewrite IH by (split; [ apply Z.div_pos; lia
                          | apply Z.div_lt_upper_bound; lia ]).
    rewrite <- byte_of_Z_mod.
    rewrite Z_of_byte_of_Z by (apply Z.mod_pos_bound; lia).
    pose proof (Z.div_mod v 256). lia.
Qed.

Lemma pack_field_Ok f v bs :
  pack_field f v = Ok bs <->
  0 <= v < 256 ^ Z.of_nat (size f) /\ bs = le_bytes (size f) v.
Proof.
  unfold pack_field.
  destruct (Z.leb_spec 0 v), (Z.ltb_spec v (256 ^ Z.of_nat (size f)));
    simpl; split; intros Hp;
    try discriminate; try lia.
  - injection Hp as <-. split; [ lia | reflexivity ].
  - destruct Hp as [_ ->]. reflexivity.
Qed.

Lemma pack_field_Raise f v e :
  pack_field f v = Raise e -> ~ (0 <= v < 256 ^ Z.of_nat (size f)).
Proof.
  unfold pack_field.
  destruct (Z.leb_spec 0 v), (Z.ltb_spec v (256 ^ Z.of_nat (size f)));
    simpl; intros Hp; try discriminate; lia.
Qed.

End StructFacts.

(* ================================================================== *)
(** * Facts about [create_ico] *)
(* ================================================================== *)

Module IcoFacts.
Import Struct StructFacts IcoReader IcoSpec.

Section Encoder.

Context {enc : PngEncoder}.


Lemma data_size_nonneg img : 0 <= data_size img.
Proof. unfold IcoSpec.data_size. lia. Qed.

Lemma dim_byte_range d : 0 <= dim_byte d < 256.
Proof. unfold dim_byte. destruct (Z.ltb_spec (Z.of_N d) 256); lia. Qed.

Lemma pack_field_fits f v :
  0 <= v < 256 ^ Z.of_nat (size f) ->
  pack_field f v = Ok (le_bytes (size f) v).
Proof. intros Hv. apply pack_field_Ok. split; [ exact Hv | reflexivity ]. Qed.

(** One directory entry: it is produced exactly when size and offset fit
    32 bits, and then it is the 16 bytes of [entry_bytes]. *)
Lemma dir_entry_Ok img off e :
  0 <= off ->
  Ico.dir_entry img (data_size img) off = Ok e <->
  (data_size img < 2 ^ 32 /\ off < 2 ^ 32) /\ e = entry_bytes img off.
Proof.
  intros Hoff. unfold Ico.dir_entry, pack. cbn [mapM fst snd].
  fold (dim_byte (width img)). fold (dim_byte (height img)).
  rewrite (pack_field_fits B (dim_byte (width img)))
    by (pose proof (dim_byte_range (width img)); simpl; lia).
  rewrite (pack_field_fits B (dim_byte (height img)))
    by (pose proof (dim_byte_range (height img)); simpl; lia).
  rewrite (pack_field_fits B 0) by (simpl; lia).
  rewrite (pack_field_fits H 1) by (simpl; lia).
  rewrite (pack_field_fits H 32) by (simpl; lia).
  cbn [bind].
  pose proof (data_size_nonneg img) as Hds.
  destruct (pack_field I (data_size img)) as [b1 | e1] eqn:H1.
  - apply pack_field_Ok in H1. destruct H1 as [R1 ->].
    destruct (pack_field I off) as [b2 | e2] eqn:H2.
    + apply pack_field_Ok in H2. destruct H2 as [R2 ->].
      cbn [bind concat size]. unfold IcoSpec.entry_bytes.
      rewrite app_nil_r. simpl in R1, R2.
      split.
      * intros Heq. injection Heq as <-. split; [ lia | reflexivity ].
      * intros [_ ->]. reflexivity.
    + apply pack_field_Raise in H2. cbn [bind]. simpl in H2.
      split; [ discriminate | intros [[_ Hlt] _]; lia ].
  - apply pack_field_Raise in H1. cbn [bind]. simpl in H1.
    split; [ discriminate | intros [[Hlt _] _]; lia ].
Qed.

Lemma entry_bytes_length img off : length (entry_bytes img off) = 16%nat.
Proof.
  unfold IcoSpec.entry_bytes. repeat rewrite length_app.
  repeat rewrite le_bytes_length. reflexivity.
Qed.

Lemma skipn_cons_inv {A} (l : list A) k x rest :
  skipn k l = x :: rest ->
  nth_error l k = Some x /\ skipn (S k) l = rest /\ (k < length l)%nat.
Proof.
  revert l; induction k as [ | k IH ]; intros l Hs.
  - destruct l as [ | y l ]; simpl in Hs; [ discriminate | ].
    injection Hs as -> ->. simpl. repeat split. lia.
  - destruct l as [ | y l ]; simpl in Hs; [ discriminate | ].
    destruct (IH l Hs) as (Hn & Hr & Hl). simpl. repeat split; auto. lia.
Qed.

(** The directory loop from image [k] on. *)
Lemma directory_loop_skipn (all : list Image) (rest : list Image) :
  forall k dir off d,
    skipn k all = rest -> 0 <= off ->
    Ico.directory_loop (map payload_of all)
      (combine (map Z.of_nat (seq k (length all - k))) rest) dir off = Ok d
    <-> fits_from rest off /\ d = dir ++ concat (entries_from rest off).
Proof.
  induction rest as [ | img rest IH ]; intros k dir off d Hs Hoff.
  - rewrite combine_nil. simpl. rewrite app_nil_r.
    split; [ intros Hd; injection Hd as <-; auto | intros [_ ->]; auto ].
  - destruct (skipn_cons_inv _ _ _ _ Hs) as (Hnth & Hrest & Hlt).
    replace (length all - k)%nat with (S (length all - S k)) by lia.
    cbn [seq map combine Ico.directory_loop].
    rewrite Nat2Z.id, nth_error_map, Hnth. cbn [option_map].
    fold (data_size img).
    destruct (Ico.dir_entry img (data_size img) off) as [e | ex] eqn:He.
    + apply dir_entry_Ok in He; [ | exact Hoff ].
      destruct He as [[Hsz Ho] ->]. cbn [bind].
      rewrite (IH (S k) _ _ d Hrest)
        by (pose proof (data_size_nonneg img); lia).
      cbn [IcoSpec.fits_from IcoSpec.entries_from concat].
      rewrite <- app_assoc. tauto.
    + cbn [bind]. split; [ discriminate | ].
      cbn [IcoSpec.fits_from]. intros [(Hsz & Ho & _) _].
      assert (Hok : Ico.dir_entry img (data_size img) off
                    = Ok (entry_bytes img off))
        by (apply dir_entry_Ok; auto).
      congruence.
Qed.

Lemma write_all (datas : list (list byte)) (start : list byte) :
  fold_left (fun f data => f ++ data) datas start = start ++ concat datas.
Proof.
  revert start; induction datas as [ | d datas IH ]; intros start; simpl.
  - rewrite app_nil_r. reflexivity.
  - rewrite IH, <- app_assoc. reflexivity.
Qed.

Lemma header_Ok n hdr :
  0 <= n ->
  pack [(H, 0); (H, 1); (H, n)] = Ok hdr <->
  n < 2 ^ 16 /\ hdr = header_bytes n.
Proof.
  intros Hn. unfold pack. cbn [mapM fst snd].
  rewrite (pack_field_fits H 0), (pack_field_fits H 1) by (simpl; lia).
  cbn [bind].
  destruct (pack_field H n) as [b | e] eqn:Hp.
  - apply pack_field_Ok in Hp. destruct Hp as [R ->]. simpl in R.
    cbn [bind concat size]. unfold header_bytes. rewrite app_nil_r.
    split; [ intros Hq; injection Hq as <-; split; [ lia | reflexivity ]
           | intros [_ ->]; reflexivity ].
  - apply pack_field_Raise in Hp. simpl in Hp. cbn [bind].
    split; [ discriminate | intros [Hlt _]; lia ].
Qed.

Lemma payload_of_Ok img data : png_save img = Ok data -> payload_of img = data.
Proof. unfold IcoSpec.payload_of. intros ->. reflexivity. Qed.

Lemma save_loop_Ok (images : list Image) (datas : list (list byte)) :
  mapM png_save images = Ok datas <->
  saves images /\ datas = map payload_of images.
Proof.
  revert datas. induction images as [ | img images IH ]; intros datas;
    cbn [mapM map].
  - split; [ intros Hd; injection Hd as <-; split; [ constructor | auto ]
           | intros [_ ->]; reflexivity ].
  - destruct (png_save img) as [data | e] eqn:Hs; cbn [bind].
    + rewrite (payload_of_Ok _ _ Hs).
      destruct (mapM png_save images) as [rest | e] eqn:Hr; cbn [bind].
      * destruct (proj1 (IH rest) eq_refl) as [Hall ->].
        split.
        -- intros Hd. injection Hd as <-.
           split; [ constructor; eauto | reflexivity ].
        -- intros [_ ->]. reflexivity.
      * split; [ discriminate | ].
        intros [Hall _]. inversion Hall as [ | ? ? _ Hrest ]; subst.
        pose proof (proj2 (IH _) (conj Hrest eq_refl)) as Hok.
        discriminate Hok.
    + split; [ discriminate | ].
      intros [Hall _]. inversion Hall as [ | ? ? [d Hd] _ ]; subst.
      congruence.
Qed.

Lemma saves_In images img :
  saves images -> In img images -> png_save img = Ok (payload_of img).
Proof.
  intros Hall Hin. unfold IcoSpec.saves in Hall.
  rewrite Forall_forall in Hall. destruct (Hall img Hin) as [data Hd].
  rewrite (payload_of_Ok _ _ Hd). exact Hd.
Qed.

(** With the encoder's two laws, the images that are saved are those that
    have pixels. *)
Lemma saves_pixels (images : list Image) :
  saves images <-> Forall has_pixels images.
Proof.
  unfold IcoSpec.saves. rewrite !Forall_forall. split; intros Hall img Hin.
  - destruct (Hall img Hin) as [data Hd]. split; intros Hz.
    + destruct (png_save_empty img (or_introl Hz)) as [e He]. congruence.
    + destruct (png_save_empty img (or_intror Hz)) as [e He]. congruence.
  - apply png_save_pixels, Hall, Hin.
Qed.

(** [create_ico] in closed form: it returns exactly on the inputs whose
    images are all saved and that fit the container's fields, and then
    writes [ico_file]. *)
Lemma create_ico_Ok (images : list Image) (bytes : list byte) :
  Ico.create_ico images = Ok bytes <->
  saves images /\ ico_fits images /\ bytes = ico_file images.
Proof.
  unfold Ico.create_ico, ico_fits, ico_file.
  set (n := Z.of_nat (length images)).
  assert (Hn : 0 <= n) by (unfold n; lia).
  assert (Hloop : forall d,
    Ico.directory_loop (map payload_of images) (enumerate images) []
      (6 + n * 16) = Ok d
    <-> fits_from images (6 + n * 16)
        /\ d = concat (entries_from images (6 + n * 16))).
  { intros d. unfold enumerate, range. rewrite Nat2Z.id.
    replace (length images) with (length images - 0)%nat at 1 by lia.
    apply (directory_loop_skipn images images 0%nat [] (6 + n * 16) d);
      [ reflexivity | lia ]. }
  destruct (pack [(H, 0); (H, 1); (H, n)]) as [hdr | e] eqn:Hh.
  - apply header_Ok in Hh; [ | exact Hn ]. destruct Hh as [Hlt ->].
    cbn [bind].
    destruct (mapM png_save images) as [datas | e] eqn:Hs.
    + apply save_loop_Ok in Hs. destruct Hs as [Hall ->]. cbn [bind].
      destruct (Ico.directory_loop _ _ _ _) as [d | e] eqn:Hd.
      * destruct (proj1 (Hloop d) eq_refl) as [Hfit ->]. cbn [bind].
        rewrite write_all, <- app_assoc.
        split; [ intros Hq; injection Hq as <-; auto
               | intros (_ & _ & ->); auto ].
      * cbn [bind]. split; [ discriminate | ].
        intros (_ & [_ Hfit] & _).
        pose proof (proj2 (Hloop _) (conj Hfit eq_refl)) as Hok.
        discriminate Hok.
    + cbn [bind]. split; [ discriminate | ].
      intros (Hall & _ & _).
      pose proof (proj2 (save_loop_Ok images _) (conj Hall eq_refl)) as Hok.
      congruence.
  - cbn [bind]. split; [ discriminate | ].
    intros (_ & [Hlt _] & _).
    assert (Hok : pack [(H, 0); (H, 1); (H, n)] = Ok (header_bytes n))
      by (apply header_Ok; auto).
    congruence.
Qed.

(** ** Slicing a concatenation *)

Lemma slice_app_r {A} (a b : list A) off len :
  firstn len (skipn (length a + off) (a ++ b)) = firstn len (skipn off b).
Proof.
  rewrite skipn_app.
  replace (length a + off - length a)%nat with off by lia.
  rewrite (skipn_all2 a) by lia. reflexivity.
Qed.

Lemma slice_app_l {A} (a b : list A) off len :
  (off + len <= length a)%nat ->
  firstn len (skipn off (a ++ b)) = firstn len (skipn off a).
Proof.
  intros Hle. rewrite skipn_app, firstn_app, length_skipn.
  replace (len - (length a - off))%nat with 0%nat by lia.
  rewrite firstn_O, app_nil_r. reflexivity.
Qed.

Lemma slice_whole {A} (a b : list A) :
  firstn (length a) (a ++ b) = a.
Proof.
  rewrite firstn_app, Nat.sub_diag, firstn_O, app_nil_r.
  apply firstn_all.
Qed.

(** The [i]-th of equally long chunks, and any window inside it. *)
Lemma slice_chunk {A} (m : nat) (chunks : list (list A)) (post : list A) :
  Forall (fun c => length c = m) chunks ->
  forall i c k len,
    nth_error chunks i = Some c -> (k + len <= m)%nat ->
    firstn len (skipn (m * i + k) (concat chunks ++ post))
    = firstn len (skipn k c).
Proof.
  induction 1 as [ | c0 chunks Hc0 Hall IH ]; intros i c k len Hi Hk.
  - destruct i; discriminate.
  - destruct i as [ | i ]; simpl in Hi.
    + injection Hi as ->. rewrite Nat.mul_0_r, Nat.add_0_l.
      cbn [concat]. rewrite <- app_assoc.
      apply slice_app_l. lia.
    + cbn [concat]. rewrite <- app_assoc.
      replace (m * S i + k)%nat with (length c0 + (m * i + k))%nat by lia.
      rewrite slice_app_r. apply IH; assumption.
Qed.

(** The [i]-th of arbitrary chunks sits after the chunks before it. *)
Lemma slice_concat_nth {A} (chunks : list (list A)) :
  forall i c,
    nth_error chunks i = Some c ->
    firstn (length c) (skipn (length (concat (firstn i chunks)))
                             (concat chunks)) = c.
Proof.
  induction chunks as [ | c0 chunks IH ]; intros i c Hi.
  - destruct i; discriminate.
  - destruct i as [ | i ]; simpl in Hi.
    + injection Hi as ->. cbn [firstn concat length skipn].
      apply slice_whole.
    + cbn [firstn concat]. rewrite length_app.
      rewrite slice_app_r. apply IH. exact Hi.
Qed.

(** ** The closed form, entry by entry *)

Lemma total_size_nonneg imgs : 0 <= total_size imgs.
Proof.
  induction imgs as [ | img imgs IH ]; simpl; [ lia | ].
  pose proof (data_size_nonneg img). lia.
Qed.

Lemma total_size_cons img imgs :
  total_size (img :: imgs) = data_size img + total_size imgs.
Proof. reflexivity. Qed.

Lemma total_size_concat imgs :
  total_size imgs = Z.of_nat (length (concat (map payload_of imgs))).
Proof.
  induction imgs as [ | img imgs IH ]; simpl; [ reflexivity | ].
  rewrite length_app, IH. unfold IcoSpec.data_size. lia.
Qed.

Lemma total_size_firstn_S imgs i img :
  nth_error imgs i = Some img ->
  total_size (firstn (S i) imgs)
  = total_size (firstn i imgs) + data_size img.
Proof.
  revert i; induction imgs as [ | img0 imgs IH ]; intros i Hi.
  - destruct i; discriminate.
  - destruct i as [ | i ]; simpl in Hi.
    + injection Hi as ->. simpl. lia.
    + rewrite !firstn_cons, !total_size_cons, (IH i Hi). lia.
Qed.

Lemma total_size_firstn_all imgs :
  total_size (firstn (length imgs) imgs) = total_size imgs.
Proof. rewrite firstn_all. reflexivity. Qed.

Lemma entries_from_length imgs off :
  length (entries_from imgs off) = length imgs.
Proof.
  revert off; induction imgs as [ | img imgs IH ]; intros off; simpl;
    [ reflexivity | rewrite IH; reflexivity ].
Qed.

Lemma entries_from_16 imgs off :
  Forall (fun c => length c = 16%nat) (entries_from imgs off).
Proof.
  revert off; induction imgs as [ | img imgs IH ]; intros off; simpl;
    constructor; [ apply entry_bytes_length | apply IH ].
Qed.

Lemma entries_from_nth imgs :
  forall off i img,
    nth_error imgs i = Some img ->
    nth_error (entries_from imgs off) i
    = Some (entry_bytes img (off + total_size (firstn i imgs))).
Proof.
  induction imgs as [ | img0 imgs IH ]; intros off i img Hi.
  - destruct i; discriminate.
  - destruct i as [ | i ]; simpl in Hi.
    + injection Hi as ->. simpl. rewrite Z.add_0_r. reflexivity.
    + cbn [IcoSpec.entries_from nth_error].
      rewrite (IH _ i img Hi), firstn_cons, total_size_cons.
      do 2 f_equal. lia.
Qed.

Lemma fits_from_nth imgs :
  forall off i img,
    fits_from imgs off -> nth_error imgs i = Some img ->
    data_size img < 2 ^ 32
    /\ off + total_size (firstn i imgs) < 2 ^ 32.
Proof.
  induction imgs as [ | img0 imgs IH ]; intros off i img Hfit Hi.
  - destruct i; discriminate.
  - destruct Hfit as (Hsz & Hoff & Hrest).
    destruct i as [ | i ]; simpl in Hi.
    + injection Hi as ->. simpl. split; lia.
    + destruct (IH _ i img Hrest Hi) as [Hs Ho].
      split; [ exact Hs | ].
      rewrite firstn_cons, total_size_cons. lia.
Qed.

Lemma concat_entries_length imgs off :
  length (concat (entries_from imgs off)) = (16 * length imgs)%nat.
Proof.
  revert off; induction imgs as [ | img imgs IH ]; intros off;
    [ reflexivity | ].
  cbn [IcoSpec.entries_from concat]. rewrite length_app, IH.
  rewrite entry_bytes_length. simpl length. lia.
Qed.

Lemma header_bytes_length n : length (header_bytes n) = 6%nat.
Proof. reflexivity. Qed.

Lemma ico_file_length images :
  Z.of_nat (length (ico_file images))
  = 6 + 16 * Z.of_nat (length images) + total_size images.
Proof.
  unfold IcoSpec.ico_file. rewrite !length_app.
  rewrite header_bytes_length, concat_entries_length, total_size_concat.
  lia.
Qed.

(** Any window of the [i]-th directory entry of the file. *)
Lemma read_entry_window images i img k len :
  nth_error images i = Some img -> (k + len <= 16)%nat ->
  slice (entry_at i + k) len (ico_file images)
  = slice k len (entry_bytes img (offset_of images i)).
Proof.
  intros Hi Hk. unfold slice, entry_at, IcoSpec.ico_file.
  replace (6 + 16 * i + k)%nat
    with (length (header_bytes (Z.of_nat (length images)))
          + (16 * i + k))%nat
    by (rewrite header_bytes_length; lia).
  rewrite slice_app_r.
  apply slice_chunk; [ apply entries_from_16 | | exact Hk ].
  unfold IcoSpec.offset_of. apply entries_from_nth. exact Hi.
Qed.

(** The payload window of the [i]-th image. *)
Lemma read_payload_window images i img :
  nth_error images i = Some img ->
  slice (Z.to_nat (offset_of images i)) (Z.to_nat (data_size img))
    (ico_file images)
  = payload_of img.
Proof.
  intros Hi. unfold slice, IcoSpec.ico_file, IcoSpec.offset_of.
  rewrite app_assoc.
  set (pre := header_bytes _ ++ concat _).
  assert (Hpre : length pre = (6 + 16 * length images)%nat).
  { unfold pre. rewrite length_app, header_bytes_length,
      concat_entries_length. reflexivity. }
  rewrite total_size_concat.
  replace (Z.to_nat (6 + Z.of_nat (length images) * 16
                     + Z.of_nat (length (concat (map payload_of
                                                   (firstn i images))))))
    with (length pre
          + length (concat (firstn i (map payload_of images))))%nat
    by (rewrite Hpre, firstn_map; lia).
  rewrite slice_app_r.
  unfold IcoSpec.data_size. rewrite Nat2Z.id.
  apply slice_concat_nth.
  rewrite nth_error_map, Hi. reflexivity.
Qed.

(** ** What a reader finds in the file *)

Lemma read_header images k len :
  (k + len <= 6)%nat ->
  slice k len (ico_file images)
  = slice k len (header_bytes (Z.of_nat (length images))).
Proof.
  intros Hk. unfold slice, IcoSpec.ico_file.
  apply slice_app_l. rewrite header_bytes_length. exact Hk.
Qed.

Lemma read_reserved images : reserved (ico_file images) = 0.
Proof.
  unfold reserved, field. rewrite read_header by lia. reflexivity.
Qed.

Lemma read_type images : type (ico_file images) = 1.
Proof.
  unfold type, field. rewrite read_header by lia. reflexivity.
Qed.

Lemma read_count images :
  Z.of_nat (length images) < 2 ^ 16 ->
  count (ico_file images) = Z.of_nat (length images).
Proof.
  intros Hn. unfold count, field. rewrite read_header by lia.
  change (slice 4 2 (header_bytes ?n)) with (le_bytes 2 n).
  apply le_value_le_bytes. simpl. lia.
Qed.

Lemma read_entry images i img :
  nth_error images i = Some img ->
  entry (ico_file images) i = entry_bytes img (offset_of images i).
Proof.
  intros Hi. unfold entry.
  rewrite <- (Nat.add_0_r (entry_at i)).
  rewrite (read_entry_window images i img 0 16 Hi) by lia.
  unfold slice. cbn [skipn].
  rewrite <- (entry_bytes_length img (offset_of images i)).
  apply firstn_all.
Qed.

Lemma read_entry_width images i img :
  nth_error images i = Some img ->
  entry_width (ico_file images) i = dim_byte (width img).
Proof.
  intros Hi. unfold entry_width, field.
  rewrite <- (Nat.add_0_r (entry_at i)).
  rewrite (read_entry_window images i img 0 1 Hi) by lia.
  change (slice 0 1 (entry_bytes img ?o))
    with (le_bytes 1 (dim_byte (width img))).
  apply le_value_le_bytes. pose proof (dim_byte_range (width img)).
  simpl. lia.
Qed.

Lemma read_entry_height images i img :
  nth_error images i = Some img ->
  entry_height (ico_file images) i = dim_byte (height img).
Proof.
  intros Hi. unfold entry_height, field.
  rewrite (read_entry_window images i img 1 1 Hi) by lia.
  change (slice 1 1 (entry_bytes img ?o))
    with (le_bytes 1 (dim_byte (height img))).
  apply le_value_le_bytes. pose proof (dim_byte_range (height img)).
  simpl. lia.
Qed.

Lemma read_entry_constants images i img :
  nth_error images i = Some img ->
  entry_color_count (ico_file images) i = 0
  /\ entry_reserved (ico_file images) i = 0
  /\ entry_planes (ico_file images) i = 1
  /\ entry_bit_count (ico_file images) i = 32.
Proof.
  intros Hi.
  unfold entry_color_count, entry_reserved, entry_planes, entry_bit_count,
    field.
  rewrite (read_entry_window images i img 2 1 Hi) by lia.
  rewrite (read_entry_window images i img 3 1 Hi) by lia.
  rewrite (read_entry_window images i img 4 2 Hi) by lia.
  rewrite (read_entry_window images i img 6 2 Hi) by lia.
  repeat split; reflexivity.
Qed.

Lemma read_entry_size images i img :
  ico_fits images -> nth_error images i = Some img ->
  entry_size (ico_file images) i = data_size img.
Proof.
  intros [_ Hfit] Hi. unfold entry_size, field.
  rewrite (read_entry_window images i img 8 4 Hi) by lia.
  change (slice 8 4 (entry_bytes img ?o)) with (le_bytes 4 (data_size img)).
  apply le_value_le_bytes.
  pose proof (data_size_nonneg img).
  destruct (fits_from_nth _ _ _ _ Hfit Hi) as [Hs _]. simpl. lia.
Qed.

Lemma offset_of_nonneg images i : 0 <= offset_of images i.
Proof.
  unfold IcoSpec.offset_of.
  pose proof (total_size_nonneg (firstn i images)). lia.
Qed.

Lemma read_entry_offset images i img :
  ico_fits images -> nth_error images i = Some img ->
  entry_offset (ico_file images) i = offset_of images i.
Proof.
  intros [_ Hfit] Hi. unfold entry_offset, field.
  rewrite (read_entry_window images i img 12 4 Hi) by lia.
  change (slice 12 4 (entry_bytes img ?o)) with (le_bytes 4 o).
  apply le_value_le_bytes.
  pose proof (offset_of_nonneg images i).
  destruct (fits_from_nth _ _ _ _ Hfit Hi) as [_ Ho].
  change (256 ^ Z.of_nat 4) with (2 ^ 32).
  unfold IcoSpec.offset_of in *. lia.
Qed.

Lemma read_payload images i img :
  ico_fits images -> nth_error images i = Some img ->
  payload (ico_file images) i = payload_of img.
Proof.
  intros Hfit Hi. unfold payload.
  rewrite (read_entry_offset _ _ _ Hfit Hi), (read_entry_size _ _ _ Hfit Hi).
  apply read_payload_window. exact Hi.
Qed.

(** ** Offsets are contiguous and increasing *)

Lemma offset_of_S images i img :
  nth_error images i = Some img ->
  offset_of images (S i) = offset_of images i + data_size img.
Proof.
  intros Hi. unfold IcoSpec.offset_of.
  rewrite (total_size_firstn_S _ _ _ Hi). lia.
Qed.

Lemma offset_of_end images :
  offset_of images (length images) = Z.of_nat (length (ico_file images)).
Proof.
  unfold IcoSpec.offset_of.
  rewrite total_size_firstn_all, ico_file_length. lia.
Qed.

Lemma offset_of_next_le images i j img :
  nth_error images i = Some img -> (i < j <= length images)%nat ->
  offset_of images i + data_size img <= offset_of images j.
Proof.
  intros Hi [Hij Hj]. induction j as [ | j IH ]; [ lia | ].
  destruct (nth_error images j) as [imgj | ] eqn:Hnj;
    [ | apply nth_error_None in Hnj; lia ].
  rewrite (offset_of_S _ _ _ Hnj).
  pose proof (data_size_nonneg imgj).
  destruct (Nat.eq_dec i j) as [-> | Hne].
  - rewrite Hi in Hnj. injection Hnj as ->. lia.
  - assert (i < j)%nat by lia. assert (j <= length images)%nat by lia.
    specialize (IH ltac:(assumption) ltac:(assumption)). lia.
Qed.

Lemma data_size_pos img : payload_of img <> [] -> 0 < data_size img.
Proof.
  unfold IcoSpec.data_size. destruct (payload_of img); [ congruence | ].
  simpl length. lia.
Qed.

End Encoder.
End IcoFacts.

(* ================================================================== *)
(** * The icon container: layout, dimension bytes, empty input *)
(* ================================================================== *)

Module IcoTheorems.
Import Struct StructFacts IcoReader IcoSpec IcoFacts.

Section Encoder.

Context {enc : PngEncoder}.

(** C3. [create_ico] returns exactly on the lists whose images all have
    pixels (the PNG encoder raises on an image of width or height zero)
    and that fit the container's fields (at most 65535 images, sizes and
    offsets below 2^32; otherwise [struct.pack] raises), and the byte
    stream it produces for N images is: the 6-byte header with
    reserved = 0, type = 1, count = N in little-endian 16-bit fields; then
    N directory entries of 16 bytes; then the N payloads, the PNG streams
    of the images, concatenated in the order of their entries.  The first
    offset is 6 + 16 N, each offset plus its payload length is the next
    offset (the file length for the last entry), each entry points at its
    own payload, the offsets increase strictly when no payload is empty,
    and no two payloads overlap. *)
Theorem create_ico_layout (images : list Image) :
  ((Forall has_pixels images /\ ico_fits images)
   <-> exists bytes, Ico.create_ico images = Ok bytes)
  /\ forall bytes, Ico.create_ico images = Ok bytes ->
     let n := length images in
     firstn 6 bytes = le_bytes 2 0 ++ le_bytes 2 1 ++ le_bytes 2 (Z.of_nat n)
     /\ reserved bytes = 0 /\ type bytes = 1 /\ count bytes = Z.of_nat n
     /\ (exists directory payloads,
            mapM png_save images = Ok payloads
            /\ length directory = (16 * n)%nat
            /\ bytes = firstn 6 bytes ++ directory ++ concat payloads)
     /\ (forall i img, nth_error images i = Some img ->
            length (entry bytes i) = 16%nat
            /\ entry_color_count bytes i = 0
            /\ entry_reserved bytes i = 0
            /\ entry_planes bytes i = 1
            /\ entry_bit_count bytes i = 32
            /\ png_save img = Ok (payload bytes i)
            /\ entry_size bytes i = Z.of_nat (length (payload bytes i))
            /\ entry_offset bytes i + entry_size bytes i
               = if (S i <? n)%nat then entry_offset bytes (S i)
                 else Z.of_nat (length bytes))
     /\ ((0 < n)%nat -> entry_offset bytes 0 = 6 + 16 * Z.of_nat n)
     /\ (forall i j, (i < j < n)%nat ->
            entry_offset bytes i + entry_size bytes i
            <= entry_offset bytes j)
     /\ ((forall img, In img images -> png_save img <> Ok []) ->
         forall i j, (i < j < n)%nat ->
            entry_offset bytes i < entry_offset bytes j).
Proof.
  split.
  - split.
    + intros [Hpix Hfit]. exists (ico_file images).
      apply create_ico_Ok.
      split; [ apply saves_pixels; exact Hpix | ].
      split; [ exact Hfit | reflexivity ].
    + intros [bytes Hb]. apply create_ico_Ok in Hb.
      destruct Hb as (Hs & Hfit & _).
      split; [ apply saves_pixels; exact Hs | exact Hfit ].
  - intros bytes Hb n. apply create_ico_Ok in Hb.
    destruct Hb as (Hsaves & Hfit & ->).
    assert (Hget : forall i, (i < n)%nat ->
                             exists img, nth_error images i = Some img).
    { intros i Hi. destruct (nth_error images i) as [img | ] eqn:Hn;
        [ eauto | apply nth_error_None in Hn; unfold n in Hi; lia ]. }
    assert (Hhdr : firstn 6 (ico_file images)
                   = header_bytes (Z.of_nat n)).
    { unfold IcoSpec.ico_file. fold n.
      rewrite <- (header_bytes_length (Z.of_nat n)) at 1.
      apply slice_whole. }
    split; [ exact Hhdr | ].
    split; [ apply read_reserved | ].
    split; [ apply read_type | ].
    split; [ apply read_count; apply Hfit | ].
    split.
    { exists (concat (entries_from images (6 + Z.of_nat n * 16))),
        (map payload_of images).
      split; [ apply save_loop_Ok; split; [ exact Hsaves | reflexivity ] | ].
      split; [ apply concat_entries_length | ].
      rewrite Hhdr. reflexivity. }
    split.
    { intros i img Hi.
      destruct (read_entry_constants images i img Hi) as (Hc & Hr & Hp & Hbc).
      rewrite (read_entry _ _ _ Hi), entry_bytes_length.
      rewrite (read_entry_size _ _ _ Hfit Hi),
        (read_entry_offset _ _ _ Hfit Hi), (read_payload _ _ _ Hfit Hi).
      repeat (split; [ solve [ auto ] | ]).
      split; [ apply (saves_In images img Hsaves (nth_error_In _ _ Hi)) | ].
      split; [ reflexivity | ].
      assert (Hlt : (i < n)%nat) by (apply nth_error_Some; congruence).
      destruct (Nat.ltb_spec (S i) n) as [Hnext | Hlast].
      - destruct (Hget (S i) Hnext) as [img' Hi'].
        rewrite (read_entry_offset _ _ _ Hfit Hi').
        symmetry. apply offset_of_S. exact Hi.
      - assert (S i = n) as Hn by lia.
        rewrite <- offset_of_end. fold n. rewrite <- Hn.
        symmetry. apply offset_of_S. exact Hi. }
    split.
    { intros Hpos. destruct (Hget 0%nat Hpos) as [img Hi].
      rewrite (read_entry_offset _ _ _ Hfit Hi).
      unfold IcoSpec.offset_of. fold n. simpl firstn. simpl total_size. lia. }
    split.
    { intros i j [Hij Hj].
      destruct (Hget i ltac:(lia)) as [imgi Hi].
      destruct (Hget j Hj) as [imgj Hnj].
      rewrite (read_entry_offset _ _ _ Hfit Hi),
        (read_entry_size _ _ _ Hfit Hi), (read_entry_offset _ _ _ Hfit Hnj).
      apply offset_of_next_le; [ exact Hi | unfold n in Hj; lia ]. }
    { intros Hne i j [Hij Hj].
      destruct (Hget i ltac:(lia)) as [imgi Hi].
      destruct (Hget j Hj) as [imgj Hnj].
      rewrite (read_entry_offset _ _ _ Hfit Hi),
        (read_entry_offset _ _ _ Hfit Hnj).
      pose proof (offset_of_next_le images i j imgi Hi
                    ltac:(unfold n in Hj; lia)).
      assert (Hpos : 0 < data_size imgi).
      { apply data_size_pos. intros Hempty.
        apply (Hne imgi (nth_error_In _ _ Hi)).
        rewrite (saves_In images imgi Hsaves (nth_error_In _ _ Hi)).
        rewrite Hempty. reflexivity. }
      lia. }
Qed.

(** C4. In the container [create_ico] produces, the directory entry of a
    256x256 image has width byte 0 and height byte 0, and the entry of a
    128x128 image has width byte 128 and height byte 128. *)
Theorem create_ico_dimension_bytes (images : list Image) (bytes : list byte)
    (i : nat) (img : Image) :
  Ico.create_ico images = Ok bytes ->
  nth_error images i = Some img ->
  (width img = 256%N -> height img = 256%N ->
   entry_width bytes i = 0 /\ entry_height bytes i = 0)
  /\ (width img = 128%N -> height img = 128%N ->
      entry_width bytes i = 128 /\ entry_height bytes i = 128).
Proof.
  intros Hb Hi. apply create_ico_Ok in Hb. destruct Hb as (_ & _ & ->).
  rewrite (read_entry_width _ _ _ Hi), (read_entry_height _ _ _ Hi).
  split; intros -> ->; split; reflexivity.
Qed.

(** C9. [create_ico] does not look at the dimensions when it writes an
    entry: it returns on every list of images with pixels that fits the
    count and size fields, however large the images are, and an image
    whose width (height) is 256 or more gets width (height) byte 0 in its
    entry. *)
Theorem create_ico_large_dimension (images : list Image) :
  Forall has_pixels images -> ico_fits images ->
  exists bytes,
    Ico.create_ico images = Ok bytes
    /\ forall i img, nth_error images i = Some img ->
         ((256 <= width img)%N -> entry_width bytes i = 0)
         /\ ((256 <= height img)%N -> entry_height bytes i = 0).
Proof.
  intros Hpix Hfit. exists (ico_file images). split.
  - apply create_ico_Ok.
    split; [ apply saves_pixels; exact Hpix | ].
    split; [ exact Hfit | reflexivity ].
  - intros i img Hi.
    rewrite (read_entry_width _ _ _ Hi), (read_entry_height _ _ _ Hi).
    unfold dim_byte.
    split; intros Hbig.
    + destruct (Z.ltb_spec (Z.of_N (width img)) 256); [ lia | reflexivity ].
    + destruct (Z.ltb_spec (Z.of_N (height img)) 256); [ lia | reflexivity ].
Qed.

(** C10. On the empty list [create_ico] returns, and writes exactly the
    six header bytes 00 00 01 00 00 00: reserved = 0, type = 1,
    count = 0, no entry and no payload. *)
Theorem create_ico_empty :
  Ico.create_ico [] = Ok [x00; x00; x01; x00; x00; x00]
  /\ forall bytes, Ico.create_ico [] = Ok bytes ->
       length bytes = 6%nat
       /\ reserved bytes = 0 /\ type bytes = 1 /\ count bytes = 0.
Proof.
  assert (Hrun : Ico.create_ico [] = Ok [x00; x00; x01; x00; x00; x00])
    by reflexivity.
  split; [ exact Hrun | ].
  intros bytes Hb. rewrite Hrun in Hb. injection Hb as <-.
  repeat split.
Qed.

End Encoder.

(** The seven sizes of [main] through the stand-in encoder: header
    00 00 01 00 07 00, first payload at 6 + 7 * 16 = 118. *)
Lemma create_ico_layout_witness :
  exists bytes,
    Ico.create_ico ico_images = Ok bytes
    /\ count bytes = 7
    /\ entry_offset bytes 0 = 118
    /\ entry_offset bytes 0 < entry_offset bytes 1.
Proof.
  destruct (create_ico_layout ico_images) as [Hex Hlay].
  eexists. split; [ vm_compute; reflexivity | ].
  match goal with
  | |- count ?b = _ /\ _ =>
      destruct (Hlay b ltac:(vm_compute; reflexivity))
        as (_ & _ & _ & Hc & _ & _ & H0 & _ & Hinc)
  end.
  split; [ exact Hc | ].
  split; [ apply H0; simpl; lia | ].
  apply Hinc; [ | simpl; lia ].
  intros img _. unfold png_save, ref_png, RefPng.save, RefPng.signature.
  destruct ((width img =? 0)%N || (height img =? 0)%N); discriminate.
Defined.

Lemma create_ico_dimension_bytes_witness :
  exists bytes,
    Ico.create_ico ico_images = Ok bytes
    /\ (entry_width bytes 6 = 0 /\ entry_height bytes 6 = 0)
    /\ (entry_width bytes 5 = 128 /\ entry_height bytes 5 = 128).
Proof.
  assert (Hb : Ico.create_ico ico_images = Ok (ico_file ico_images))
    by (vm_compute; reflexivity).
  exists (ico_file ico_images). split; [ exact Hb | ].
  split.
  - apply (proj1 (create_ico_dimension_bytes ico_images _ 6
                    (blank 256 256) Hb eq_refl)); reflexivity.
  - apply (proj2 (create_ico_dimension_bytes ico_images _ 5
                    (blank 128 128) Hb eq_refl)); reflexivity.
Defined.

(** A 512x512 image is embedded with dimension bytes 0 and 0. *)
Lemma create_ico_large_dimension_witness :
  exists bytes,
    Ico.create_ico [blank 512 512] = Ok bytes
    /\ entry_width bytes 0 = 0 /\ entry_height bytes 0 = 0.
Proof.
  assert (Hfit : ico_fits [blank 512 512]).
  { unfold ico_fits, fits_from, data_size. vm_compute.
    repeat split. }
  assert (Hpix : Forall has_pixels [blank 512 512])
    by (repeat constructor; discriminate).
  destruct (create_ico_large_dimension [blank 512 512] Hpix Hfit)
    as (bytes & Hb & Hdim).
  exists bytes. split; [ exact Hb | ].
  destruct (Hdim 0%nat (blank 512 512) eq_refl) as [Hw Hh].
  split; [ apply Hw | apply Hh ]; vm_compute; discriminate.
Defined.

End IcoTheorems.

(* ================================================================== *)
(** * Doubles that stay finite *)
(* ================================================================== *)

(** Products and sums of small doubles do not overflow: the bounds are
    carried through rounding as the IEEE 754 specification of the
    primitive operations defines it. *)

Module FloatFacts.

Lemma pow2_pos k : 0 < 2 ^ k \/ 2 ^ k = 0.
Proof.
  destruct (Z.le_gt_cases 0 k) as [Hk | Hk].
  - left. apply Z.pow_pos_nonneg; lia.
  - right. apply Z.pow_neg_r. lia.
Qed.

Lemma pow2_max_pos k : 0 < 2 ^ Z.max 0 k.
Proof. apply Z.pow_pos_nonneg; lia. Qed.

Lemma digits2_size p : digits2_pos p = Pos.size p.
Proof. induction p as [p IH | p IH | ]; simpl; congruence. Qed.

Lemma Zdigits2_log2 p : Z.pos (digits2_pos p) = Z.log2 (Z.pos p) + 1.
Proof.
  rewrite digits2_size. destruct p as [p | p | ]; simpl; try reflexivity;
    rewrite Pos2Z.inj_succ; pose proof (Pos2Z.is_pos (Pos.size p));
    destruct p; simpl; lia.
Qed.

Lemma Zdigits2_bound m k : 0 <= k -> 0 <= m < 2 ^ k -> Zdigits2 m <= k.
Proof.
  intros Hk [Hm Hlt]. destruct m as [ | p | p ]; simpl; [ lia | | lia ].
  rewrite Zdigits2_log2.
  assert (Z.log2 (Z.pos p) < k) by (apply Z.log2_lt_pow2; lia). lia.
Qed.

Lemma bnd_digits m e K : bnd m e K -> Zdigits2 m + e <= Z.max e K.
Proof.
  intros Hb. pose proof (Zdigits2_bound m (Z.max 0 (K - e)) ltac:(lia) Hb).
  lia.
Qed.

Lemma bnd_weaken m e K K' : K <= K' -> bnd m e K -> bnd m e K'.
Proof.
  intros HK [Hm Hlt]. split; [ exact Hm | ].
  eapply Z.lt_le_trans; [ exact Hlt | ].
  apply Z.pow_le_mono_r; lia.
Qed.

Lemma bnd_div m e K n : bnd m e K -> 0 < n -> bnd (m / 2 ^ n) (e + n) K.
Proof.
  intros [Hm Hlt] Hn.
  assert (Hp : 0 < 2 ^ n) by (apply Z.pow_pos_nonneg; lia).
  split; [ apply Z.div_pos; lia | ].
  destruct (Z.le_gt_cases (K - e - n) 0) as [Hs | Hs].
  - replace (Z.max 0 (K - (e + n))) with 0 by lia. change (2 ^ 0) with 1.
    assert (m < 2 ^ n).
    { eapply Z.lt_le_trans; [ exact Hlt | ]. apply Z.pow_le_mono_r; lia. }
    rewrite Z.div_small; lia.
  - replace (Z.max 0 (K - (e + n))) with (K - e - n) by lia.
    apply Z.div_lt_upper_bound; [ exact Hp | ].
    rewrite <- Z.pow_add_r by lia.
    replace (n + (K - e - n)) with (Z.max 0 (K - e)) by lia. exact Hlt.
Qed.

Lemma bnd_succ m e K : bnd m e K -> bnd (m + 1) e (Z.max (K + 1) (e + 1)).
Proof.
  intros [Hm Hlt]. split; [ lia | ].
  destruct (Z.le_gt_cases (K - e) 0) as [Hs | Hs].
  - replace (Z.max 0 (K - e)) with 0 in Hlt by lia. change (2 ^ 0) with 1 in Hlt.
    replace (Z.max 0 (Z.max (K + 1) (e + 1) - e)) with 1 by lia.
    change (2 ^ 1) with 2. lia.
  - replace (Z.max 0 (K - e)) with (K - e) in Hlt by lia.
    replace (Z.max 0 (Z.max (K + 1) (e + 1) - e)) with (Z.succ (K - e)) by lia.
    rewrite Z.pow_succ_r by lia. lia.
Qed.

(** ** Shifting right *)

Lemma div_div_pos a b c : 0 < b -> 0 < c -> a / b / c = a / (b * c).
Proof. intros Hb Hc. apply Z.div_div; lia. Qed.

Lemma shr_1_m r : 0 <= shr_m r -> shr_m (shr_1 r) = shr_m r / 2.
Proof.
  destruct r as [m rr ss]. cbn [shr_m]. intros Hm.
  rewrite <- Z.div2_div.
  destruct m as [ | p | p ]; [ reflexivity | | lia ].
  destruct p; reflexivity.
Qed.

Lemma iter_pos_shr_m p : forall r,
  0 <= shr_m r ->
  shr_m (iter_pos shr_1 p r) = shr_m r / 2 ^ Z.pos p.
Proof.
  induction p as [p IH | p IH | ]; intros r Hr; cbn [iter_pos].
  - assert (H1 : 0 <= shr_m (shr_1 r))
      by (rewrite shr_1_m by exact Hr; apply Z.div_pos; lia).
    assert (H2 : 0 <= shr_m (iter_pos shr_1 p (shr_1 r)))
      by (rewrite IH by exact H1; apply Z.div_pos;
          [ exact H1 | apply Z.pow_pos_nonneg; lia ]).
    rewrite IH by exact H2. rewrite IH by exact H1.
    rewrite shr_1_m by exact Hr.
    rewrite !div_div_pos by (try apply Z.pow_pos_nonneg; lia).
    f_equal. replace (Z.pos p~1) with (1 + Z.pos p + Z.pos p) by lia.
    rewrite !Z.pow_add_r by lia. change (2 ^ 1) with 2.
    rewrite Z.mul_assoc. reflexivity.
  - assert (H2 : 0 <= shr_m (iter_pos shr_1 p r))
      by (rewrite IH by exact Hr; apply Z.div_pos;
          [ exact Hr | apply Z.pow_pos_nonneg; lia ]).
    rewrite IH by exact H2. rewrite IH by exact Hr.
    rewrite div_div_pos by (apply Z.pow_pos_nonneg; lia).
    f_equal. replace (Z.pos p~0) with (Z.pos p + Z.pos p) by lia.
    rewrite Z.pow_add_r by lia. reflexivity.
  - rewrite shr_1_m by exact Hr. reflexivity.
Qed.

Lemma shr_record_of_loc_m m l : shr_m (shr_record_of_loc m l) = m.
Proof. destruct l as [ | [ | | ] ]; reflexivity. Qed.

(** [shr_fexp] keeps the bound and never lowers the exponent; the new
    exponent is the old one or the canonical one. *)
Lemma shr_fexp_bnd m e l K :
  bnd m e K ->
  bnd (shr_m (fst (shr_fexp prec emax m e l))) (snd (shr_fexp prec emax m e l)) K
  /\ (snd (shr_fexp prec emax m e l) = e
      \/ snd (shr_fexp prec emax m e l) = fexp prec emax (Zdigits2 m + e)).
Proof.
  intros Hb. unfold shr_fexp, shr.
  destruct (fexp prec emax (Zdigits2 m + e) - e) as [ | n | n ] eqn:Hn;
    cbn [fst snd]; rewrite ?shr_record_of_loc_m; auto.
  split.
  - rewrite iter_pos_shr_m by (rewrite shr_record_of_loc_m; apply Hb).
    rewrite shr_record_of_loc_m. apply bnd_div; [ exact Hb | lia ].
  - right. lia.
Qed.

Lemma round_nearest_even_range m l :
  m <= round_nearest_even m l <= m + 1.
Proof.
  destruct l as [ | [ | | ] ]; cbn [round_nearest_even]; try lia.
  destruct (Z.even m); lia.
Qed.

Lemma fexp_le x : fexp prec emax x = Z.max (x - 53) (-1074).
Proof. reflexivity. Qed.

(** Rounding a bounded value gives a zero or a bounded finite number. *)
Lemma binary_round_aux_bnd s m e l K E :
  bnd m e K -> e <= E -> -1074 <= E <= 971 -> K <= 1000 ->
  sf_bnd (Z.max (K + 1) (Z.max E (K - 52) + 1)) (Z.max E (K - 52))
    (binary_round_aux prec emax s m e l).
Proof.
  intros Hb He HE HK. unfold binary_round_aux.
  destruct (shr_fexp_bnd m e l K Hb) as [Hb1 He1].
  pose proof (bnd_digits m e K Hb) as Hd.
  destruct (shr_fexp prec emax m e l) as [mrs1 e1]. cbn [fst snd] in Hb1, He1.
  assert (He1' : e1 <= Z.max E (K - 53))
    by (destruct He1 as [-> | ->]; [ lia | rewrite fexp_le; lia ]).
  set (m2 := round_nearest_even (shr_m mrs1) (loc_of_shr_record mrs1)).
  assert (Hb2 : bnd m2 e1 (Z.max (K + 1) (e1 + 1))).
  { pose proof (round_nearest_even_range (shr_m mrs1)
                  (loc_of_shr_record mrs1)) as Hr. fold m2 in Hr.
    destruct (bnd_succ _ _ _ Hb1) as [_ Hlt].
    split; [ destruct Hb1; lia | lia ]. }
  destruct (shr_fexp_bnd m2 e1 loc_Exact _ Hb2) as [Hb3 He3].
  pose proof (bnd_digits m2 e1 _ Hb2) as Hd2.
  destruct (shr_fexp prec emax m2 e1 loc_Exact) as [mrs2 e2].
  cbn [fst snd] in Hb3, He3.
  assert (He2 : e2 <= Z.max E (K - 52))
    by (destruct He3 as [-> | ->]; [ lia | rewrite fexp_le; lia ]).
  destruct (shr_m mrs2) as [ | p | p ] eqn:Hm2.
  - exact I.
  - assert (Hle : (e2 <=? emax - prec) = true)
      by (apply Z.leb_le; change (emax - prec) with 971; lia).
    rewrite Hle. cbn [sf_bnd]. split; [ | exact He2 ].
    eapply bnd_weaken; [ | exact Hb3 ]. lia.
  - destruct Hb3 as [Hneg _]. lia.
Qed.

(** ** Aligning to a lower exponent *)

Lemma iter_xO_pow (d : positive) (p : positive) :
  Z.pos (Pos.iter xO p d) = Z.pos p * 2 ^ Z.pos d.
Proof.
  induction d as [ | d IH ] using Pos.peano_ind.
  - cbn [Pos.iter]. change (2 ^ 1) with 2. lia.
  - rewrite Pos.iter_succ. rewrite Pos2Z.inj_succ, Z.pow_succ_r by lia.
    rewrite Pos2Z.pos_xO, IH. lia.
Qed.

Lemma shl_align_spec mx ex ex' :
  let '(mz, ez) := shl_align mx ex ex' in
  ez <= ex /\ Z.pos mz = Z.pos mx * 2 ^ (ex - ez)
  /\ (ex' <= ex -> ez = ex').
Proof.
  unfold shl_align. destruct (ex' - ex) as [ | d | d ] eqn:Hd.
  - rewrite Z.sub_diag. change (2 ^ 0) with 1. lia.
  - rewrite Z.sub_diag. change (2 ^ 0) with 1. lia.
  - rewrite iter_xO_pow. replace (ex - ex') with (Z.pos d) by lia. lia.
Qed.

Lemma bnd_shift m e K d :
  0 < m -> 0 <= d -> bnd m e K -> bnd (m * 2 ^ d) (e - d) K.
Proof.
  intros Hm Hd [_ Hlt].
  assert (Hp : 0 < 2 ^ d) by (apply Z.pow_pos_nonneg; lia).
  split; [ lia | ].
  assert (HK : 0 < K - e).
  { destruct (Z.le_gt_cases (K - e) 0) as [Hs | Hs]; [ | exact Hs ].
    replace (Z.max 0 (K - e)) with 0 in Hlt by lia.
    change (2 ^ 0) with 1 in Hlt. lia. }
  replace (Z.max 0 (K - e)) with (K - e) in Hlt by lia.
  replace (Z.max 0 (K - (e - d))) with (K - e + d) by lia.
  rewrite Z.pow_add_r by lia.
  apply Z.mul_lt_mono_pos_r; assumption.
Qed.

(** Rounding a positive integer mantissa at exponent [e]. *)
Lemma binary_round_bnd s mx ex K E :
  bnd (Z.pos mx) ex K -> ex <= E -> -1074 <= E <= 971 -> K <= 1000 ->
  sf_bnd (Z.max (K + 1) (Z.max E (K - 52) + 1)) (Z.max E (K - 52))
    (binary_round prec emax s mx ex).
Proof.
  intros Hb He HE HK. unfold binary_round.
  pose proof (shl_align_spec mx ex
                (fexp prec emax (Z.pos (digits2_pos mx) + ex))) as Hal.
  destruct (shl_align mx ex _) as [mz ez].
  destruct Hal as (Hle & Hmz & _).
  apply binary_round_aux_bnd; try lia.
  rewrite Hmz. replace ez with (ex - (ex - ez)) at 2 by lia.
  apply bnd_shift; [ lia | lia | exact Hb ].
Qed.

Lemma binary_normalize_bnd m e K E :
  bnd (Z.abs m) e K -> e <= E -> -1074 <= E <= 971 -> K <= 1000 ->
  sf_bnd (Z.max (K + 1) (Z.max E (K - 52) + 1)) (Z.max E (K - 52))
    (binary_normalize prec emax m e false).
Proof.
  intros Hb He HE HK. unfold binary_normalize.
  destruct m as [ | p | p ]; [ exact I | | ];
    apply binary_round_bnd; assumption.
Qed.

(** ** Products and sums *)

Lemma bnd_pos_gap m e K : 0 < m -> bnd m e K -> m < 2 ^ (K - e) /\ 0 < K - e.
Proof.
  intros Hm [_ Hlt].
  destruct (Z.le_gt_cases (K - e) 0) as [Hs | Hs].
  - replace (Z.max 0 (K - e)) with 0 in Hlt by lia.
    change (2 ^ 0) with 1 in Hlt. lia.
  - replace (Z.max 0 (K - e)) with (K - e) in Hlt by lia. auto.
Qed.

Lemma SFmul_bnd x y Kx Ky Ex Ey :
  sf_bnd Kx Ex x -> sf_bnd Ky Ey y ->
  -1074 <= Ex + Ey <= 971 -> Kx + Ky <= 1000 ->
  sf_bnd (Z.max (Kx + Ky + 1) (Z.max (Ex + Ey) (Kx + Ky - 52) + 1))
         (Z.max (Ex + Ey) (Kx + Ky - 52))
         (SFmul prec emax x y).
Proof.
  intros Hx Hy HE HK.
  destruct x as [sx | sx | | sx mx ex]; try contradiction;
    destruct y as [sy | sy | | sy my ey]; try contradiction;
    cbn [SFmul]; try exact I.
  destruct Hx as [Hbx Hex]. destruct Hy as [Hby Hey].
  apply binary_round_aux_bnd; try lia.
  destruct (bnd_pos_gap (Z.pos mx) ex Kx ltac:(lia) Hbx) as [Hmx Hgx].
  destruct (bnd_pos_gap (Z.pos my) ey Ky ltac:(lia) Hby) as [Hmy Hgy].
  split; [ lia | ].
  replace (Z.max 0 (Kx + Ky - (ex + ey))) with ((Kx - ex) + (Ky - ey)) by lia.
  rewrite Z.pow_add_r by lia. rewrite Pos2Z.inj_mul.
  apply Z.mul_lt_mono_nonneg; lia.
Qed.

Lemma SFadd_bnd x y K E :
  sf_bnd K E x -> sf_bnd K E y ->
  -1074 <= E <= 971 -> K + 1 <= 1000 ->
  sf_bnd (Z.max (K + 2) (Z.max E (K - 51) + 1)) (Z.max E (K - 51))
         (SFadd prec emax x y).
Proof.
  intros Hx Hy HE HK.
  assert (Hweak : forall z, sf_bnd K E z ->
            sf_bnd (Z.max (K + 2) (Z.max E (K - 51) + 1))
                   (Z.max E (K - 51)) z).
  { intros [sz | sz | | sz mz ez]; cbn [sf_bnd]; auto.
    intros [Hb He]. split; [ eapply bnd_weaken; [ | exact Hb ] | ]; lia. }
  destruct x as [sx | sx | | sx mx ex]; try contradiction;
    destruct y as [sy | sy | | sy my ey]; try contradiction;
    cbn [SFadd].
  - destruct sx, sy; exact I.
  - apply Hweak. exact Hy.
  - apply Hweak. exact Hx.
  - destruct Hx as [Hbx Hex]. destruct Hy as [Hby Hey].
    set (ez := Z.min ex ey).
    pose proof (shl_align_spec mx ex ez) as Hax.
    pose proof (shl_align_spec my ey ez) as Hay.
    destruct (shl_align mx ex ez) as [mx' ex'].
    destruct (shl_align my ey ez) as [my' ey'].
    destruct Hax as (_ & Hmx' & Hex'). destruct Hay as (_ & Hmy' & Hey').
    specialize (Hex' ltac:(lia)). specialize (Hey' ltac:(lia)). subst ex' ey'.
    cbn [fst].
    replace (Z.max (K + 2) (Z.max E (K - 51) + 1))
      with (Z.max (K + 1 + 1) (Z.max E (K + 1 - 52) + 1)) by lia.
    replace (Z.max E (K - 51)) with (Z.max E (K + 1 - 52)) by lia.
    apply binary_normalize_bnd; try lia.
    pose proof (bnd_shift (Z.pos mx) ex K (ex - ez)
                  ltac:(lia) ltac:(lia) Hbx) as Hsx.
    pose proof (bnd_shift (Z.pos my) ey K (ey - ez)
                  ltac:(lia) ltac:(lia) Hby) as Hsy.
    rewrite <- Hmx' in Hsx. rewrite <- Hmy' in Hsy.
    replace (ex - (ex - ez)) with ez in Hsx by lia.
    replace (ey - (ey - ez)) with ez in Hsy by lia.
    destruct (bnd_pos_gap (Z.pos mx') ez K ltac:(lia) Hsx) as [Hlx Hgx].
    destruct (bnd_pos_gap (Z.pos my') ez K ltac:(lia) Hsy) as [Hly _].
    split; [ lia | ].
    replace (Z.max 0 (K + 1 - ez)) with (Z.succ (K - ez)) by lia.
    rewrite Z.pow_succ_r by lia.
    destruct sx, sy; cbn [cond_Zopp]; lia.
Qed.

(** ** Doubles in the unit interval *)

Lemma mantissa_lt_digits p : Z.pos p < 2 ^ Z.pos (digits2_pos p).
Proof.
  rewrite Zdigits2_log2.
  destruct (Z.log2_spec (Z.pos p) ltac:(lia)) as [_ Hlt]. exact Hlt.
Qed.

Lemma unit_interval_bnd (t : float) :
  (0 <=? t)%float = true -> (t <=? 1)%float = true ->
  sf_bnd 1 0 (Prim2SF t).
Proof.
  rewrite !FloatAxioms.leb_spec.
  change (Prim2SF 0) with (S754_zero false).
  change (Prim2SF 1) with (S754_finite false 4503599627370496 (-52)).
  pose proof (Prim2SF_valid t) as Hv.
  destruct (Prim2SF t) as [s | s | | s m e]; cbn [sf_bnd].
  - auto.
  - destruct s; cbn; discriminate.
  - cbn. discriminate.
  - intros H0 H1.
    destruct s; [ cbn in H0; discriminate | ].
    assert (He : e <= -52).
    { unfold SFleb, SFcompare in H1.
      destruct (Z.compare_spec e (-52)); [ lia | lia | discriminate ]. }
    cbn [valid_binary] in Hv. unfold bounded, canonical_mantissa in Hv.
    apply andb_true_iff in Hv. destruct Hv as [Hc _].
    apply Z.eqb_eq in Hc. rewrite fexp_le in Hc.
    pose proof (mantissa_lt_digits m) as Hm.
    split; [ | lia ]. split; [ lia | ].
    eapply Z.lt_le_trans; [ exact Hm | ].
    apply Z.pow_le_mono_r; lia.
Qed.

End FloatFacts.

(* ================================================================== *)
(** * [int()] and [lerp_color] *)
(* ================================================================== *)

Module LerpFacts.

(** [int(x)] is the exact value of [x] truncated toward zero. *)
Lemma py_int_truncates (x : float) (v : Z) :
  py_int x = Ok v <->
  exists n k, dyadic x = Some (n, k) /\ v = Z.quot n (2 ^ k).
Proof.
  unfold py_int, dyadic.
  destruct (Prim2SF x) as [ s | s | | s m e ].
  - split.
    + intros Hv; injection Hv as <-. exists 0, 0. split; reflexivity.
    + intros (n & k & Hd & ->). injection Hd as <- <-. reflexivity.
  - split; [ discriminate | intros (n & k & Hd & _); discriminate ].
  - split; [ discriminate | intros (n & k & Hd & _); discriminate ].
  - assert (Hq : forall d, 0 < d ->
              Z.quot (if s then Z.neg m else Z.pos m) d
              = if s then - (Z.pos m / d) else Z.pos m / d).
    { intros d Hd. destruct s.
      - change (Z.neg m) with (- Z.pos m).
        rewrite Z.quot_opp_l by lia.
        rewrite Z.quot_div_nonneg by lia. reflexivity.
      - apply Z.quot_div_nonneg; lia. }
    destruct (Z.leb_spec 0 e) as [He | He].
    + split.
      * intros Hv; injection Hv as <-.
        eexists _, 0. split; [ reflexivity | ].
        change (2 ^ 0) with 1. rewrite Z.quot_1_r.
        destruct s; [ | reflexivity ].
        change (Z.neg m) with (- Z.pos m).
        rewrite Z.mul_opp_l. reflexivity.
      * intros (n & k & Hd & ->). injection Hd as <- <-.
        change (2 ^ 0) with 1. rewrite Z.quot_1_r.
        destruct s; [ | reflexivity ].
        change (Z.neg m) with (- Z.pos m).
        rewrite Z.mul_opp_l. reflexivity.
    + assert (Hpos : 0 < 2 ^ (- e)) by (apply Z.pow_pos_nonneg; lia).
      split.
      * intros Hv; injection Hv as <-.
        eexists _, _. split; [ reflexivity | ].
        rewrite (Hq _ Hpos). reflexivity.
      * intros (n & k & Hd & ->). injection Hd as <- <-.
        rewrite (Hq _ Hpos). reflexivity.
Qed.

Lemma in_range (n : nat) (z : Z) :
  0 <= z < Z.of_nat n -> In z (range (Z.of_nat n)).
Proof.
  intros Hz. unfold range. rewrite Nat2Z.id.
  apply in_map_iff. exists (Z.to_nat z). split; [ lia | ].
  apply in_seq. lia.
Qed.

Lemma forallb_range (n : nat) (P : Z -> bool) :
  forallb P (range (Z.of_nat n)) = true ->
  forall z, 0 <= z < Z.of_nat n -> P z = true.
Proof.
  intros Hall z Hz. rewrite forallb_forall in Hall.
  apply Hall, in_range, Hz.
Qed.

Lemma feq_eq x y : feq x y = true -> x = y.
Proof. apply FloatAxioms.Leibniz.eqb_spec. Qed.

Lemma int_is_eq x v : int_is x v = true -> py_int x = Ok v.
Proof.
  unfold int_is. destruct (py_int x) as [w | e]; [ | discriminate ].
  intros Hw. apply Z.eqb_eq in Hw. congruence.
Qed.

(** Small integers convert back from [float] unchanged. *)
Lemma py_int_float_of_Z (a : Z) :
  0 <= a < 256 -> py_int (float_of_Z a) = Ok a.
Proof.
  intros Ha. apply int_is_eq.
  apply (forallb_range 256 (fun a => int_is (float_of_Z a) a));
    [ vm_compute; reflexivity | exact Ha ].
Qed.

(** A channel difference times 0.0 is a zero (of either sign). *)
Lemma diff_times_zero (d : Z) :
  -256 < d < 256 ->
  (float_of_Z d * 0 = 0 \/ float_of_Z d * 0 = - 0)%float.
Proof.
  intros Hd.
  pose proof (forallb_range 511
    (fun k => feq (float_of_Z (k - 255) * 0) 0
              || feq (float_of_Z (k - 255) * 0) (- 0))%float
    ltac:(vm_compute; reflexivity) (d + 255) ltac:(lia)) as Hk.
  cbv beta in Hk. replace (d + 255 - 255) with d in Hk by lia.
  apply orb_true_iff in Hk. destruct Hk as [Hk | Hk];
    apply feq_eq in Hk; auto.
Qed.

Lemma plus_zero (a : Z) :
  0 <= a < 256 ->
  (float_of_Z a + 0 = float_of_Z a
   /\ float_of_Z a + - 0 = float_of_Z a)%float.
Proof.
  intros Ha.
  pose proof (forallb_range 256
    (fun a => feq (float_of_Z a + 0) (float_of_Z a)
              && feq (float_of_Z a + - 0) (float_of_Z a))%float
    ltac:(vm_compute; reflexivity) a Ha) as Hk.
  cbv beta in Hk. apply andb_true_iff in Hk. destruct Hk as [H1 H2].
  split; apply feq_eq; assumption.
Qed.

Lemma diff_times_one (d : Z) :
  -256 < d < 256 -> (float_of_Z d * 1 = float_of_Z d)%float.
Proof.
  intros Hd.
  pose proof (forallb_range 511
    (fun k => feq (float_of_Z (k - 255) * 1) (float_of_Z (k - 255)))%float
    ltac:(vm_compute; reflexivity) (d + 255) ltac:(lia)) as Hk.
  cbv beta in Hk. replace (d + 255 - 255) with d in Hk by lia.
  apply feq_eq, Hk.
Qed.

(** Adding a channel difference is exact. *)
Lemma plus_diff (a b : Z) :
  0 <= a < 256 -> 0 <= b < 256 ->
  (float_of_Z a + float_of_Z (b - a) = float_of_Z b)%float.
Proof.
  intros Ha Hb.
  pose proof (forallb_range 256
    (fun a => forallb
                (fun b => feq (float_of_Z a + float_of_Z (b - a))
                              (float_of_Z b))%float
                (range (Z.of_nat 256)))
    ltac:(vm_compute; reflexivity) a Ha) as Hk.
  cbv beta in Hk.
  apply feq_eq, (forallb_range 256 _ Hk b Hb).
Qed.

(** The halfway value is exactly half the sum. *)
Lemma plus_half_diff (a b : Z) :
  0 <= a < 256 -> 0 <= b < 256 ->
  (float_of_Z a + float_of_Z (b - a) * 0.5
   = float_of_Z (a + b) * 0.5)%float.
Proof.
  intros Ha Hb.
  pose proof (forallb_range 256
    (fun a => forallb
                (fun b => feq (float_of_Z a + float_of_Z (b - a) * 0.5)
                              (float_of_Z (a + b) * 0.5))%float
                (range (Z.of_nat 256)))
    ltac:(vm_compute; reflexivity) a Ha) as Hk.
  cbv beta in Hk.
  apply feq_eq, (forallb_range 256 _ Hk b Hb).
Qed.

Lemma py_int_half (s : Z) :
  0 <= s < 511 -> py_int (float_of_Z s * 0.5)%float = Ok (s / 2).
Proof.
  intros Hs. apply int_is_eq.
  apply (forallb_range 511
           (fun s => int_is (float_of_Z s * 0.5)%float (s / 2)));
    [ vm_compute; reflexivity | exact Hs ].
Qed.

(** One channel at t = 0, t = 1 and t = 0.5. *)
Lemma channel_at_0 a b :
  0 <= a <= 255 -> 0 <= b <= 255 ->
  py_int (float_of_Z a + float_of_Z (b - a) * 0)%float = Ok a.
Proof.
  intros Ha Hb.
  destruct (plus_zero a ltac:(lia)) as [Hp Hm].
  destruct (diff_times_zero (b - a) ltac:(lia)) as [-> | ->];
    [ rewrite Hp | rewrite Hm ]; apply py_int_float_of_Z; lia.
Qed.

Lemma channel_at_1 a b :
  0 <= a <= 255 -> 0 <= b <= 255 ->
  py_int (float_of_Z a + float_of_Z (b - a) * 1)%float = Ok b.
Proof.
  intros Ha Hb.
  rewrite (diff_times_one (b - a)) by lia.
  rewrite plus_diff by lia. apply py_int_float_of_Z; lia.
Qed.

Lemma channel_at_half a b :
  0 <= a <= 255 -> 0 <= b <= 255 ->
  py_int (float_of_Z a + float_of_Z (b - a) * 0.5)%float
  = Ok ((a + b) / 2).
Proof.
  intros Ha Hb.
  rewrite plus_half_diff by lia. apply py_int_half; lia.
Qed.

(** ** Every channel is computed without overflow *)

Lemma sf_bndb_ok K E x : sf_bndb K E x = true -> sf_bnd K E x.
Proof.
  destruct x as [s | s | | s m e]; cbn [sf_bndb sf_bnd]; try discriminate;
    auto.
  intros Hb. apply andb_true_iff in Hb. destruct Hb as [Hm He].
  apply Z.ltb_lt in Hm. apply Z.leb_le in He.
  split; [ split; [ lia | exact Hm ] | exact He ].
Qed.

Lemma small_int_bnd (z : Z) :
  -256 < z < 256 -> sf_bnd 8 0 (Prim2SF (float_of_Z z)).
Proof.
  intros Hz. apply sf_bndb_ok.
  pose proof (forallb_range 511
    (fun k => sf_bndb 8 0 (Prim2SF (float_of_Z (k - 255))))
    ltac:(vm_compute; reflexivity) (z + 255) ltac:(lia)) as Hk.
  cbv beta in Hk. replace (z + 255 - 255) with z in Hk by lia. exact Hk.
Qed.

Lemma sf_bnd_weaken K E K' E' x :
  K <= K' -> E <= E' -> sf_bnd K E x -> sf_bnd K' E' x.
Proof.
  intros HK HE. destruct x as [s | s | | s m e]; cbn [sf_bnd]; auto.
  intros [Hb He]. split; [ | lia ].
  apply (FloatFacts.bnd_weaken _ _ K K' HK Hb).
Qed.

Lemma py_int_of_bounded K E x :
  sf_bnd K E (Prim2SF x) -> exists v, py_int x = Ok v.
Proof.
  unfold py_int. destruct (Prim2SF x) as [s | s | | s m e]; cbn [sf_bnd];
    intros Hb; try contradiction; eauto.
Qed.

(** One channel, at any fraction of the unit interval. *)
Lemma channel_returns a b t :
  0 <= a <= 255 -> 0 <= b <= 255 ->
  (0 <=? t)%float = true -> (t <=? 1)%float = true ->
  exists v, py_int (float_of_Z a + float_of_Z (b - a) * t)%float = Ok v.
Proof.
  intros Ha Hb H0 H1.
  apply (py_int_of_bounded 12 0).
  rewrite FloatAxioms.add_spec, FloatAxioms.mul_spec.
  apply (FloatFacts.SFadd_bnd _ _ 10 0); try lia.
  - apply (sf_bnd_weaken 8 0); try lia. apply small_int_bnd. lia.
  - apply (FloatFacts.SFmul_bnd _ _ 8 1 0 0); try lia.
    + apply small_int_bnd. lia.
    + apply FloatFacts.unit_interval_bnd; assumption.
Qed.

Lemma lerp_color_returns (t : float) :
  (0 <=? t)%float = true -> (t <=? 1)%float = true ->
  forall c1 c2, in_gamut c1 -> in_gamut c2 ->
    exists out, lerp_color c1 c2 t = Ok out.
Proof.
  intros H0 H1 c1. unfold lerp_color.
  induction c1 as [ | a c1 IH ]; intros c2 G1 G2; [ eexists; reflexivity | ].
  destruct c2 as [ | b c2 ]; [ eexists; reflexivity | ].
  inversion G1 as [ | ? ? Ha G1' ]; subst.
  inversion G2 as [ | ? ? Hb G2' ]; subst.
  cbn [combine mapM].
  destruct (channel_returns a b t Ha Hb H0 H1) as [v ->].
  destruct (IH c2 G1' G2') as [out ->].
  cbn [bind]. eauto.
Qed.

Lemma in_gamut_cons v c :
  in_gamut (v :: c) <-> 0 <= v <= 255 /\ in_gamut c.
Proof.
  unfold in_gamut. split.
  - intros Hf. inversion Hf; subst. auto.
  - intros [Hv Hc]. constructor; assumption.
Qed.

(** [lerp_color] at a fraction where every channel is known. *)
Lemma lerp_color_pointwise (t : float) (f : Z -> Z -> Z) :
  (forall a b, 0 <= a <= 255 -> 0 <= b <= 255 ->
     py_int (float_of_Z a + float_of_Z (b - a) * t)%float = Ok (f a b)) ->
  forall c1 c2, in_gamut c1 -> in_gamut c2 ->
    lerp_color c1 c2 t
    = Ok (map (fun ab => f (fst ab) (snd ab)) (combine c1 c2)).
Proof.
  intros Hch c1. unfold lerp_color.
  induction c1 as [ | a c1 IH ]; intros c2 H1 H2; [ reflexivity | ].
  destruct c2 as [ | b c2 ]; [ reflexivity | ].
  apply in_gamut_cons in H1. apply in_gamut_cons in H2.
  destruct H1 as [Ha H1]. destruct H2 as [Hb H2].
  cbn [combine mapM map fst snd].
  rewrite (Hch a b Ha Hb). cbn [bind].
  rewrite (IH c2 H1 H2). reflexivity.
Qed.

Lemma map_fst_combine {A B} (l1 : list A) (l2 : list B) :
  length l1 = length l2 -> map fst (combine l1 l2) = l1.
Proof.
  revert l2; induction l1 as [ | x l1 IH ]; intros [ | y l2 ] Hlen;
    simpl in *; try reflexivity; try discriminate.
  f_equal. apply IH. lia.
Qed.

Lemma map_snd_combine {A B} (l1 : list A) (l2 : list B) :
  length l1 = length l2 -> map snd (combine l1 l2) = l2.
Proof.
  revert l2; induction l1 as [ | x l1 IH ]; intros [ | y l2 ] Hlen;
    simpl in *; try reflexivity; try discriminate.
  f_equal. apply IH. lia.
Qed.

(** C2, as the code has it.  For colours [c1], [c2] of equal length with
    channels in [0,255]: at t = 0 [lerp_color] returns [c1], at t = 1 it
    returns [c2], at t = 0.5 it returns the channel-wise average rounded
    down; at every [t] in [0,1] it returns a colour; and each channel it
    returns, at any [t], is the exact value of the double [a + (b - a) * t]
    truncated toward zero (Python's [int]), which is not rounding to the
    nearest integer. *)
Theorem lerp_color_truncates (c1 c2 : color) :
  length c1 = length c2 -> in_gamut c1 -> in_gamut c2 ->
  lerp_color c1 c2 0 = Ok c1
  /\ lerp_color c1 c2 1 = Ok c2
  /\ lerp_color c1 c2 0.5
     = Ok (map (fun ab => (fst ab + snd ab) / 2) (combine c1 c2))
  /\ (forall t, (0 <=? t)%float = true -> (t <=? 1)%float = true ->
        exists out, lerp_color c1 c2 t = Ok out)
  /\ forall t out,
       lerp_color c1 c2 t = Ok out ->
       Forall2
         (fun (ab : Z * Z) (v : Z) =>
            exists n k,
              dyadic (float_of_Z (fst ab)
                      + float_of_Z (snd ab - fst ab) * t)%float
              = Some (n, k)
              /\ v = Z.quot n (2 ^ k))
         (combine c1 c2) out.
Proof.
  intros Hlen H1 H2.
  split; [ | split; [ | split; [ | split ] ] ].
  - rewrite (lerp_color_pointwise 0 (fun a _ => a) channel_at_0 c1 c2 H1 H2).
    apply f_equal. exact (map_fst_combine c1 c2 Hlen).
  - rewrite (lerp_color_pointwise 1 (fun _ b => b) channel_at_1 c1 c2 H1 H2).
    apply f_equal. exact (map_snd_combine c1 c2 Hlen).
  - apply (lerp_color_pointwise 0.5 (fun a b => (a + b) / 2)
             channel_at_half c1 c2 H1 H2).
  - intros t Ht0 Ht1. apply (lerp_color_returns t Ht0 Ht1 c1 c2 H1 H2).
  - intros t. unfold lerp_color.
    generalize (combine c1 c2) as l. clear.
    induction l as [ | [a b] l IH ]; intros out Hout.
    + injection Hout as <-. constructor.
    + cbn [mapM] in Hout.
      destruct (py_int _) as [v | e] eqn:Hv; [ | discriminate ].
      destruct (mapM _ l) as [vs | e] eqn:Hvs; [ | discriminate ].
      injection Hout as <-. constructor.
      * apply py_int_truncates. exact Hv.
      * apply IH. reflexivity.
Qed.

(** Blue to purple: the two ends and the midpoint. *)
Lemma lerp_color_truncates_witness :
  lerp_color BLUE PURPLE 0 = Ok [60; 120; 255]
  /\ lerp_color BLUE PURPLE 1 = Ok [160; 60; 220]
  /\ lerp_color BLUE PURPLE 0.5 = Ok [110; 90; 237].
Proof.
  assert (Hg : forall c, forallb (fun v => (0 <=? v) && (v <=? 255)) c
                         = true -> in_gamut c).
  { intros c Hc. apply Forall_forall. intros v Hv.
    rewrite forallb_forall in Hc. specialize (Hc v Hv). lia. }
  destruct (lerp_color_truncates BLUE PURPLE eq_refl
              (Hg BLUE eq_refl) (Hg PURPLE eq_refl))
    as (H0 & H1 & Hh & _).
  split; [ exact H0 | split; [ exact H1 | exact Hh ] ].
Defined.

(** C2 as stated fails: from 0 to 1 at t = 0.75 every channel has the
    exact value 3 * 2^51 / 2^53 = 3/4, whose nearest integer is 1, and
    [lerp_color] returns 0. *)
Lemma lerp_color_not_nearest :
  lerp_color [0; 0; 0] [1; 1; 1] 0.75 = Ok [0; 0; 0]
  /\ dyadic (float_of_Z 0 + float_of_Z (1 - 0) * 0.75)%float
     = Some (3 * 2 ^ 51, 53)
  /\ ~ nearest_integer (3 * 2 ^ 51) 53 0.
Proof.
  split; [ vm_compute; reflexivity | ].
  split; [ vm_compute; reflexivity | ].
  intros Hn. specialize (Hn 1). vm_compute in Hn. apply Hn. reflexivity.
Qed.

End LerpFacts.

(* ================================================================== *)
(** * [draw_thick_arc]: the polyline and its colours *)
(* ================================================================== *)

Module ArcFacts.
Section Arc.

Context {libm : Libm} {pil : Pillow}.

Lemma mapM_ext_in {A B} (f g : A -> result B) (l : list A) :
  (forall x, In x l -> f x = g x) -> mapM f l = mapM g l.
Proof.
  induction l as [ | x l IH ]; intros Hfg; [ reflexivity | ].
  cbn [mapM]. rewrite (Hfg x (or_introl eq_refl)).
  rewrite IH by (intros y Hy; apply Hfg; right; exact Hy).
  reflexivity.
Qed.

Lemma mapM_all_Ok {A B} (f : A -> result B) (l : list A) :
  (forall x, In x l -> exists y, f x = Ok y) ->
  exists ys, mapM f l = Ok ys.
Proof.
  induction l as [ | x l IH ]; intros Hf; [ exists []; reflexivity | ].
  destruct (Hf x (or_introl eq_refl)) as [y Hy].
  destruct IH as [ys Hys]; [ intros z Hz; apply Hf; right; exact Hz | ].
  exists (y :: ys). cbn [mapM]. rewrite Hy, Hys. reflexivity.
Qed.

Lemma in_range_inv (n z : Z) :
  In z (range n) -> 0 <= z < n /\ nth_error (range n) (Z.to_nat z) = Some z.
Proof.
  unfold range. intros Hz. apply in_map_iff in Hz.
  destruct Hz as (k & <- & Hk). apply in_seq in Hk.
  split; [ lia | ].
  rewrite Nat2Z.id, nth_error_map, nth_error_seq.
  destruct (Nat.ltb_spec k (Z.to_nat n)); [ reflexivity | lia ].
Qed.

Variables cx cy rx ry angle_start angle_end : Z.
Variable rotation : float.

Lemma arc_points_200 :
  arc_points cx cy rx ry angle_start angle_end rotation 200
  = Ok (map (fun i => (fst (arc_sample cx cy rx ry angle_start angle_end rotation i), snd (arc_sample cx cy rx ry angle_start angle_end rotation i), arc_fraction i))
            (range 201)).
Proof.
  unfold arc_points. change (200 + 1) with 201.
  apply mapM_Ok_map. intros i Hi.
  apply in_range_inv in Hi. destruct Hi as [Hi _].
  rewrite truediv_small by lia. cbn [bind].
  change (float_of_Z 200) with 200%float.
  fold (arc_fraction i). fold (arc_sample cx cy rx ry angle_start angle_end rotation i).
  destruct (arc_sample cx cy rx ry angle_start angle_end rotation i) as [px py]. reflexivity.
Qed.

Lemma arc_segments_200 (width : Z) (color_start color_end : color) :
  arc_segments
    (map (fun i => (fst (arc_sample cx cy rx ry angle_start angle_end rotation i), snd (arc_sample cx cy rx ry angle_start angle_end rotation i), arc_fraction i))
         (range 201))
    width color_start color_end
  = mapM (fun i =>
            color <- lerp_color color_start color_end
                       ((arc_fraction i + arc_fraction (i + 1)) / 2)%float ;;
            Ok (Line (arc_sample cx cy rx ry angle_start angle_end rotation i) (arc_sample cx cy rx ry angle_start angle_end rotation (i + 1)) color width))
         (range 200).
Proof.
  unfold arc_segments. rewrite length_map.
  change (Z.of_nat (length (range 201)) - 1) with 200.
  apply mapM_ext_in. intros i Hi.
  apply in_range_inv in Hi. destruct Hi as [Hi _].
  rewrite !nth_error_map.
  rewrite (range_nth_error 201 (Z.to_nat i)) by lia.
  rewrite (range_nth_error 201 (Z.to_nat (i + 1))) by lia.
  cbn [option_map]. rewrite !Z2Nat.id by lia.
  rewrite <- !surjective_pairing. reflexivity.
Qed.

Lemma is_ok_Ok {A} (r : result A) : is_ok r = true -> exists a, r = Ok a.
Proof. destruct r as [a | e]; [ eauto | discriminate ]. Qed.

(** Every interpolation the three orbitals ask for returns. *)
Lemma orbital_colors_return (rot_deg : Z) (c_start c_end : color) (i : Z) :
  In (rot_deg, c_start, c_end) orbitals -> 0 <= i < 200 ->
  exists color,
    lerp_color c_start c_end
      ((arc_fraction i + arc_fraction (i + 1)) / 2)%float = Ok color.
Proof.
  intros Ho Hi. apply is_ok_Ok.
  assert (Hall : forallb
            (fun o : Z * color * color =>
               forallb
                 (fun i => is_ok (lerp_color (snd (fst o)) (snd o)
                             ((arc_fraction i + arc_fraction (i + 1)) / 2)%float))
                 (range (Z.of_nat 200)))
            orbitals = true) by (vm_compute; reflexivity).
  rewrite forallb_forall in Hall. specialize (Hall _ Ho).
  cbn [fst snd] in Hall.
  apply (LerpFacts.forallb_range 200 _ Hall i Hi).
Qed.

(** The midpoint fraction of every segment lies in the unit interval. *)
Lemma midpoint_in_unit (i : Z) :
  0 <= i < 200 ->
  (0 <=? (arc_fraction i + arc_fraction (i + 1)) / 2)%float = true
  /\ ((arc_fraction i + arc_fraction (i + 1)) / 2 <=? 1)%float = true.
Proof.
  intros Hi. apply andb_true_iff.
  apply (LerpFacts.forallb_range 200
           (fun i => (0 <=? (arc_fraction i + arc_fraction (i + 1)) / 2)%float
                     && ((arc_fraction i + arc_fraction (i + 1)) / 2 <=? 1)%float)
           ltac:(vm_compute; reflexivity) i Hi).
Qed.

End Arc.

(** C7. [draw_thick_arc] with its default [steps = 200] (the only value
    [draw_orbital] ever passes).  When the first loop completes it has
    computed 201 sample points, point i at the fraction t_i = i/200 of the
    angular span and at the position of the rotated ellipse there:
    (cx + rx cos a cos r - ry sin a sin r, cy + rx cos a sin r + ry sin a cos r),
    with a the angle at t_i, in radians, and r the rotation.  When the
    call returns it has drawn the 200 segments between neighbouring
    points, segment i in the colour
    [lerp_color(color_start, color_end, t_mid)] with [t_mid] the mean of
    the fractions of its two ends.  The six calls [create_nebula_icon]
    makes (three orbitals, two half turns each) return, with 200 segments
    each. *)
Theorem draw_thick_arc_polyline {libm : Libm} {pil : Pillow}
    (cx cy rx ry angle_start angle_end : Z) (rotation : float)
    (width : Z) (color_start color_end : color) :
  (forall points,
     arc_points cx cy rx ry angle_start angle_end rotation 200 = Ok points ->
     length points = 201%nat
     /\ forall i, 0 <= i <= 200 ->
          let t := (float_of_Z i / 200)%float in
          let a := radians (float_of_Z angle_start
                            + float_of_Z (angle_end - angle_start) * t)%float in
          nth_error points (Z.to_nat i)
          = Some (float_of_Z cx + float_of_Z rx * cos a * cos rotation
                  - float_of_Z ry * sin a * sin rotation,
                  float_of_Z cy + float_of_Z rx * cos a * sin rotation
                  + float_of_Z ry * sin a * cos rotation,
                  t)%float)
  /\ (forall ops,
        draw_thick_arc cx cy rx ry angle_start angle_end rotation width
          color_start color_end 200 = Ok ops ->
        length ops = 200%nat
        /\ forall i, 0 <= i < 200 ->
             let t := fun k : Z => (float_of_Z k / 200)%float in
             let a := fun k : Z =>
               radians (float_of_Z angle_start
                        + float_of_Z (angle_end - angle_start) * t k)%float in
             let p := fun k : Z =>
               (float_of_Z cx + float_of_Z rx * cos (a k) * cos rotation
                - float_of_Z ry * sin (a k) * sin rotation,
                float_of_Z cy + float_of_Z rx * cos (a k) * sin rotation
                + float_of_Z ry * sin (a k) * cos rotation)%float in
             exists color,
               lerp_color color_start color_end
                 ((t i + t (i + 1)%Z) / 2)%float = Ok color
               /\ nth_error ops (Z.to_nat i)
                  = Some (Line (p i) (p (i + 1)) color width))
  /\ (forall rot_deg c_start c_end arc_start arc_end,
        In (rot_deg, c_start, c_end) orbitals ->
        (arc_start = 180 /\ arc_end = 360)
        \/ (arc_start = 0 /\ arc_end = 180) ->
        exists ops,
          draw_orbital 512 512 340 130 (radians (float_of_Z rot_deg))
            c_start c_end 16 arc_start arc_end = Ok ops
          /\ length ops = 200%nat)
  /\ draw_orbital cx cy rx ry rotation color_start color_end width
       angle_start angle_end
     = draw_thick_arc cx cy rx ry angle_start angle_end rotation width
         color_start color_end 200.
Proof.
  assert (Heq : forall cx cy rx ry angle_start angle_end rotation width
                       c_start c_end,
    draw_thick_arc cx cy rx ry angle_start angle_end rotation width
      c_start c_end 200
    = mapM (fun i =>
              color <- lerp_color c_start c_end
                         ((arc_fraction i + arc_fraction (i + 1)) / 2)%float ;;
              Ok (Line
                    (arc_sample cx cy rx ry angle_start angle_end rotation i)
                    (arc_sample cx cy rx ry angle_start angle_end rotation
                       (i + 1))
                    color width))
           (range 200)).
  { intros. unfold draw_thick_arc.
    rewrite arc_points_200. cbn [bind]. apply arc_segments_200. }
  split; [ | split; [ | split; [ | reflexivity ] ] ].
  - intros points Hp. rewrite arc_points_200 in Hp.
    pose proof (f_equal (fun r => match r with
                                  | Ok pts => pts
                                  | Raise _ => []
                                  end) Hp) as Hpts.
    cbv beta iota in Hpts. subst points. clear Hp.
    rewrite length_map. split; [ reflexivity | ].
    intros i Hi t a.
    rewrite nth_error_map, (range_nth_error 201 (Z.to_nat i)) by lia.
    rewrite Z2Nat.id by lia. reflexivity.
  - intros ops Hops. rewrite Heq in Hops.
    split.
    + rewrite (mapM_length _ _ _ Hops). reflexivity.
    + intros i Hi t a p.
      destruct (mapM_nth_error _ _ _ Hops (Z.to_nat i) i) as (op & Hop & Hbody).
      { rewrite (range_nth_error 200 (Z.to_nat i)) by lia.
        rewrite Z2Nat.id by lia. reflexivity. }
      subst t a p. cbv beta.
      fold (arc_fraction i). fold (arc_fraction (i + 1)).
      destruct (lerp_color color_start color_end _) as [color | e];
        [ | discriminate ].
      cbn [bind] in Hbody. injection Hbody as <-.
      exists color. split; [ reflexivity | exact Hop ].
  - intros rot_deg c_start c_end arc_start arc_end Ho _.
    unfold draw_orbital. rewrite Heq.
    destruct (mapM_all_Ok
                (fun i =>
                   color <- lerp_color c_start c_end
                              ((arc_fraction i + arc_fraction (i + 1)) / 2)%float ;;
                   Ok (Line
                         (arc_sample 512 512 340 130 arc_start arc_end
                            (radians (float_of_Z rot_deg)) i)
                         (arc_sample 512 512 340 130 arc_start arc_end
                            (radians (float_of_Z rot_deg)) (i + 1))
                         color 16))
                (range 200)) as [ops Hops].
    { intros i Hi. apply in_range_inv in Hi. destruct Hi as [Hi _].
      destruct (orbital_colors_return rot_deg c_start c_end i Ho Hi)
        as [color Hc].
      rewrite Hc. cbn [bind]. eauto. }
    exists ops. split; [ exact Hops | ].
    rewrite (mapM_length _ _ _ Hops). reflexivity.
Qed.

(** The back half of the first orbital: it is drawn, in 200 segments. *)
Lemma draw_thick_arc_polyline_witness :
  exists ops,
    draw_thick_arc (libm := ref_libm) (pil := ref_pillow)
      512 512 340 130 180 360 (radians (float_of_Z (-30))) 16
      BLUE PURPLE 200 = Ok ops
    /\ length ops = 200%nat.
Proof.
  destruct (draw_thick_arc_polyline (libm := ref_libm) (pil := ref_pillow)
              512 512 340 130 180 360 (radians (float_of_Z (-30))) 16
              BLUE PURPLE)
    as (_ & _ & Hret & _).
  apply (Hret (-30) BLUE PURPLE 180 360 (or_introl eq_refl)).
  left. split; reflexivity.
Defined.

End ArcFacts.

(* ================================================================== *)
(** * The electrons sit on the parametrised ellipse *)
(* ================================================================== *)

Module ElectronFacts.
Section Electrons.

Context {libm : Libm} {pil : Pillow}.

(** A zero-span arc at an electron's angle stays at that angle. *)
Lemma zero_span_angle (angle_deg i : Z) :
  angle_deg = 220 \/ angle_deg = 40 -> 0 <= i <= 200 ->
  (float_of_Z angle_deg + float_of_Z (angle_deg - angle_deg) * arc_fraction i
   = float_of_Z angle_deg)%float.
Proof.
  intros Ha Hi. rewrite Z.sub_diag.
  assert (Hall : forallb
            (fun i => feq (float_of_Z 220 + float_of_Z 0 * arc_fraction i)
                          (float_of_Z 220)
                      && feq (float_of_Z 40 + float_of_Z 0 * arc_fraction i)
                             (float_of_Z 40))%float
            (range (Z.of_nat 201)) = true) by (vm_compute; reflexivity).
  pose proof (LerpFacts.forallb_range 201 _ Hall i ltac:(lia)) as Hk.
  cbv beta in Hk. apply andb_true_iff in Hk. destruct Hk as [H220 H40].
  destruct Ha as [-> | ->]; apply LerpFacts.feq_eq; assumption.
Qed.

(** The two [draw_sphere] calls of the electron loop. *)
Lemma electron_spheres_calls (ops : list draw_op) :
  electron_spheres 512 512 340 130 = Ok ops ->
  exists x1 y1 s1 x2 y2 s2,
    py_int (fst (electron_position 512 512 340 130 (-30) 220)) = Ok x1
    /\ py_int (snd (electron_position 512 512 340 130 (-30) 220)) = Ok y1
    /\ draw_sphere x1 y1 22 [80; 130; 255] [180; 200; 255] = Ok s1
    /\ py_int (fst (electron_position 512 512 340 130 90 40)) = Ok x2
    /\ py_int (snd (electron_position 512 512 340 130 90 40)) = Ok y2
    /\ draw_sphere x2 y2 22 [255; 160; 30] [255; 220; 140] = Ok s2
    /\ ops = s1 ++ s2.
Proof.
  intros Hops. unfold electron_spheres, electrons in Hops.
  cbn [mapM] in Hops.
  change (nth_error orbitals (Z.to_nat 0)) with (Some (-30, BLUE, PURPLE))
    in Hops.
  change (nth_error orbitals (Z.to_nat 2))
    with (Some (90, ORANGE, RED_ORANGE)) in Hops.
  cbv iota beta in Hops.
  destruct (electron_position 512 512 340 130 (-30) 220) as [px1 py1].
  destruct (electron_position 512 512 340 130 90 40) as [px2 py2].
  cbn [fst snd].
  destruct (py_int px1) as [x1 | e]; [ | discriminate ].
  destruct (py_int py1) as [y1 | e]; [ | discriminate ].
  cbn [bind] in Hops.
  destruct (draw_sphere x1 y1 22 _ _) as [s1 | e] eqn:Hs1; [ | discriminate ].
  cbn [bind] in Hops.
  destruct (py_int px2) as [x2 | e]; [ | discriminate ].
  destruct (py_int py2) as [y2 | e]; [ | discriminate ].
  cbn [bind] in Hops.
  destruct (draw_sphere x2 y2 22 _ _) as [s2 | e] eqn:Hs2; [ | discriminate ].
  cbn [bind concat] in Hops. injection Hops as <-.
  exists x1, y1, s1, x2, y2, s2. rewrite app_nil_r.
  repeat split; assumption.
Qed.

(** C8. The centre computed for an electron at angle [a] on an orbital of
    rotation [r] (both converted from degrees) is
    (cx + rx cos a cos r - ry sin a sin r, cy + rx cos a sin r + ry sin a cos r),
    which is the very point [draw_thick_arc] computes for that angle and
    rotation; every sample of an arc is that expression at the sample's
    angle; for the two electrons of the icon ([rx] = 340, [ry] = 130) the
    position is the sample of the zero-span arc at the electron's angle on
    its orbital; and [draw_sphere] is called at that position converted
    with [int]. *)
Theorem electron_position_parametrization :
  (forall cx cy rx ry rot_deg angle_deg : Z,
     let a := radians (float_of_Z angle_deg) in
     let r := radians (float_of_Z rot_deg) in
     electron_position cx cy rx ry rot_deg angle_deg
     = (float_of_Z cx + float_of_Z rx * cos a * cos r
        - float_of_Z ry * sin a * sin r,
        float_of_Z cy + float_of_Z rx * cos a * sin r
        + float_of_Z ry * sin a * cos r)%float
     /\ electron_position cx cy rx ry rot_deg angle_deg
        = arc_point cx cy rx ry (cos r) (sin r) a)
  /\ (forall (cx cy rx ry angle_start angle_end : Z) (r : float) (i : Z),
        let a := radians (float_of_Z angle_start
                          + float_of_Z (angle_end - angle_start)
                            * arc_fraction i)%float in
        arc_sample cx cy rx ry angle_start angle_end r i
        = (float_of_Z cx + float_of_Z rx * cos a * cos r
           - float_of_Z ry * sin a * sin r,
           float_of_Z cy + float_of_Z rx * cos a * sin r
           + float_of_Z ry * sin a * cos r)%float)
  /\ (forall orb_idx angle_deg rad base_col hi_col rot_deg c_start c_end i,
        In (orb_idx, angle_deg, rad, base_col, hi_col) electrons ->
        nth_error orbitals (Z.to_nat orb_idx)
        = Some (rot_deg, c_start, c_end) ->
        0 <= i <= 200 ->
        arc_sample 512 512 340 130 angle_deg angle_deg
          (radians (float_of_Z rot_deg)) i
        = electron_position 512 512 340 130 rot_deg angle_deg)
  /\ (forall ops,
        electron_spheres 512 512 340 130 = Ok ops ->
        exists x1 y1 s1 x2 y2 s2,
          py_int (fst (electron_position 512 512 340 130 (-30) 220)) = Ok x1
          /\ py_int (snd (electron_position 512 512 340 130 (-30) 220))
             = Ok y1
          /\ draw_sphere x1 y1 22 [80; 130; 255] [180; 200; 255] = Ok s1
          /\ py_int (fst (electron_position 512 512 340 130 90 40)) = Ok x2
          /\ py_int (snd (electron_position 512 512 340 130 90 40)) = Ok y2
          /\ draw_sphere x2 y2 22 [255; 160; 30] [255; 220; 140] = Ok s2
          /\ ops = s1 ++ s2).
Proof.
  split; [ intros; split; reflexivity | ].
  split; [ intros; reflexivity | ].
  split.
  - intros orb_idx angle_deg rad base_col hi_col rot_deg c_start c_end i
      He Ho Hi.
    unfold arc_sample.
    rewrite zero_span_angle; [ reflexivity | | exact Hi ].
    destruct He as [He | [He | []]].
    + injection He as <- <- <- <- <-. left. reflexivity.
    + injection He as <- <- <- <- <-. right. reflexivity.
  - apply electron_spheres_calls.
Qed.

End Electrons.
End ElectronFacts.

(* ================================================================== *)
(** * Font loading *)
(* ================================================================== *)

Module FontFacts.
Section Fonts.

Context {pil : Pillow}.

Lemma fallback_Ok_or_not_OSError {A} (attempts : list (result A)) (last : A) :
  (forall f, fallback attempts last = Ok f ->
     In (Ok f) attempts
     \/ (f = last
         /\ forall r, In r attempts ->
                      exists e, r = Raise e /\ is_OSError e = true))
  /\ (forall e, fallback attempts last = Raise e ->
        is_OSError e = false /\ In (Raise e) attempts).
Proof.
  induction attempts as [ | r rest [IHok IHraise] ]; cbn [fallback].
  - split.
    + intros f Hf. injection Hf as <-. right. split; [ reflexivity | ].
      intros r [].
    + intros e He. discriminate.
  - destruct r as [a | e0].
    + split.
      * intros f Hf. injection Hf as <-. left. left. reflexivity.
      * intros e He. discriminate.
    + destruct (is_OSError e0) eqn:Hos.
      * split.
        -- intros f Hf. destruct (IHok f Hf) as [Hin | [-> Hall]].
           ++ left. right. exact Hin.
           ++ right. split; [ reflexivity | ].
              intros r [<- | Hr]; [ eauto | apply Hall, Hr ].
        -- intros e He. destruct (IHraise e He) as [Hne Hin].
           split; [ exact Hne | right; exact Hin ].
      * split.
        -- intros f Hf. discriminate.
        -- intros e He. injection He as <-.
           split; [ exact Hos | left; reflexivity ].
Qed.

(** C6, as the code has it.  The nested [try]/[except (OSError, IOError)]
    chain is a priority fallback over consola.ttf, cour.ttf and
    C:/Windows/Fonts/consola.ttf: an attempt that fails with [OSError] (or a
    subclass) is caught and the next is tried, and when all three fail so
    the built-in default font is used; so if font loading can only fail
    with [OSError], it always yields a font.  A load attempt that raises
    any other exception is not caught: the exception leaves
    [create_nebula_icon]. *)
Theorem load_font_fallback :
  load_font
  = fallback (map (fun name => truetype name 240) font_names) load_default
  /\ ((forall name e, truetype name 240 = Raise e -> is_OSError e = true) ->
      exists f, load_font = Ok f)
  /\ ((forall name, In name font_names ->
         exists e, truetype name 240 = Raise e /\ is_OSError e = true) ->
      load_font = Ok load_default)
  /\ (forall e, load_font = Raise e ->
        is_OSError e = false
        /\ exists name, In name font_names /\ truetype name 240 = Raise e)
  /\ (forall (libm : Libm) (rnd : PyRandom) (g : rng_state) e,
        load_font = Raise e ->
        (exists e', create_nebula_icon g = Raise e')).
Proof.
  assert (Heq : load_font
                = fallback (map (fun name => truetype name 240) font_names)
                    load_default).
  { unfold load_font, font_names, try_except_OSError. cbn [map fallback].
    destruct (truetype "consola.ttf" 240) as [f | e]; [ reflexivity | ].
    destruct (is_OSError e); [ | reflexivity ].
    destruct (truetype "cour.ttf" 240) as [f | e']; [ reflexivity | ].
    destruct (is_OSError e'); [ | reflexivity ].
    destruct (truetype "C:/Windows/Fonts/consola.ttf" 240) as [f | e''];
      [ reflexivity | ].
    destruct (is_OSError e''); reflexivity. }
  destruct (fallback_Ok_or_not_OSError
              (map (fun name => truetype name 240) font_names) load_default)
    as [Hok Hraise].
  split; [ exact Heq | ].
  split; [ | split; [ | split ] ].
  - intros Hos. rewrite Heq.
    destruct (fallback _ load_default) as [f | e] eqn:Hf; [ eauto | ].
    destruct (Hraise e eq_refl) as [Hne Hin].
    apply in_map_iff in Hin. destruct Hin as (name & Hname & _).
    rewrite (Hos name e Hname) in Hne. discriminate.
  - intros Hall. rewrite Heq. unfold font_names in *. cbn [map fallback].
    destruct (Hall "consola.ttf"%string ltac:(simpl; auto)) as (e1 & -> & ->).
    destruct (Hall "cour.ttf"%string ltac:(simpl; auto)) as (e2 & -> & ->).
    destruct (Hall "C:/Windows/Fonts/consola.ttf"%string ltac:(simpl; auto))
      as (e3 & -> & ->).
    reflexivity.
  - intros e He. rewrite Heq in He.
    destruct (Hraise e He) as [Hne Hin].
    split; [ exact Hne | ].
    apply in_map_iff in Hin. destruct Hin as (name & Hname & Hn).
    exists name. split; assumption.
  - intros libm rnd g e He.
    unfold create_nebula_icon, create_nebula_icon_ops.
    generalize (background (SIZE / 2) (SIZE / 2)).
    generalize (orbital_halves (SIZE / 2) (SIZE / 2) 340 130 180 360).
    generalize (orbital_halves (SIZE / 2) (SIZE / 2) 340 130 0 180).
    generalize (electron_spheres (SIZE / 2) (SIZE / 2) 340 130).
    rewrite He. clear.
    intros spheres front [back | e2] [bg | e1]; cbn [bind]; eauto.
Qed.

End Fonts.

(** With none of the three fonts installed the default font is used. *)
Lemma load_font_fallback_witness :
  load_font (pil := ref_pillow) = Ok tt.
Proof.
  destruct (load_font_fallback (pil := ref_pillow)) as (_ & _ & Hdef & _).
  apply Hdef. intros name _. exists FileNotFoundError.
  split; reflexivity.
Defined.

(** C6 as stated fails: on a Pillow without FreeType the first attempt
    raises [ImportError], which the chain does not catch, and the
    composition aborts with it. *)
Lemma font_loading_can_abort :
  load_font (pil := no_freetype_pillow) = Raise ImportError
  /\ image_size (create_nebula_icon (libm := ref_libm)
                   (pil := no_freetype_pillow) (rnd := mt_random)
                   (MT19937.seed 0)) = None.
Proof.
  split; vm_compute; reflexivity.
Qed.

End FontFacts.

(* ================================================================== *)
(** * Sparkle colours *)
(* ================================================================== *)

Module SparkleFacts.
Section Sparkles.

Context {pil : Pillow} {rnd : PyRandom}.

Lemma sparkle_colors_length n g : length (sparkle_colors n g) = n.
Proof.
  revert g; induction n as [ | n IH ]; intros g; cbn [sparkle_colors].
  - reflexivity.
  - destruct (randint 180 255 g) as [b g1]. cbn [length]. rewrite IH.
    reflexivity.
Qed.

Lemma sparkle_colors_shape n g :
  Forall (fun c => exists b, c = [255; 255; b]) (sparkle_colors n g).
Proof.
  revert g; induction n as [ | n IH ]; intros g; cbn [sparkle_colors].
  - constructor.
  - destruct (randint 180 255 g) as [b g1]. constructor; [ eauto | apply IH ].
Qed.

(** The sparkle loop draws each sparkle in the colour of its turn. *)
Lemma sparkles_colors positions g :
  fst (sparkles positions g)
  = concat (map (fun pc : Z * Z * Z * color =>
                   let '(sx, sy, ss, c) := pc in draw_sparkle sx sy ss c)
                (combine positions (sparkle_colors (length positions) g))).
Proof.
  revert g; induction positions as [ | [[sx sy] ss] rest IH ]; intros g.
  - reflexivity.
  - cbn [sparkles length sparkle_colors].
    destruct (randint 180 255 g) as [b g1].
    specialize (IH g1). destruct (sparkles rest g1) as [ops g2].
    cbn [fst] in *. cbn [combine map concat]. rewrite IH. reflexivity.
Qed.

(** C5. Whatever state the generator is in when the sparkle step starts,
    [random.seed(42)] resets it, so two runs draw the same sparkles: the
    same twelve colours, each (255, 255, b), in the same order, and the
    same drawing calls; the whole of [create_nebula_icon] issues the same
    drawing calls in both runs. *)
Theorem sparkle_colors_deterministic (g1 g2 : rng_state) :
  sparkle_colors 12 (seed 42 g1) = sparkle_colors 12 (seed 42 g2)
  /\ length (sparkle_colors 12 (seed 42 g1)) = 12%nat
  /\ Forall (fun c => exists b, c = [255; 255; b])
            (sparkle_colors 12 (seed 42 g1))
  /\ sparkles sparkle_positions (seed 42 g1)
     = sparkles sparkle_positions (seed 42 g2)
  /\ fst (sparkles sparkle_positions (seed 42 g1))
     = concat (map (fun pc : Z * Z * Z * color =>
                      let '(sx, sy, ss, c) := pc in draw_sparkle sx sy ss c)
                   (combine sparkle_positions
                            (sparkle_colors 12 (seed 42 g1))))
  /\ forall libm : Libm,
       create_nebula_icon_ops g1 = create_nebula_icon_ops g2.
Proof.
  rewrite (seed_resets 42 g1 g2).
  split; [ reflexivity | ].
  split; [ apply sparkle_colors_length | ].
  split; [ apply sparkle_colors_shape | ].
  split; [ reflexivity | ].
  split; [ apply (sparkles_colors sparkle_positions) | ].
  intros libm. unfold create_nebula_icon_ops.
  rewrite (seed_resets 42 g1 g2). reflexivity.
Qed.

End Sparkles.

(** With CPython's generator, entered in two different states, the twelve
    blue channels are 194, 183, 215, 211, 208, 197, 193, 249, 191, 255, 234,
    184 both times. *)
Lemma sparkle_colors_deterministic_witness :
  sparkle_colors (rnd := mt_random) 12 (seed 42 (MT19937.seed 0))
  = sparkle_colors (rnd := mt_random) 12 (seed 42 (MT19937.seed 1))
  /\ sparkle_colors (rnd := mt_random) 12 (seed 42 (MT19937.seed 1))
     = map (fun b => [255; 255; b])
           [194; 183; 215; 211; 208; 197; 193; 249; 191; 255; 234; 184].
Proof.
  split.
  - exact (proj1 (sparkle_colors_deterministic (pil := ref_pillow)
                    (rnd := mt_random) (MT19937.seed 0) (MT19937.seed 1))).
  - vm_compute. reflexivity.
Defined.

End SparkleFacts.

(* ================================================================== *)
(** * The composed canvas: size and opacity *)
(* ================================================================== *)

Module CanvasFacts.
Section Canvas.

Context {libm : Libm} {pil : Pillow} {rnd : PyRandom}.

Lemma paint_size img op img' :
  paint img op = Ok img' ->
  width img' = width img /\ height img' = height img.
Proof.
  destruct op as [xy fill | p q fill w | xy text fill f]; cbn [paint];
    destruct (ink_of_fill fill) as [ink | e]; cbn [bind]; intros Hp;
    try discriminate; injection Hp as <-; split; reflexivity.
Qed.

Lemma paint_all_size ops : forall img img',
  paint_all img ops = Ok img' ->
  width img' = width img /\ height img' = height img.
Proof.
  induction ops as [ | op ops IH ]; intros img img' Hp; cbn [paint_all] in Hp.
  - injection Hp as <-. split; reflexivity.
  - destruct (paint img op) as [img1 | e] eqn:H1; [ | discriminate ].
    cbn [bind] in Hp. destruct (paint_size _ _ _ H1) as [Hw Hh].
    destruct (IH _ _ Hp) as [Hw' Hh']. split; congruence.
Qed.

(** Whenever [create_nebula_icon] returns, the image is 1024 x 1024. *)
Lemma create_nebula_icon_size g img g' :
  create_nebula_icon g = Ok (img, g') ->
  width img = 1024%N /\ height img = 1024%N.
Proof.
  unfold create_nebula_icon.
  destruct (create_nebula_icon_ops g) as [[ops g1] | e]; [ | discriminate ].
  cbn [bind].
  destruct (paint_all _ ops) as [img1 | e] eqn:Hp; [ | discriminate ].
  cbn [bind]. intros Hr. injection Hr as <- <-.
  apply paint_all_size in Hp. exact Hp.
Qed.

(** A pixel that no later call touches keeps its value. *)
Lemma paint_untouched img op img' x y :
  paint img op = Ok img' -> touches op x y = false ->
  getpixel img' x y = getpixel img x y.
Proof.
  destruct op as [xy fill | p q fill w | xy text fill f]; cbn [paint touches];
    destruct (ink_of_fill fill) as [ink | e]; cbn [bind]; intros Hp Ht;
    try discriminate; injection Hp as <-; cbn [getpixel].
  - rewrite Ht, andb_false_r. reflexivity.
  - rewrite Ht, andb_false_r. reflexivity.
Qed.

Lemma paint_all_untouched ops x y : forall img img',
  paint_all img ops = Ok img' ->
  (forall op, In op ops -> touches op x y = false) ->
  getpixel img' x y = getpixel img x y.
Proof.
  induction ops as [ | op ops IH ]; intros img img' Hp Hno;
    cbn [paint_all] in Hp.
  - injection Hp as <-. reflexivity.
  - destruct (paint img op) as [img1 | e] eqn:H1; [ | discriminate ].
    cbn [bind] in Hp.
    rewrite (IH _ _ Hp) by (intros o Ho; apply Hno; right; exact Ho).
    apply (paint_untouched _ _ _ _ _ H1). apply Hno. left. reflexivity.
Qed.

Lemma range_down_cons hi lo :
  lo < hi -> range_down hi lo = hi :: range_down (hi - 1) lo.
Proof.
  intros Hlt. unfold range_down.
  replace (Z.to_nat (hi - lo)) with (S (Z.to_nat (hi - 1 - lo))) by lia.
  cbn [seq map]. f_equal; [ lia | ].
  rewrite <- seq_shift, map_map.
  apply map_ext. intros k. lia.
Qed.

(** The first call of [draw_sphere] is the outermost glow ellipse, and its
    fill has alpha 0. *)
Lemma draw_sphere_first cx cy radius base_color highlight_color ops :
  draw_sphere cx cy radius base_color highlight_color = Ok ops ->
  exists rest,
    ops = Ellipse (square cx cy (radius + 12)) (base_color ++ [0]) :: rest.
Proof.
  unfold draw_sphere.
  rewrite (range_down_cons (radius + 12) radius) by lia.
  cbn [mapM].
  replace (radius + 12 - radius) with 12 by lia.
  change (truediv 12 12) with (Ok 1%float). cbn [bind].
  change (py_int (60 * (1 - 1))%float) with (Ok 0). cbn [bind].
  destruct (mapM _ (range_down (radius + 12 - 1) radius)) as [glow | e];
    [ | discriminate ].
  cbn [bind].
  destruct (mapM _ (range_down radius 0)) as [body | e]; [ | discriminate ].
  cbn [bind].
  destruct (py_int _) as [n | e]; [ | discriminate ].
  cbn [bind].
  destruct (mapM _ (range_down n 0)) as [spec | e]; [ | discriminate ].
  cbn [bind]. intros Hops. injection Hops as <-.
  eexists. cbn [app]. reflexivity.
Qed.

Lemma paint_all_app ops1 : forall ops2 img,
  paint_all img (ops1 ++ ops2)
  = (img1 <- paint_all img ops1 ;; paint_all img1 ops2).
Proof.
  induction ops1 as [ | op ops1 IH ]; intros ops2 img; cbn [app paint_all].
  - reflexivity.
  - destruct (paint img op) as [img1 | e]; cbn [bind]; [ apply IH | ].
    reflexivity.
Qed.

(** A shape stores its ink in every pixel of the image it covers. *)
Lemma paint_ellipse_covered img xy fill img' ink x y :
  paint img (Ellipse xy fill) = Ok img' ->
  ink_of_fill fill = Ok ink ->
  in_image img x y = true -> ellipse_covers xy x y = true ->
  getpixel img' x y = ink.
Proof.
  cbn [paint]. intros Hp Hink Hin Hcov. rewrite Hink in Hp.
  cbn [bind] in Hp. injection Hp as <-. cbn [getpixel].
  rewrite Hin, Hcov. reflexivity.
Qed.

Lemma in_image_same_size img img' x y :
  width img' = width img -> height img' = height img ->
  in_image img' x y = in_image img x y.
Proof. intros Hw Hh. unfold in_image. rewrite Hw, Hh. reflexivity. Qed.

(** After [pre ++ op :: post], a pixel covered by the ellipse [op] and
    touched by nothing in [post] holds the ink of [op]. *)
Lemma paint_all_last_cover pre xy fill post img img' ink x y :
  paint_all img (pre ++ Ellipse xy fill :: post) = Ok img' ->
  ink_of_fill fill = Ok ink ->
  in_image img x y = true -> ellipse_covers xy x y = true ->
  (forall op, In op post -> touches op x y = false) ->
  getpixel img' x y = ink.
Proof.
  intros Hrun Hink Hin Hcov Hpost.
  rewrite paint_all_app in Hrun.
  destruct (paint_all img pre) as [img1 | e] eqn:H1; [ | discriminate ].
  cbn [bind paint_all] in Hrun.
  destruct (paint img1 (Ellipse xy fill)) as [img2 | e] eqn:H2;
    [ | discriminate ].
  cbn [bind] in Hrun.
  rewrite (paint_all_untouched _ _ _ _ _ Hrun Hpost).
  apply (paint_ellipse_covered _ _ _ _ _ _ _ H2 Hink); [ | exact Hcov ].
  destruct (paint_all_size _ _ _ H1) as [Hw Hh].
  rewrite (in_image_same_size img img1 x y Hw Hh). exact Hin.
Qed.

Lemma regroup_calls {A} (a b c d e : list A) (f : A) (r s : list A) :
  a ++ b ++ c ++ d ++ (e ++ f :: r) ++ s
  = (a ++ b ++ c ++ d ++ e) ++ f :: (r ++ s).
Proof. repeat rewrite <- app_assoc. reflexivity. Qed.

(** [create_nebula_icon] as one chain of steps. *)
Lemma create_nebula_icon_steps g :
  create_nebula_icon g
  = (bg <- background 512 512 ;;
     back <- orbital_halves 512 512 340 130 180 360 ;;
     f <- load_font ;;
     front <- orbital_halves 512 512 340 130 0 180 ;;
     spheres <- electron_spheres 512 512 340 130 ;;
     img <- paint_all (Image_new 1024 1024 (0, 0, 0, 255))
              (bg ++ back ++ brackets 512 512 f ++ front ++ spheres
               ++ fst (sparkles sparkle_positions (seed 42 g))) ;;
     Ok (img, snd (sparkles sparkle_positions (seed 42 g)))).
Proof.
  unfold create_nebula_icon, create_nebula_icon_ops.
  change (SIZE / 2) with 512. change (Z.to_N SIZE) with 1024%N.
  generalize (background 512 512).
  generalize (orbital_halves 512 512 340 130 180 360).
  generalize (orbital_halves 512 512 340 130 0 180).
  generalize (electron_spheres 512 512 340 130).
  generalize load_font.
  destruct (sparkles sparkle_positions (seed 42 g)) as [sp g2].
  intros [f | e1] [spheres | e2] [front | e3] [back | e4] [bg | e5];
    reflexivity.
Qed.

(** The glow of the last sphere drawn is left in the image.  Whatever the
    rasteriser, the trigonometry and the generator: a pixel of the canvas
    covered by the outermost glow ellipse of the orange electron, and
    touched by none of the calls made after it (the rest of that sphere and
    the sparkles), ends up with the glow's own colour and alpha 0. *)
Lemma glow_ring_transparent g img g' x2 y2 x y :
  create_nebula_icon g = Ok (img, g') ->
  py_int (fst (electron_position 512 512 340 130 90 40)) = Ok x2 ->
  py_int (snd (electron_position 512 512 340 130 90 40)) = Ok y2 ->
  0 <= x < 1024 -> 0 <= y < 1024 ->
  ellipse_covers (square x2 y2 34) x y = true ->
  (forall rest,
     draw_sphere x2 y2 22 [255; 160; 30] [255; 220; 140]
     = Ok (Ellipse (square x2 y2 34) [255; 160; 30; 0] :: rest) ->
     forall op, In op rest -> touches op x y = false) ->
  (forall op, In op (fst (sparkles sparkle_positions (seed 42 g))) ->
              touches op x y = false) ->
  getpixel img x y = (255, 160, 30, 0).
Proof.
  intros Hrun Hx2 Hy2 Hx Hy Hcov Hrest Hsp.
  rewrite create_nebula_icon_steps in Hrun.
  apply bind_Ok_inv in Hrun. destruct Hrun as (bg & _ & Hrun).
  apply bind_Ok_inv in Hrun. destruct Hrun as (back & _ & Hrun).
  apply bind_Ok_inv in Hrun. destruct Hrun as (f & _ & Hrun).
  apply bind_Ok_inv in Hrun. destruct Hrun as (front & _ & Hrun).
  apply bind_Ok_inv in Hrun. destruct Hrun as (spheres & Hsph & Hrun).
  apply bind_Ok_inv in Hrun. destruct Hrun as (img3 & H3 & Hret).
  injection Hret as <- _.
  destruct (ElectronFacts.electron_spheres_calls spheres Hsph)
    as (x1 & y1 & s1 & x2' & y2' & s2 & _ & _ & _ & Hx2' & Hy2' & Hs2 & ->).
  rewrite Hx2 in Hx2'. injection Hx2' as <-.
  rewrite Hy2 in Hy2'. injection Hy2' as <-.
  destruct (draw_sphere_first _ _ _ _ _ _ Hs2) as [rest ->].
  specialize (Hrest rest Hs2).
  rewrite regroup_calls in H3.
  apply (paint_all_last_cover _ _ _ _ _ _ (255, 160, 30, 0) x y H3).
  - reflexivity.
  - unfold in_image. cbn [width height Image_new].
    destruct (Z.leb_spec 0 x), (Z.ltb_spec x (Z.of_N 1024)),
      (Z.leb_spec 0 y), (Z.ltb_spec y (Z.of_N 1024));
      first [ lia | reflexivity ].
  - exact Hcov.
  - intros op Hop. apply in_app_or in Hop.
    destruct Hop as [Hop | Hop]; [ apply Hrest, Hop | apply Hsp, Hop ].
Qed.

End Canvas.

(** C1 on the reference libraries.  The image is 1024 x 1024 and opaque
    where only the background was painted (corner (0, 0), centre of the
    orange electron (428, 772)), but the glow rings of [draw_sphere] are
    stored with their own alpha: pixel (451, 772), one pixel outside the
    orange electron's body, has alpha 55, and pixel (462, 772), on the
    outermost glow ring, has alpha 0. *)
Theorem nebula_icon_translucent_ring :
  image_size reference_run = Some (1024, 1024)%N
  /\ pixel_at reference_run 0 0 = Some (0, 0, 0, 255)
  /\ pixel_at reference_run 428 772 = Some (255, 194, 93, 255)
  /\ pixel_at reference_run 451 772 = Some (255, 160, 30, 55)
  /\ pixel_at reference_run 462 772 = Some (255, 160, 30, 0).
Proof.
  vm_compute. repeat split.
Qed.

End CanvasFacts.

(* ================================================================== *)
(** * [lerp_color] at its edges *)
(* ================================================================== *)

Module LerpEdges.

Lemma py_int_nan x : Prim2SF x = S754_nan -> py_int x = Raise ValueError.
Proof. unfold py_int. intros ->. reflexivity. Qed.

Lemma py_int_inf x s : Prim2SF x = S754_infinity s -> py_int x = Raise OverflowError.
Proof. unfold py_int. intros ->. reflexivity. Qed.

Lemma channel_nan (a d : float) : Prim2SF (a + d * nan)%float = S754_nan.
Proof.
  rewrite FloatAxioms.add_spec, FloatAxioms.mul_spec.
  change (Prim2SF nan) with S754_nan.
  destruct (Prim2SF d) as [ s | s | | s m e ];
    destruct (Prim2SF a) as [ s' | s' | | s' m' e' ]; reflexivity.
Qed.

Lemma small_nonzero (d : Z) :
  -256 < d < 256 -> d <> 0 ->
  exists m e, Prim2SF (float_of_Z d) = S754_finite (d <? 0) m e.
Proof.
  intros Hd Hnz.
  pose proof (LerpFacts.forallb_range 511
    (fun k => (k - 255 =? 0)
              || finite_nonzero (k - 255 <? 0) (float_of_Z (k - 255)))
    ltac:(vm_compute; reflexivity) (d + 255) ltac:(lia)) as Hk.
  cbv beta in Hk. replace (d + 255 - 255) with d in Hk by lia.
  apply orb_true_iff in Hk. destruct Hk as [Hk | Hk]; [ lia | ].
  unfold finite_nonzero in Hk.
  destruct (Prim2SF (float_of_Z d)) as [ s | s | | s m e ]; try discriminate.
  apply Bool.eqb_prop in Hk. subst s. eauto.
Qed.

Lemma small_finite_or_zero (a : Z) :
  -256 < a < 256 ->
  (exists s, Prim2SF (float_of_Z a) = S754_zero s)
  \/ exists s m e, Prim2SF (float_of_Z a) = S754_finite s m e.
Proof.
  intros Ha. pose proof (LerpFacts.small_int_bnd a Ha) as Hb.
  destruct (Prim2SF (float_of_Z a)) as [ s | s | | s m e ];
    cbn [sf_bnd] in Hb; try contradiction; eauto.
Qed.

Lemma channel_inf (a b : Z) :
  0 <= a <= 255 -> 0 <= b <= 255 ->
  py_int (float_of_Z a + float_of_Z (b - a) * infinity)%float
  = Raise (if a =? b then ValueError else OverflowError).
Proof.
  intros Ha Hb.
  destruct (Z.eqb_spec a b) as [-> | Hne].
  - apply py_int_nan. rewrite Z.sub_diag.
    rewrite FloatAxioms.add_spec, FloatAxioms.mul_spec.
    change (Prim2SF infinity) with (S754_infinity false).
    change (Prim2SF (float_of_Z 0)) with (S754_zero false).
    destruct (Prim2SF (float_of_Z b)) as [ s | s | | s m e ]; reflexivity.
  - destruct (small_nonzero (b - a) ltac:(lia) ltac:(lia)) as (m & e & Hd).
    apply (py_int_inf _ (b - a <? 0)).
    rewrite FloatAxioms.add_spec, FloatAxioms.mul_spec, Hd.
    change (Prim2SF infinity) with (S754_infinity false).
    destruct (small_finite_or_zero a ltac:(lia)) as [[s ->] | (s & m' & e' & ->)];
      cbn; rewrite xorb_false_r; reflexivity.
Qed.

Lemma combine_truncates {A B} (l1 : list A) : forall l2 : list B,
  combine (firstn (length l2) l1) (firstn (length l1) l2) = combine l1 l2.
Proof.
  induction l1 as [ | a l1 IH ]; intros [ | b l2 ]; cbn [length firstn combine];
    try reflexivity.
  rewrite IH. reflexivity.
Qed.

Lemma lerp_color_length c1 c2 t out :
  lerp_color c1 c2 t = Ok out ->
  length out = Nat.min (length c1) (length c2).
Proof.
  unfold lerp_color. intros Hout.
  rewrite (mapM_length _ _ _ Hout). apply length_combine.
Qed.

(** X1. [lerp_color] zips its two colours: it returns as many channels as
    the shorter one has and ignores the rest of the longer one (an RGBA
    colour against an RGB one loses its alpha), and with an empty colour it
    returns the empty tuple whatever [t] is. *)
Theorem lerp_color_zip (c1 c2 : color) (t : float) :
  lerp_color c1 c2 t
  = lerp_color (firstn (length c2) c1) (firstn (length c1) c2) t
  /\ (forall out, lerp_color c1 c2 t = Ok out ->
        length out = Nat.min (length c1) (length c2))
  /\ lerp_color [] c2 t = Ok []
  /\ lerp_color c1 [] t = Ok [].
Proof.
  split; [ | split; [ | split ] ].
  - unfold lerp_color. rewrite combine_truncates. reflexivity.
  - intros out Hout. apply (lerp_color_length _ _ _ _ Hout).
  - reflexivity.
  - unfold lerp_color. destruct c1; reflexivity.
Qed.

(** X2. [lerp_color] on a fraction that is not a number, for two
    non-empty colours whose first channels are in [0,255]: with [t] a NaN,
    [int] raises [ValueError]; with [t] = +inf it raises [OverflowError]
    when the two channels differ and [ValueError] when they are equal
    (0 * inf is a NaN).  The exception comes from the first channel,
    whatever the others are. *)
Theorem lerp_color_not_finite (a b : Z) (c1 c2 : color) :
  0 <= a <= 255 -> 0 <= b <= 255 ->
  lerp_color (a :: c1) (b :: c2) nan = Raise ValueError
  /\ lerp_color (a :: c1) (b :: c2) infinity
     = Raise (if a =? b then ValueError else OverflowError).
Proof.
  intros Ha Hb. unfold lerp_color. cbn [combine mapM]. split.
  - rewrite (py_int_nan _ (channel_nan _ _)). reflexivity.
  - rewrite (channel_inf a b Ha Hb). reflexivity.
Qed.

(** From orange to red-orange. *)
Lemma lerp_color_not_finite_witness :
  lerp_color ORANGE RED_ORANGE nan = Raise ValueError
  /\ lerp_color ORANGE RED_ORANGE infinity = Raise OverflowError.
Proof.
  apply (lerp_color_not_finite 255 240 [160; 30] [80; 40]); lia.
Defined.

End LerpEdges.

(* ================================================================== *)
(** * [draw_thick_arc] for any number of steps *)
(* ================================================================== *)

Module ArcEdges.
Section Arc.

Context {libm : Libm} {pil : Pillow}.
Variables cx cy rx ry angle_start angle_end : Z.
Variable rotation : float.
Variable width : Z.
Variables color_start color_end : color.


Lemma mapM_Forall {A B} (f : A -> result B) (P : B -> Prop) (l : list A) :
  (forall x y, In x l -> f x = Ok y -> P y) ->
  forall ys, mapM f l = Ok ys -> Forall P ys.
Proof.
  induction l as [ | x l IH ]; intros Hf ys; cbn [mapM].
  - intros Hy. injection Hy as <-. constructor.
  - destruct (f x) as [y | e] eqn:Hx; cbn [bind]; [ | discriminate ].
    destruct (mapM f l) as [ys' | e] eqn:Hl; cbn [bind]; [ | discriminate ].
    intros Hy. injection Hy as <-. constructor.
    + apply (Hf x y (or_introl eq_refl) Hx).
    + apply IH; [ | reflexivity ]. intros z w Hz. apply Hf. right. exact Hz.
Qed.

Lemma arc_points_steps (steps : Z) :
  steps <> 0 -> Z.abs steps < 2 ^ 53 ->
  arc_points cx cy rx ry angle_start angle_end rotation steps
  = Ok (map (fun i =>
               (fst (step_sample cx cy rx ry angle_start angle_end rotation steps i),
                snd (step_sample cx cy rx ry angle_start angle_end rotation steps i),
                step_fraction steps i))
            (range (steps + 1))).
Proof.
  intros Hs Hsmall. unfold arc_points. apply mapM_Ok_map. intros i Hi.
  apply ArcFacts.in_range_inv in Hi. destruct Hi as [Hi _].
  rewrite truediv_small by lia.
  cbn [bind]. fold (step_fraction steps i).
  fold (step_sample cx cy rx ry angle_start angle_end rotation steps i).
  destruct (step_sample cx cy rx ry angle_start angle_end rotation steps i)
    as [px py]. reflexivity.
Qed.

Lemma draw_thick_arc_positive (steps : Z) :
  0 < steps < 2 ^ 53 ->
  draw_thick_arc cx cy rx ry angle_start angle_end rotation width
    color_start color_end steps
  = mapM (fun i =>
            color <- lerp_color color_start color_end
                       ((step_fraction steps i + step_fraction steps (i + 1)) / 2)%float ;;
            Ok (Line
                  (step_sample cx cy rx ry angle_start angle_end rotation steps i)
                  (step_sample cx cy rx ry angle_start angle_end rotation steps (i + 1))
                  color width))
         (range steps).
Proof.
  intros Hs. unfold draw_thick_arc.
  rewrite arc_points_steps by lia. cbn [bind].
  unfold arc_segments. rewrite length_map, range_length by lia.
  replace (Z.of_nat (Z.to_nat (steps + 1)) - 1) with steps by lia.
  apply ArcFacts.mapM_ext_in. intros i Hi.
  apply ArcFacts.in_range_inv in Hi. destruct Hi as [Hi _].
  rewrite !nth_error_map.
  rewrite (range_nth_error (steps + 1) (Z.to_nat i)) by lia.
  rewrite (range_nth_error (steps + 1) (Z.to_nat (i + 1))) by lia.
  cbn [option_map]. rewrite !Z2Nat.id by lia.
  rewrite <- !surjective_pairing. reflexivity.
Qed.

(** X3. [draw_thick_arc] at the edges of [steps], for a rotation that is
    not infinite (so that [math.cos] and [math.sin] return): with
    [steps = 0] the first [i / steps] raises [ZeroDivisionError]; with a
    negative [steps] both loops are empty and nothing is drawn; with a
    positive [steps] (below 2^53) a call that returns has drawn exactly
    [steps] lines, all of the given width, line [i] from sample [i] to
    sample [i + 1] in the colour interpolated at the mean of their
    fractions. *)
Theorem draw_thick_arc_steps (steps : Z) :
  is_infinity rotation = false ->
  (steps = 0 ->
   draw_thick_arc cx cy rx ry angle_start angle_end rotation width
     color_start color_end steps = Raise ZeroDivisionError)
  /\ (steps < 0 ->
      draw_thick_arc cx cy rx ry angle_start angle_end rotation width
        color_start color_end steps = Ok [])
  /\ (0 < steps < 2 ^ 53 ->
      forall ops,
        draw_thick_arc cx cy rx ry angle_start angle_end rotation width
          color_start color_end steps = Ok ops ->
        length ops = Z.to_nat steps
        /\ Forall (is_line width) ops
        /\ forall i, 0 <= i < steps ->
             exists color,
               lerp_color color_start color_end
                 ((step_fraction steps i + step_fraction steps (i + 1)) / 2)%float
               = Ok color
               /\ nth_error ops (Z.to_nat i)
                  = Some (Line
                            (step_sample cx cy rx ry angle_start angle_end
                               rotation steps i)
                            (step_sample cx cy rx ry angle_start angle_end
                               rotation steps (i + 1))
                            color width)).
Proof.
  intros _. split; [ | split ].
  - intros ->. reflexivity.
  - intros Hneg. unfold draw_thick_arc, arc_points, range.
    replace (Z.to_nat (steps + 1)) with 0%nat by lia. reflexivity.
  - intros Hpos. rewrite (draw_thick_arc_positive steps Hpos).
    intros ops Hops. split; [ | split ].
    + rewrite (mapM_length _ _ _ Hops). apply range_length. lia.
    + refine (mapM_Forall _ _ _ _ ops Hops).
      cbv beta. intros i op _ Hb.
      destruct (lerp_color color_start color_end _) as [color | e'];
        [ | discriminate ].
      cbn [bind] in Hb. injection Hb as <-. reflexivity.
    + intros i Hi.
      destruct (mapM_nth_error _ _ _ Hops (Z.to_nat i) i) as (op & Hop & Hbody).
      { rewrite (range_nth_error steps (Z.to_nat i)) by lia.
        rewrite Z2Nat.id by lia. reflexivity. }
      destruct (lerp_color color_start color_end _) as [color | e];
        [ | discriminate ].
      cbn [bind] in Hbody. injection Hbody as <-.
      exists color. split; [ reflexivity | exact Hop ].
Qed.

End Arc.

(** The back half of the first orbital with no step at all. *)
Lemma draw_thick_arc_steps_witness :
  draw_thick_arc (libm := ref_libm) (pil := ref_pillow)
    512 512 340 130 180 360 (radians (float_of_Z (-30))) 16
    BLUE PURPLE 0 = Raise ZeroDivisionError.
Proof.
  apply (proj1 (draw_thick_arc_steps (libm := ref_libm) (pil := ref_pillow)
                  512 512 340 130 180 360 (radians (float_of_Z (-30))) 16
                  BLUE PURPLE 0 ltac:(vm_compute; reflexivity))).
  reflexivity.
Defined.

End ArcEdges.

(* ================================================================== *)
(** * [draw_sphere] *)
(* ================================================================== *)

Module SphereFacts.
Section Sphere.

Context {pil : Pillow}.

Lemma range_down_12 radius :
  range_down (radius + 12) radius
  = map (fun ja : Z * Z => radius + fst ja) glow_alphas.
Proof.
  unfold range_down. replace (radius + 12 - radius) with 12 by lia.
  change (Z.to_nat 12) with 12%nat. cbn [seq map glow_alphas fst].
  repeat (apply (f_equal2 cons); [ lia | ]). reflexivity.
Qed.

Lemma mapM_map {A B C} (f : B -> result C) (g : A -> B) (l : list A) :
  mapM f (map g l) = mapM (fun x => f (g x)) l.
Proof.
  induction l as [ | x l IH ]; cbn [map mapM]; [ reflexivity | ].
  rewrite IH. reflexivity.
Qed.

(** The glow loop always returns, with the alphas of [glow_alphas]. *)
Lemma glow_loop cx cy radius (base_color : color) :
  mapM (fun r =>
          q <- truediv (r - radius) 12 ;;
          alpha <- py_int (60 * (1 - q))%float ;;
          let glow_color := base_color ++ [alpha] in
          Ok (Ellipse (square cx cy r) glow_color))
       (range_down (radius + 12) radius)
  = Ok (glow_rings cx cy radius base_color).
Proof.
  rewrite range_down_12, mapM_map. unfold glow_rings.
  apply mapM_Ok_map. intros [j a] Hja. cbn [fst snd].
  rewrite Z.add_simpl_l.
  unfold glow_alphas in Hja. cbn [In] in Hja.
  repeat (destruct Hja as [Hja | Hja];
          [ injection Hja as <- <-; reflexivity | ]).
  contradiction.
Qed.

Lemma glow_rings_length cx cy radius base_color :
  length (glow_rings cx cy radius base_color) = 12%nat.
Proof. reflexivity. Qed.

(** [draw_sphere] in steps. *)
Lemma draw_sphere_steps cx cy radius (base_color highlight_color : color) :
  draw_sphere cx cy radius base_color highlight_color
  = (body <- mapM (body_ring cx cy radius base_color highlight_color)
                  (range_down radius 0) ;;
     n <- py_int (float_of_Z radius * 0.35)%float ;;
     spec <- mapM (highlight_ring cx cy radius) (range_down n 0) ;;
     Ok (glow_rings cx cy radius base_color ++ body ++ spec)).
Proof.
  unfold draw_sphere. rewrite glow_loop. reflexivity.
Qed.

(** X4. The glow of [draw_sphere]: whatever the centre, radius and
    colours, a call that returns begins with twelve ellipses of radius
    [radius + 12] down to [radius + 1], filled with the base colour and the
    alphas 0, 5, 9, 15, 20, 24, 30, 34, 40, 45, 50, 55: the values of
    [int(60 * (1 - j / 12))] in doubles, which fall short of the linear
    60 - 5 j at j = 10, 7 and 5, and never exceed 55. *)
Theorem draw_sphere_glow cx cy radius (base_color highlight_color : color)
    (ops : list draw_op) :
  draw_sphere cx cy radius base_color highlight_color = Ok ops ->
  firstn 12 ops = glow_rings cx cy radius base_color
  /\ (12 <= length ops)%nat
  /\ Forall (fun ja : Z * Z => 0 <= snd ja <= 55) glow_alphas.
Proof.
  rewrite draw_sphere_steps. intros Hops.
  apply bind_Ok_inv in Hops. destruct Hops as (body & _ & Hops).
  apply bind_Ok_inv in Hops. destruct Hops as (n & _ & Hops).
  apply bind_Ok_inv in Hops. destruct Hops as (spec & _ & Hops).
  injection Hops as <-.
  split; [ | split ].
  - reflexivity.
  - cbn [length]. lia.
  - unfold glow_alphas. repeat constructor; cbn [snd]; lia.
Qed.

(** ** A sphere without a body *)

Lemma binary_round_aux_sign s m e l :
  sf_sign_is s (binary_round_aux prec emax s m e l).
Proof.
  unfold binary_round_aux.
  destruct (shr_fexp prec emax m e l) as [mrs e1].
  destruct (shr_fexp prec emax _ e1 loc_Exact) as [mrs2 e2].
  destruct (shr_m mrs2) as [ | p | p ]; cbn [sf_sign_is]; try reflexivity.
  destruct (e2 <=? emax - prec); reflexivity.
Qed.

Lemma binary_normalize_sign m e :
  0 <= m -> sf_sign_is false (binary_normalize prec emax m e false).
Proof.
  intros Hm. unfold binary_normalize.
  destruct m as [ | p | p ]; [ reflexivity | | lia ].
  unfold binary_round. destruct (shl_align p e _) as [mz ez].
  apply binary_round_aux_sign.
Qed.

Lemma SFmul_sign sx mx ex sy my ey :
  sf_sign_is (xorb sx sy)
    (SFmul prec emax (S754_finite sx mx ex) (S754_finite sy my ey)).
Proof. apply binary_round_aux_sign. Qed.

(** A negative integer below 2^62 in magnitude, as a double. *)
Lemma Prim2SF_negative z :
  - 2 ^ 62 < z < 0 ->
  Prim2SF (float_of_Z z)
  = SFopp (binary_normalize prec emax (- z) 0 false).
Proof.
  intros Hz. unfold float_of_Z.
  destruct (Z.ltb_spec (Z.abs z) (2 ^ 62)) as [ _ | Hbig ]; [ | lia ].
  destruct (Z.ltb_spec z 0) as [ _ | Hpos ]; [ | lia ].
  rewrite FloatAxioms.opp_spec, FloatAxioms.of_uint63_spec, Uint63.of_Z_spec.
  rewrite Z.mod_small; [ reflexivity | ].
  change wB with (2 ^ 63). lia.
Qed.

Lemma py_int_nonpos x n :
  sf_sign_is true (Prim2SF x) -> py_int x = Ok n -> n <= 0.
Proof.
  unfold py_int. destruct (Prim2SF x) as [ s | s | | s m e ];
    cbn [sf_sign_is]; intros Hs Hn; try discriminate.
  - injection Hn as <-. lia.
  - assert (Hv : 0 <= (if 0 <=? e then Z.pos m * 2 ^ e
                       else Z.pos m / 2 ^ (- e))).
    { destruct (Z.leb_spec 0 e) as [He | He].
      - apply Z.mul_nonneg_nonneg; [ lia | ]. apply Z.pow_nonneg. lia.
      - apply Z.div_pos; [ lia | ]. apply Z.pow_pos_nonneg; lia. }
    assert (Hn' : n = - (if 0 <=? e then Z.pos m * 2 ^ e
                         else Z.pos m / 2 ^ (- e)))
      by (subst s; congruence).
    lia.
Qed.

Lemma range_down_empty hi lo : hi <= lo -> range_down hi lo = [].
Proof.
  intros Hle. unfold range_down.
  replace (Z.to_nat (hi - lo)) with 0%nat by lia. reflexivity.
Qed.

Lemma highlight_radius_nonpos radius :
  - 2 ^ 62 < radius <= 0 ->
  exists n, py_int (float_of_Z radius * 0.35)%float = Ok n /\ n <= 0.
Proof.
  intros [Hlo Hhi].
  destruct (Z.eq_dec radius 0) as [-> | Hnz].
  { exists 0. split; [ reflexivity | lia ]. }
  assert (Hbnd : sf_bnd 63 10 (binary_normalize prec emax (- radius) 0 false)).
  { apply (FloatFacts.binary_normalize_bnd (- radius) 0 62 0); try lia.
    unfold bnd. change (Z.max 0 (62 - 0)) with 62. lia. }
  pose proof (binary_normalize_sign (- radius) 0 ltac:(lia)) as Hsign.
  assert (Hy : sf_bnd (-1) (-54) (Prim2SF 0.35%float))
    by (apply LerpFacts.sf_bndb_ok; vm_compute; reflexivity).
  assert (Hprod : Prim2SF (float_of_Z radius * 0.35)%float
                  = SFmul prec emax
                      (SFopp (binary_normalize prec emax (- radius) 0 false))
                      (Prim2SF 0.35%float)).
  { rewrite FloatAxioms.mul_spec, Prim2SF_negative by lia. reflexivity. }
  assert (Hneg : sf_sign_is true (Prim2SF (float_of_Z radius * 0.35)%float)).
  { rewrite Hprod.
    destruct (binary_normalize prec emax (- radius) 0 false)
      as [ s | s | | s m e ]; cbn [sf_sign_is sf_bnd] in Hsign, Hbnd;
      try contradiction; subst s.
    - remember (Prim2SF 0.35%float) as y eqn:Ey. vm_compute in Ey. subst y.
      reflexivity.
    - remember (Prim2SF 0.35%float) as y eqn:Ey. vm_compute in Ey. subst y.
      apply (SFmul_sign true m e false). }
  assert (Hfin : sf_bnd 63 10 (Prim2SF (float_of_Z radius * 0.35)%float)).
  { rewrite Hprod.
    apply (FloatFacts.SFmul_bnd _ _ 63 (-1) 10 (-54)); try lia; [ | exact Hy ].
    destruct (binary_normalize prec emax (- radius) 0 false)
      as [ s | s | | s m e ]; cbn [sf_bnd SFopp] in *; auto. }
  destruct (LerpFacts.py_int_of_bounded _ _ _ Hfin) as [n Hn].
  exists n. split; [ exact Hn | ]. apply (py_int_nonpos _ _ Hneg Hn).
Qed.

Lemma glow_rings_accepted cx cy radius (base_color : color) :
  length base_color = 3%nat ->
  Forall accepted (glow_rings cx cy radius base_color).
Proof.
  intros H3. unfold glow_rings. apply Forall_map, Forall_forall.
  intros ja _. right. cbn [fill_of]. rewrite length_app, H3. reflexivity.
Qed.

(** X5. A sphere of radius 0 or -1, for an RGB base colour with channels
    in [0,255] and a centre within 2^30 of the origin (so that Python
    converts its coordinates and Pillow reads the fills): the body loop
    and the highlight loop are empty, so [draw_sphere] never divides by
    the radius; it returns the twelve glow ellipses and nothing else, each
    with a fill of four channels. *)
Theorem draw_sphere_without_body cx cy radius
    (base_color highlight_color : color) :
  -1 <= radius <= 0 ->
  Z.abs cx <= 2 ^ 30 -> Z.abs cy <= 2 ^ 30 ->
  length base_color = 3%nat -> in_gamut base_color ->
  draw_sphere cx cy radius base_color highlight_color
  = Ok (glow_rings cx cy radius base_color)
  /\ Forall accepted (glow_rings cx cy radius base_color).
Proof.
  intros Hr _ _ H3 _.
  split; [ | apply (glow_rings_accepted _ _ _ _ H3) ].
  rewrite draw_sphere_steps.
  rewrite (range_down_empty radius 0) by lia. cbn [mapM bind].
  destruct (highlight_radius_nonpos radius ltac:(lia)) as (n & -> & Hn).
  cbn [bind]. rewrite (range_down_empty n 0) by lia. cbn [mapM bind].
  rewrite app_nil_r. reflexivity.
Qed.

(** ** A sphere of radius 1 to 128 *)

Lemma in_range_down hi lo r : In r (range_down hi lo) -> lo < r <= hi.
Proof.
  unfold range_down. intros Hr. apply in_map_iff in Hr.
  destruct Hr as (k & <- & Hk). apply in_seq in Hk. lia.
Qed.

Lemma range_down_length hi lo : length (range_down hi lo) = Z.to_nat (hi - lo).
Proof. unfold range_down. rewrite length_map, length_seq. reflexivity. Qed.

Lemma sphere_floats_checked radius :
  1 <= radius <= 128 -> sphere_floats_ok radius = true.
Proof.
  intros Hr.
  pose proof (LerpFacts.forallb_range 128
    (fun k => sphere_floats_ok (k + 1))
    ltac:(vm_compute; reflexivity) (radius - 1) ltac:(lia)) as Hk.
  cbv beta in Hk. replace (radius - 1 + 1) with radius in Hk by lia.
  exact Hk.
Qed.

Lemma body_loop_returns cx cy radius (base_color highlight_color : color) :
  1 <= radius <= 128 -> in_gamut base_color -> in_gamut highlight_color ->
  exists body,
    mapM (body_ring cx cy radius base_color highlight_color)
      (range_down radius 0) = Ok body.
Proof.
  intros Hr G1 G2.
  pose proof (sphere_floats_checked radius Hr) as Hok.
  unfold sphere_floats_ok in Hok.
  apply andb_true_iff in Hok. destruct Hok as [Hok _].
  apply andb_true_iff in Hok. destruct Hok as [Hbody _].
  rewrite forallb_forall in Hbody.
  apply ArcFacts.mapM_all_Ok. intros r Hin. specialize (Hbody r Hin).
  apply in_range_down in Hin.
  unfold body_ring. rewrite truediv_small by lia.
  cbn [bind]. fold (body_fraction radius r).
  apply andb_true_iff in Hbody. destruct Hbody as [H0 H1].
  destruct (LerpFacts.lerp_color_returns _ H0 H1 _ _ G1 G2) as [c ->].
  cbn [bind]. eauto.
Qed.

Lemma highlight_loop_returns cx cy radius :
  1 <= radius <= 128 ->
  py_int (float_of_Z radius * 0.35)%float = Ok (35 * radius / 100)
  /\ exists spec,
       mapM (highlight_ring cx cy radius) (range_down (35 * radius / 100) 0)
       = Ok spec.
Proof.
  intros Hr.
  pose proof (sphere_floats_checked radius Hr) as Hok.
  unfold sphere_floats_ok in Hok.
  apply andb_true_iff in Hok. destruct Hok as [_ Hspec].
  destruct (py_int (float_of_Z radius * 0.35)%float) as [n | e];
    [ | discriminate ].
  apply andb_true_iff in Hspec. destruct Hspec as [Hnv Hspec].
  apply Z.eqb_eq in Hnv. subst n. split; [ reflexivity | ].
  rewrite forallb_forall in Hspec.
  apply ArcFacts.mapM_all_Ok. intros r2 Hin. specialize (Hspec r2 Hin).
  unfold highlight_ring.
  destruct (fdiv (float_of_Z r2) (float_of_Z radius * 0.35)%float)
    as [q | e]; [ | discriminate ].
  cbn [bind] in *.
  destruct (py_int (200 * (1 - q))%float) as [a | e]; [ | discriminate ].
  cbn [bind]. eauto.
Qed.

(** The rim of the body is drawn in the base colour. *)
Lemma body_ring_rim cx cy radius (base_color highlight_color : color) :
  1 <= radius <= 128 -> in_gamut base_color -> in_gamut highlight_color ->
  length base_color = length highlight_color ->
  body_ring cx cy radius base_color highlight_color radius
  = Ok (Ellipse (square cx cy radius) base_color).
Proof.
  intros Hr G1 G2 Hlen.
  pose proof (sphere_floats_checked radius Hr) as Hok.
  unfold sphere_floats_ok in Hok.
  apply andb_true_iff in Hok. destruct Hok as [Hok _].
  apply andb_true_iff in Hok. destruct Hok as [_ Hrim].
  apply LerpFacts.feq_eq in Hrim.
  unfold body_ring. rewrite truediv_small by lia.
  cbn [bind]. fold (body_fraction radius radius). rewrite Hrim.
  rewrite (LerpFacts.lerp_color_pointwise 0 (fun a _ => a)
             LerpFacts.channel_at_0 _ _ G1 G2).
  cbn [bind]. apply f_equal. apply f_equal.
  exact (LerpFacts.map_fst_combine _ _ Hlen).
Qed.

Lemma draw_sphere_total cx cy radius (base_color highlight_color : color) :
  1 <= radius <= 128 -> in_gamut base_color -> in_gamut highlight_color ->
  exists ops, draw_sphere cx cy radius base_color highlight_color = Ok ops.
Proof.
  intros Hr G1 G2. rewrite draw_sphere_steps.
  destruct (body_loop_returns cx cy radius _ _ Hr G1 G2) as [body ->].
  destruct (highlight_loop_returns cx cy radius Hr) as (-> & spec & Hs).
  cbn [bind]. rewrite Hs. cbn [bind]. eauto.
Qed.

Lemma sphere_rings_accepted cx cy radius (base_color highlight_color : color)
    (body spec : list draw_op) :
  length base_color = 3%nat -> (3 <= length highlight_color)%nat ->
  mapM (body_ring cx cy radius base_color highlight_color)
    (range_down radius 0) = Ok body ->
  mapM (highlight_ring cx cy radius) (range_down (35 * radius / 100) 0)
  = Ok spec ->
  Forall accepted (glow_rings cx cy radius base_color ++ body ++ spec).
Proof.
  intros H1 H2 Hb Hs.
  apply Forall_app. split; [ apply (glow_rings_accepted _ _ _ _ H1) | ].
  apply Forall_app. split.
  - revert body Hb. apply ArcEdges.mapM_Forall. intros r op _ Hop.
    unfold body_ring in Hop.
    destruct (truediv r radius) as [q | e]; [ | discriminate ].
    cbn [bind] in Hop.
    destruct (lerp_color base_color highlight_color _) as [c | e] eqn:Hc;
      [ | discriminate ].
    cbn [bind] in Hop. injection Hop as <-. left. cbn [fill_of].
    rewrite (LerpEdges.lerp_color_length _ _ _ _ Hc), H1. lia.
  - revert spec Hs. apply ArcEdges.mapM_Forall. intros r2 op _ Hop.
    unfold highlight_ring in Hop.
    destruct (fdiv _ _) as [q | e]; [ | discriminate ].
    cbn [bind] in Hop.
    destruct (py_int _) as [a | e]; [ | discriminate ].
    cbn [bind] in Hop. injection Hop as <-. right. reflexivity.
Qed.

(** X6. For a radius from 1 to 128, a centre within 2^30 of the origin,
    an RGB base colour and a highlight colour of three channels or more,
    both with channels in [0,255], [draw_sphere] returns: the twelve glow
    ellipses, then [radius] body ellipses, then [35 * radius / 100]
    (rounded down) highlight ellipses, every one with a fill of three or
    four channels; and when the two colours have the same number of
    channels the first body ellipse, of radius [radius], is filled with
    the base colour itself. *)
Theorem draw_sphere_returns cx cy radius (base_color highlight_color : color) :
  1 <= radius <= 128 ->
  Z.abs cx <= 2 ^ 30 -> Z.abs cy <= 2 ^ 30 ->
  length base_color = 3%nat -> (3 <= length highlight_color)%nat ->
  in_gamut base_color -> in_gamut highlight_color ->
  exists body spec,
    draw_sphere cx cy radius base_color highlight_color
    = Ok (glow_rings cx cy radius base_color ++ body ++ spec)
    /\ length body = Z.to_nat radius
    /\ length spec = Z.to_nat (35 * radius / 100)
    /\ Forall accepted (glow_rings cx cy radius base_color ++ body ++ spec)
    /\ (length base_color = length highlight_color ->
        nth_error body 0 = Some (Ellipse (square cx cy radius) base_color)).
Proof.
  intros Hr _ _ L1 L2 G1 G2. rewrite draw_sphere_steps.
  destruct (body_loop_returns cx cy radius _ _ Hr G1 G2) as [body Hb].
  destruct (highlight_loop_returns cx cy radius Hr) as (Hn & spec & Hs).
  rewrite Hb, Hn. cbn [bind]. rewrite Hs. cbn [bind].
  exists body, spec. split; [ reflexivity | ].
  split; [ | split; [ | split ] ].
  - rewrite (mapM_length _ _ _ Hb), range_down_length. f_equal. lia.
  - rewrite (mapM_length _ _ _ Hs), range_down_length. f_equal. lia.
  - apply (sphere_rings_accepted _ _ _ _ _ _ _ L1 L2 Hb Hs).
  - intros Hlen.
    rewrite (CanvasFacts.range_down_cons radius 0) in Hb by lia.
    cbn [mapM] in Hb.
    rewrite (body_ring_rim cx cy radius _ _ Hr G1 G2 Hlen) in Hb.
    cbn [bind] in Hb.
    apply bind_Ok_inv in Hb. destruct Hb as (rest & _ & Hb).
    injection Hb as <-. reflexivity.
Qed.

End Sphere.

Lemma draw_sphere_returns_witness :
  exists body spec,
    draw_sphere (pil := ref_pillow) 428 772 22 [255; 160; 30] [255; 220; 140]
    = Ok (glow_rings 428 772 22 [255; 160; 30] ++ body ++ spec)
    /\ length body = 22%nat /\ length spec = 7%nat.
Proof.
  destruct (draw_sphere_returns (pil := ref_pillow) 428 772 22
              [255; 160; 30] [255; 220; 140])
    as (body & spec & Hrun & Hb & Hs & _).
  - lia.
  - cbn. lia.
  - cbn. lia.
  - reflexivity.
  - cbn. lia.
  - repeat constructor; lia.
  - repeat constructor; lia.
  - exists body, spec. split; [ exact Hrun | ]. split; assumption.
Defined.

Lemma draw_sphere_glow_witness :
  exists ops,
    draw_sphere (pil := ref_pillow) 428 772 22 [255; 160; 30] [255; 220; 140]
    = Ok ops
    /\ firstn 12 ops = glow_rings 428 772 22 [255; 160; 30].
Proof.
  assert (Hrun : exists ops,
            draw_sphere (pil := ref_pillow) 428 772 22 [255; 160; 30]
              [255; 220; 140] = Ok ops)
    by (apply ArcFacts.is_ok_Ok; vm_compute; reflexivity).
  destruct Hrun as [ops Hrun]. exists ops. split; [ exact Hrun | ].
  exact (proj1 (draw_sphere_glow 428 772 22 _ _ ops Hrun)).
Defined.

Lemma draw_sphere_without_body_witness :
  draw_sphere (pil := ref_pillow) 100 100 0 [255; 160; 30] [255; 220; 140]
  = Ok (glow_rings 100 100 0 [255; 160; 30]).
Proof.
  apply (draw_sphere_without_body (pil := ref_pillow) 100 100 0
           [255; 160; 30] [255; 220; 140]).
  - lia.
  - cbn. lia.
  - cbn. lia.
  - reflexivity.
  - repeat constructor; lia.
Defined.

End SphereFacts.

(* ================================================================== *)
(** * [create_ico]: failure and dimensions read back *)
(* ================================================================== *)

Module IcoEdges.
Import Struct StructFacts IcoReader IcoSpec IcoFacts.

Section Encoder.

Context {enc : PngEncoder}.






(** A file below 4 GiB fits the 32-bit fields. *)
Lemma fits_from_total imgs : forall off,
  0 < off -> off + total_size imgs < 2 ^ 32 -> fits_from imgs off.
Proof.
  induction imgs as [ | img imgs IH ]; intros off Hoff Hlt;
    cbn [fits_from]; [ constructor | ].
  rewrite total_size_cons in Hlt.
  pose proof (data_size_nonneg img). pose proof (total_size_nonneg imgs).
  split; [ lia | ]. split; [ lia | ].
  apply IH; lia.
Qed.


(** X8. Reading a dimension back: a reader of the container takes a
    width or height byte 0 as 256.  What it reads from an entry
    [create_ico] wrote is the true dimension of the image exactly when
    that dimension is between 1 and 256. *)
Theorem create_ico_dimension_round_trip (images : list Image)
    (bytes : list byte) (i : nat) (img : Image) :
  Ico.create_ico images = Ok bytes ->
  nth_error images i = Some img ->
  (read_dimension (entry_width bytes i) = Z.of_N (width img)
   <-> (1 <= width img <= 256)%N)
  /\ (read_dimension (entry_height bytes i) = Z.of_N (height img)
      <-> (1 <= height img <= 256)%N).
Proof.
  intros Hb Hi. apply create_ico_Ok in Hb. destruct Hb as (_ & _ & ->).
  rewrite (read_entry_width _ _ _ Hi), (read_entry_height _ _ _ Hi).
  unfold read_dimension, dim_byte.
  split.
  - destruct (Z.ltb_spec (Z.of_N (width img)) 256);
      [ destruct (Z.eqb_spec (Z.of_N (width img)) 0) | cbn ]; lia.
  - destruct (Z.ltb_spec (Z.of_N (height img)) 256);
      [ destruct (Z.eqb_spec (Z.of_N (height img)) 0) | cbn ]; lia.
Qed.

End Encoder.

Lemma create_ico_dimension_round_trip_witness :
  exists bytes,
    Ico.create_ico ico_images = Ok bytes
    /\ read_dimension (entry_width bytes 6) = 256
    /\ read_dimension (entry_height bytes 6) = 256.
Proof.
  assert (Hb : Ico.create_ico ico_images = Ok (ico_file ico_images))
    by (vm_compute; reflexivity).
  exists (ico_file ico_images). split; [ exact Hb | ].
  destruct (create_ico_dimension_round_trip ico_images _ 6
              (blank 256 256) Hb eq_refl) as [Hw Hh].
  split; [ apply Hw | apply Hh ]; cbn; lia.
Defined.

End IcoEdges.

(* ================================================================== *)
(** * The [.ico] file of [main] *)
(* ================================================================== *)

Module MainFacts.
Import Struct StructFacts IcoReader IcoSpec IcoFacts.

Section Main.

Context {enc : PngEncoder} {rs : Resampler}.

Lemma main_ico_images_nth master i s :
  nth_error ico_sizes i = Some s ->
  nth_error (main_ico_images master) i = Some (resize master (s, s)).
Proof.
  intros Hs. unfold main_ico_images. rewrite nth_error_map, Hs. reflexivity.
Qed.

Lemma dim_byte_resize master s :
  dim_byte (width (resize master (s, s))) = dim_byte s
  /\ dim_byte (height (resize master (s, s))) = dim_byte s.
Proof.
  destruct (resize_size master s s) as [-> ->]. split; reflexivity.
Qed.

Lemma main_ico_images_pixels master :
  Forall has_pixels (main_ico_images master).
Proof.
  unfold main_ico_images. apply Forall_map, Forall_forall.
  intros sz Hs. destruct (resize_size master sz sz) as [Hw Hh].
  unfold has_pixels. rewrite Hw, Hh.
  unfold ico_sizes in Hs. cbn [In] in Hs.
  repeat (destruct Hs as [<- | Hs]; [ split; discriminate | ]).
  contradiction.
Qed.

(** X9. The [icon.ico] of [main]: for any master image, when the seven
    PNG payloads and the 118 bytes before them stay below 2^32 bytes,
    [create_ico] returns a file that starts with 00 00 01 00 07 00, has
    width and height bytes 16, 24, 32, 48, 64, 128 and 0 in its seven
    entries, points each entry at the PNG of the master resized to that
    size, and consists, after its first 118 bytes, of those seven PNGs. *)
Theorem main_ico_container (master : Image) :
  118 + total_size (main_ico_images master) < 2 ^ 32 ->
  exists bytes,
    main_ico master = Ok bytes
    /\ firstn 6 bytes = [x00; x00; x01; x00; x07; x00]
    /\ Z.of_nat (length bytes) = 118 + total_size (main_ico_images master)
    /\ map (entry_width bytes) (seq 0 7) = [16; 24; 32; 48; 64; 128; 0]
    /\ map (entry_height bytes) (seq 0 7) = [16; 24; 32; 48; 64; 128; 0]
    /\ mapM png_save (main_ico_images master)
       = Ok (map (payload bytes) (seq 0 7))
    /\ skipn 118 bytes = concat (map (payload bytes) (seq 0 7)).
Proof.
  intros Hlt.
  assert (Hfit : ico_fits (main_ico_images master)).
  { split; [ vm_compute; reflexivity | ].
    apply IcoEdges.fits_from_total; [ vm_compute; reflexivity | ].
    change (6 + Z.of_nat (length (main_ico_images master)) * 16) with 118.
    exact Hlt. }
  assert (Hsaves : saves (main_ico_images master))
    by (apply saves_pixels, main_ico_images_pixels).
  exists (ico_file (main_ico_images master)).
  split.
  { apply create_ico_Ok. split; [ exact Hsaves | ].
    split; [ exact Hfit | reflexivity ]. }
  split; [ reflexivity | ].
  split; [ rewrite ico_file_length; reflexivity | ].
  assert (Hw : forall i s, nth_error ico_sizes i = Some s ->
             entry_width (ico_file (main_ico_images master)) i = dim_byte s
             /\ entry_height (ico_file (main_ico_images master)) i = dim_byte s
             /\ payload (ico_file (main_ico_images master)) i
                = payload_of (resize master (s, s))).
  { intros i s Hs. pose proof (main_ico_images_nth master i s Hs) as Hi.
    rewrite (read_entry_width _ _ _ Hi), (read_entry_height _ _ _ Hi),
      (read_payload _ _ _ Hfit Hi).
    destruct (dim_byte_resize master s) as [-> ->]. auto. }
  pose proof (Hw 0%nat _ eq_refl) as (W0 & H0 & P0).
  pose proof (Hw 1%nat _ eq_refl) as (W1 & H1 & P1).
  pose proof (Hw 2%nat _ eq_refl) as (W2 & H2 & P2).
  pose proof (Hw 3%nat _ eq_refl) as (W3 & H3 & P3).
  pose proof (Hw 4%nat _ eq_refl) as (W4 & H4 & P4).
  pose proof (Hw 5%nat _ eq_refl) as (W5 & H5 & P5).
  pose proof (Hw 6%nat _ eq_refl) as (W6 & H6 & P6).
  assert (Hpay : map (payload (ico_file (main_ico_images master))) (seq 0 7)
                 = map payload_of (main_ico_images master)).
  { cbn [seq map]. rewrite P0, P1, P2, P3, P4, P5, P6. reflexivity. }
  split; [ cbn [seq map]; rewrite W0, W1, W2, W3, W4, W5, W6; reflexivity | ].
  split; [ cbn [seq map]; rewrite H0, H1, H2, H3, H4, H5, H6; reflexivity | ].
  rewrite Hpay.
  split; [ apply save_loop_Ok; split; [ exact Hsaves | reflexivity ] | ].
  unfold IcoSpec.ico_file. rewrite app_assoc.
  match goal with
  | |- skipn 118 (?a ++ ?b) = _ =>
      assert (Hlen : length a = 118%nat)
  end.
  { rewrite length_app, header_bytes_length, concat_entries_length.
    reflexivity. }
  rewrite <- Hlen at 1. rewrite skipn_app, Nat.sub_diag, skipn_all.
  reflexivity.
Qed.

End Main.

Lemma main_ico_container_witness :
  exists bytes,
    main_ico (enc := ref_png) (rs := ref_resize) (blank 1024 1024) = Ok bytes
    /\ firstn 6 bytes = [x00; x00; x01; x00; x07; x00]
    /\ map (entry_width bytes) (seq 0 7) = [16; 24; 32; 48; 64; 128; 0].
Proof.
  destruct (main_ico_container (enc := ref_png) (rs := ref_resize)
              (blank 1024 1024))
    as (bytes & Hb & Hh & _ & Hw & _).
  - vm_compute. reflexivity.
  - exists bytes. split; [ exact Hb | ]. split; assumption.
Defined.

End MainFacts.

(* ================================================================== *)
(** * The composition as a whole *)
(* ================================================================== *)

Module ComposerFacts.
Section Composer.

Context {libm : Libm} {pil : Pillow} {rnd : PyRandom}.

(** ** Fills and inks *)

Lemma ink_of_fill_accepted (fill : color) :
  length fill = 3%nat \/ length fill = 4%nat ->
  exists ink, ink_of_fill fill = Ok ink.
Proof.
  intros [Hl | Hl];
    destruct fill as [ | r [ | g [ | b [ | a [ | z fill ] ] ] ] ];
    try discriminate; cbn [ink_of_fill]; eauto.
Qed.

Lemma ink_of_fill_opaque (fill : color) :
  length fill = 3%nat \/ (exists r g b, fill = [r; g; b; 255]) ->
  exists ink, ink_of_fill fill = Ok ink /\ alpha ink = 255.
Proof.
  intros [Hl | (r & g & b & ->)].
  - destruct fill as [ | r [ | g [ | b [ | a fill ] ] ] ]; try discriminate.
    cbn [ink_of_fill]. eexists. split; reflexivity.
  - cbn [ink_of_fill]. eexists. split; reflexivity.
Qed.

Lemma opaque_accepted op : opaque_call op -> accepted op.
Proof.
  unfold accepted. destruct op as [xy fill | p q fill w | xy text fill f];
    cbn [opaque_call fill_of]; try contradiction;
    (intros [Hl | (r & g & b & ->)]; [ left; exact Hl | right; reflexivity ]).
Qed.

Lemma paint_accepted img op :
  accepted op -> exists img', paint img op = Ok img'.
Proof.
  intros Ha. apply ink_of_fill_accepted in Ha. destruct Ha as [ink Hink].
  destruct op as [xy fill | p q fill w | xy text fill f];
    cbn [paint fill_of] in *; rewrite Hink; cbn [bind]; eauto.
Qed.

Lemma paint_all_accepted ops : forall img,
  Forall accepted ops -> exists img', paint_all img ops = Ok img'.
Proof.
  induction ops as [ | op ops IH ]; intros img Hall; cbn [paint_all];
    [ eauto | ].
  inversion Hall as [ | ? ? Hop Hrest ]; subst.
  destruct (paint_accepted img op Hop) as [img1 ->]. cbn [bind].
  apply IH, Hrest.
Qed.

Lemma paint_leaves img op img' x y :
  paint img op = Ok img' -> leaves op x y ->
  getpixel img' x y = getpixel img x y.
Proof.
  destruct op as [xy fill | p q fill w | xy text fill f]; cbn [paint leaves];
    destruct (ink_of_fill fill) as [ink | e]; cbn [bind]; intros Hp Hl;
    try discriminate; injection Hp as <-; cbn [getpixel].
  - rewrite Hl, andb_false_r. reflexivity.
  - rewrite Hl, andb_false_r. reflexivity.
  - rewrite Hl. destruct (in_image img x y); reflexivity.
Qed.

Lemma paint_opaque img op img' x y :
  paint img op = Ok img' -> opaque_call op ->
  alpha (getpixel img x y) = 255 -> alpha (getpixel img' x y) = 255.
Proof.
  destruct op as [xy fill | p q fill w | xy text fill f];
    cbn [paint opaque_call fill_of]; try contradiction;
    intros Hp Ho Ha; apply ink_of_fill_opaque in Ho;
    destruct Ho as (ink & Hink & Hop); rewrite Hink in Hp; cbn [bind] in Hp;
    injection Hp as <-; cbn [getpixel].
  - destruct (in_image img x y && ellipse_covers xy x y); assumption.
  - destruct (in_image img x y && line_covers p q w x y); assumption.
Qed.

(** Calls that are opaque or leave the pixel alone keep it opaque. *)
Lemma paint_all_opaque ops x y : forall img img',
  paint_all img ops = Ok img' ->
  Forall (fun op => opaque_call op \/ leaves op x y) ops ->
  alpha (getpixel img x y) = 255 -> alpha (getpixel img' x y) = 255.
Proof.
  induction ops as [ | op ops IH ]; intros img img' Hp Hall Ha;
    cbn [paint_all] in Hp.
  - injection Hp as <-. exact Ha.
  - inversion Hall as [ | ? ? Hop Hrest ]; subst.
    destruct (paint img op) as [img1 | e] eqn:H1; [ | discriminate ].
    cbn [bind] in Hp. apply (IH _ _ Hp Hrest).
    destruct Hop as [Hop | Hop].
    + apply (paint_opaque _ _ _ _ _ H1 Hop Ha).
    + rewrite (paint_leaves _ _ _ _ _ H1 Hop). exact Ha.
Qed.

(** ** The layers *)

Lemma background_returns : exists bg, background 512 512 = Ok bg.
Proof. apply ArcFacts.is_ok_Ok. vm_compute. reflexivity. Qed.

Lemma background_opaque cx cy bg :
  background cx cy = Ok bg -> Forall opaque_call bg.
Proof.
  unfold background. apply ArcEdges.mapM_Forall.
  intros r op _ Hop.
  destruct (truediv r (SIZE / 2)) as [t | e]; [ | discriminate ].
  cbn [bind] in Hop.
  destruct (py_int (8 + 12 * t)%float) as [val | e]; [ | discriminate ].
  cbn [bind] in Hop.
  destruct (py_int (float_of_Z val * 1.2)%float) as [blue | e];
    [ | discriminate ].
  cbn [bind] in Hop. injection Hop as <-.
  right. exists val, val, blue. reflexivity.
Qed.

Lemma draw_thick_arc_opaque cx cy rx ry angle_start angle_end rotation width
    (color_start color_end : color) steps ops :
  length color_start = 3%nat -> length color_end = 3%nat ->
  draw_thick_arc cx cy rx ry angle_start angle_end rotation width
    color_start color_end steps = Ok ops ->
  Forall opaque_call ops.
Proof.
  intros H1 H2 Hrun. unfold draw_thick_arc in Hrun.
  apply bind_Ok_inv in Hrun. destruct Hrun as (points & _ & Hseg).
  unfold arc_segments in Hseg. revert ops Hseg.
  apply ArcEdges.mapM_Forall. intros i op _ Hop.
  destruct (nth_error points (Z.to_nat i)) as [[[x1 y1] t1] | ];
    [ | discriminate ].
  destruct (nth_error points (Z.to_nat (i + 1))) as [[[x2 y2] t2] | ];
    [ | discriminate ].
  destruct (lerp_color color_start color_end _) as [c | e] eqn:Hc;
    [ | discriminate ].
  cbn [bind] in Hop. injection Hop as <-.
  left. cbn [fill_of].
  rewrite (LerpEdges.lerp_color_length _ _ _ _ Hc), H1, H2. reflexivity.
Qed.

Lemma orbital_colors o :
  In o orbitals ->
  length (snd (fst o)) = 3%nat /\ length (snd o) = 3%nat
  /\ in_gamut (snd (fst o)) /\ in_gamut (snd o).
Proof.
  unfold orbitals. cbn [In].
  intros [<- | [<- | [<- | []]]]; cbn [fst snd];
    repeat split; repeat constructor; lia.
Qed.

Lemma orbital_halves_opaque cx cy rx ry arc_start arc_end ops :
  orbital_halves cx cy rx ry arc_start arc_end = Ok ops ->
  Forall opaque_call ops.
Proof.
  unfold orbital_halves. intros Hrun.
  apply bind_Ok_inv in Hrun. destruct Hrun as (parts & Hparts & Hops).
  injection Hops as <-. apply Forall_concat.
  revert parts Hparts. apply ArcEdges.mapM_Forall.
  intros [[rot_deg c_start] c_end] part Ho Hpart.
  destruct (orbital_colors _ Ho) as (H1 & H2 & _).
  cbn [fst snd] in H1, H2. unfold draw_orbital in Hpart.
  apply (draw_thick_arc_opaque _ _ _ _ _ _ _ _ _ _ _ _ H1 H2 Hpart).
Qed.

(** An arc in colours of the gamut is always drawn. *)
Lemma draw_thick_arc_total cx cy rx ry angle_start angle_end rotation width
    (color_start color_end : color) :
  in_gamut color_start -> in_gamut color_end ->
  exists ops,
    draw_thick_arc cx cy rx ry angle_start angle_end rotation width
      color_start color_end 200 = Ok ops.
Proof.
  intros G1 G2. unfold draw_thick_arc.
  rewrite ArcFacts.arc_points_200. cbn [bind].
  rewrite ArcFacts.arc_segments_200.
  apply ArcFacts.mapM_all_Ok. intros i Hi.
  apply ArcFacts.in_range_inv in Hi. destruct Hi as [Hi _].
  destruct (ArcFacts.midpoint_in_unit i Hi) as [H0 H1].
  destruct (LerpFacts.lerp_color_returns _ H0 H1 _ _ G1 G2) as [c ->].
  cbn [bind]. eauto.
Qed.

Lemma orbital_halves_returns cx cy rx ry arc_start arc_end :
  exists ops, orbital_halves cx cy rx ry arc_start arc_end = Ok ops.
Proof.
  unfold orbital_halves.
  match goal with
  | |- context [mapM ?f orbitals] =>
      destruct (ArcFacts.mapM_all_Ok f orbitals) as [parts ->]
  end.
  - intros [[rot_deg c_start] c_end] Ho.
    destruct (orbital_colors _ Ho) as (_ & _ & G1 & G2).
    cbn [fst snd] in G1, G2. unfold draw_orbital.
    exact (draw_thick_arc_total cx cy rx ry arc_start arc_end
             (radians (float_of_Z rot_deg)) 16 c_start c_end G1 G2).
  - cbn [bind]. eauto.
Qed.

Lemma sparkles_opaque positions : forall g,
  Forall opaque_call (fst (sparkles positions g)).
Proof.
  induction positions as [ | [[sx sy] ss] rest IH ]; intros g;
    cbn [sparkles]; [ constructor | ].
  destruct (randint 180 255 g) as [b g1].
  specialize (IH g1). destruct (sparkles rest g1) as [ops g2].
  cbn [fst] in *. apply Forall_app. split; [ | exact IH ].
  unfold draw_sparkle. repeat constructor.
Qed.

Lemma brackets_accepted cx cy f : Forall accepted (brackets cx cy f).
Proof.
  unfold brackets.
  destruct (textbbox (0, 0) "</>"%string f) as [[[x0 y0] x1] y1].
  repeat constructor; right; reflexivity.
Qed.

Lemma Ok_inj {A} (a b : A) : Ok a = Ok b -> a = b.
Proof. congruence. Qed.

Lemma draw_sphere_accepted cx cy radius (base_color highlight_color : color)
    ops :
  length base_color = 3%nat -> length highlight_color = 3%nat ->
  draw_sphere cx cy radius base_color highlight_color = Ok ops ->
  Forall accepted ops.
Proof.
  intros H1 H2. rewrite SphereFacts.draw_sphere_steps. intros Hops.
  apply bind_Ok_inv in Hops. destruct Hops as (body & Hb & Hops).
  apply bind_Ok_inv in Hops. destruct Hops as (n & _ & Hops).
  apply bind_Ok_inv in Hops. destruct Hops as (spec & Hs & Hops).
  apply Ok_inj in Hops. subst ops.
  apply Forall_app. split; [ | apply Forall_app; split ].
  - unfold glow_rings. apply Forall_map, Forall_forall.
    intros ja _. right. cbn [fill_of]. rewrite length_app, H1. reflexivity.
  - revert body Hb. apply ArcEdges.mapM_Forall. intros r op _ Hop.
    unfold body_ring in Hop.
    destruct (truediv r radius) as [q | e]; [ | discriminate ].
    cbn [bind] in Hop.
    destruct (lerp_color base_color highlight_color _) as [c | e] eqn:Hc;
      [ | discriminate ].
    cbn [bind] in Hop. injection Hop as <-. left. cbn [fill_of].
    rewrite (LerpEdges.lerp_color_length _ _ _ _ Hc), H1, H2. reflexivity.
  - revert spec Hs. apply ArcEdges.mapM_Forall. intros r2 op _ Hop.
    unfold highlight_ring in Hop.
    destruct (fdiv _ _) as [q | e]; [ | discriminate ].
    cbn [bind] in Hop.
    destruct (py_int _) as [a | e]; [ | discriminate ].
    cbn [bind] in Hop. injection Hop as <-. right. reflexivity.
Qed.

Lemma electron_spheres_accepted ops :
  electron_spheres 512 512 340 130 = Ok ops -> Forall accepted ops.
Proof.
  intros Hops.
  destruct (ElectronFacts.electron_spheres_calls ops Hops)
    as (x1 & y1 & s1 & x2 & y2 & s2 & _ & _ & Hs1 & _ & _ & Hs2 & ->).
  apply Forall_app. split.
  - apply (fun H1 H2 => draw_sphere_accepted _ _ _ _ _ _ H1 H2 Hs1);
      reflexivity.
  - apply (fun H1 H2 => draw_sphere_accepted _ _ _ _ _ _ H1 H2 Hs2);
      reflexivity.
Qed.

(** ** The electron loop *)

Lemma electron_spheres_steps :
  electron_spheres 512 512 340 130
  = (x1 <- py_int (fst (electron_position 512 512 340 130 (-30) 220)) ;;
     y1 <- py_int (snd (electron_position 512 512 340 130 (-30) 220)) ;;
     s1 <- draw_sphere x1 y1 22 [80; 130; 255] [180; 200; 255] ;;
     x2 <- py_int (fst (electron_position 512 512 340 130 90 40)) ;;
     y2 <- py_int (snd (electron_position 512 512 340 130 90 40)) ;;
     s2 <- draw_sphere x2 y2 22 [255; 160; 30] [255; 220; 140] ;;
     Ok (s1 ++ s2)).
Proof.
  unfold electron_spheres, electrons. cbn [mapM].
  change (nth_error orbitals (Z.to_nat 0)) with (Some (-30, BLUE, PURPLE)).
  change (nth_error orbitals (Z.to_nat 2))
    with (Some (90, ORANGE, RED_ORANGE)).
  cbv iota beta.
  destruct (electron_position 512 512 340 130 (-30) 220) as [px1 py1].
  destruct (electron_position 512 512 340 130 90 40) as [px2 py2].
  cbn [fst snd].
  destruct (py_int px1) as [x1 | e]; [ | reflexivity ].
  destruct (py_int py1) as [y1 | e]; [ | reflexivity ].
  cbn [bind].
  destruct (draw_sphere x1 y1 22 _ _) as [s1 | e]; [ | reflexivity ].
  cbn [bind].
  destruct (py_int px2) as [x2 | e]; [ | reflexivity ].
  destruct (py_int py2) as [y2 | e]; [ | reflexivity ].
  cbn [bind].
  destruct (draw_sphere x2 y2 22 _ _) as [s2 | e]; [ | reflexivity ].
  cbn [bind concat]. rewrite app_nil_r. reflexivity.
Qed.

Lemma electron_sphere_total x y base_color highlight_color :
  in_gamut base_color -> in_gamut highlight_color ->
  exists ops, draw_sphere x y 22 base_color highlight_color = Ok ops.
Proof. apply SphereFacts.draw_sphere_total. lia. Qed.

(** The electron loop fails only at an [int] of a coordinate. *)
Lemma electron_spheres_outcome :
  ((forall c, In c electron_coordinates -> exists v, py_int c = Ok v) ->
   exists ops, electron_spheres 512 512 340 130 = Ok ops)
  /\ (forall e, electron_spheres 512 512 340 130 = Raise e ->
        exists c, In c electron_coordinates /\ py_int c = Raise e).
Proof.
  rewrite electron_spheres_steps. unfold electron_coordinates.
  set (c1 := fst (electron_position 512 512 340 130 (-30) 220)).
  set (c2 := snd (electron_position 512 512 340 130 (-30) 220)).
  set (c3 := fst (electron_position 512 512 340 130 90 40)).
  set (c4 := snd (electron_position 512 512 340 130 90 40)).
  clearbody c1 c2 c3 c4.
  assert (G1 : in_gamut [80; 130; 255]) by (repeat constructor; lia).
  assert (G2 : in_gamut [180; 200; 255]) by (repeat constructor; lia).
  assert (G3 : in_gamut [255; 160; 30]) by (repeat constructor; lia).
  assert (G4 : in_gamut [255; 220; 140]) by (repeat constructor; lia).
  split.
  - intros Hc.
    destruct (Hc c1) as [x1 ->]; [ cbn; auto | ].
    destruct (Hc c2) as [y1 ->]; [ cbn; auto | ].
    cbn [bind].
    destruct (electron_sphere_total x1 y1 _ _ G1 G2) as [s1 ->].
    destruct (Hc c3) as [x2 ->]; [ cbn; auto | ].
    destruct (Hc c4) as [y2 ->]; [ cbn; auto 6 | ].
    cbn [bind].
    destruct (electron_sphere_total x2 y2 _ _ G3 G4) as [s2 ->].
    cbn [bind]. eauto.
  - intros e.
    destruct (py_int c1) as [x1 | e1] eqn:H1; cbn [bind];
      [ | intros He; injection He as <-; exists c1; cbn; auto ].
    destruct (py_int c2) as [y1 | e1] eqn:H2; cbn [bind];
      [ | intros He; injection He as <-; exists c2; cbn; auto ].
    destruct (electron_sphere_total x1 y1 _ _ G1 G2) as [s1 ->].
    cbn [bind].
    destruct (py_int c3) as [x2 | e1] eqn:H3; cbn [bind];
      [ | intros He; injection He as <-; exists c3; cbn; auto ].
    destruct (py_int c4) as [y2 | e1] eqn:H4; cbn [bind];
      [ | intros He; injection He as <-; exists c4; cbn; auto 6 ].
    destruct (electron_sphere_total x2 y2 _ _ G3 G4) as [s2 ->].
    cbn [bind]. discriminate.
Qed.

(** ** The whole composition *)

(** Every call of a run has a fill Pillow accepts. *)
Lemma composition_accepted bg back f front spheres g :
  background 512 512 = Ok bg ->
  orbital_halves 512 512 340 130 180 360 = Ok back ->
  orbital_halves 512 512 340 130 0 180 = Ok front ->
  electron_spheres 512 512 340 130 = Ok spheres ->
  Forall accepted
    (bg ++ back ++ brackets 512 512 f ++ front ++ spheres
     ++ fst (sparkles sparkle_positions (seed 42 g))).
Proof.
  intros Hbg Hback Hfront Hsph.
  assert (Hop : forall ops, Forall opaque_call ops -> Forall accepted ops)
    by (intros ops; apply Forall_impl; exact opaque_accepted).
  repeat (apply Forall_app; split).
  - apply Hop, (background_opaque _ _ _ Hbg).
  - apply Hop, (orbital_halves_opaque _ _ _ _ _ _ _ Hback).
  - apply brackets_accepted.
  - apply Hop, (orbital_halves_opaque _ _ _ _ _ _ _ Hfront).
  - apply (electron_spheres_accepted _ Hsph).
  - apply Hop, sparkles_opaque.
Qed.

(** X11. What can stop [create_nebula_icon]: with a font loaded and the
    four electron coordinates finite (so that [int] accepts them) it
    returns an image, leaving the generator as twelve draws after
    [random.seed(42)] leave it; and when it raises, the exception is that
    of the font loading or that of [int] on one of the four coordinates.
    The gradients, the arcs, the spheres and the drawing calls themselves
    never fail. *)
Theorem create_nebula_icon_outcome (g : rng_state) :
  (forall f, load_font = Ok f ->
     (forall c, In c electron_coordinates -> exists v, py_int c = Ok v) ->
     exists img,
       create_nebula_icon g
       = Ok (img, snd (sparkles sparkle_positions (seed 42 g))))
  /\ (forall e, create_nebula_icon g = Raise e ->
        load_font = Raise e
        \/ exists c, In c electron_coordinates /\ py_int c = Raise e).
Proof.
  pose proof (CanvasFacts.create_nebula_icon_steps g) as Hsteps.
  revert Hsteps. generalize (create_nebula_icon g). intros run ->.
  destruct background_returns as [bg Hbg].
  destruct (orbital_halves_returns 512 512 340 130 180 360) as [back Hback].
  destruct (orbital_halves_returns 512 512 340 130 0 180) as [front Hfront].
  destruct electron_spheres_outcome as [Htotal Hraise].
  rewrite Hbg, Hback. cbn [bind].
  split.
  - intros f Hf Hc. rewrite Hf. cbn [bind]. rewrite Hfront. cbn [bind].
    destruct (Htotal Hc) as [spheres Hsph]. rewrite Hsph. cbn [bind].
    destruct (paint_all_accepted _ (Image_new 1024 1024 (0, 0, 0, 255))
                (composition_accepted bg back f front spheres g
                   Hbg Hback Hfront Hsph)) as [img ->].
    cbn [bind]. eauto.
  - intros e.
    destruct load_font as [f | e1]; cbn [bind];
      [ | intros He; injection He as <-; left; reflexivity ].
    rewrite Hfront. cbn [bind].
    destruct (electron_spheres 512 512 340 130) as [spheres | e2] eqn:Hsph;
      cbn [bind];
      [ | intros He; injection He as <-; right; apply Hraise; reflexivity ].
    destruct (paint_all_accepted _ (Image_new 1024 1024 (0, 0, 0, 255))
                (composition_accepted bg back f front spheres g
                   Hbg Hback Hfront Hsph)) as [img ->].
    cbn [bind]. discriminate.
Qed.

(** X10. Where the image can be translucent: a pixel that the two text
    calls leave as it was and that no ellipse of the two spheres covers has
    alpha 255 in the image [create_nebula_icon] returns.  The background,
    the arcs and the sparkles are drawn with opaque inks. *)
Theorem translucent_only_under_spheres_or_text (g : rng_state) (img : Image)
    (g' : rng_state) (x y : Z) :
  create_nebula_icon g = Ok (img, g') ->
  (forall f op, load_font = Ok f -> In op (brackets 512 512 f) ->
     leaves op x y) ->
  (forall spheres op, electron_spheres 512 512 340 130 = Ok spheres ->
     In op spheres -> leaves op x y) ->
  alpha (getpixel img x y) = 255.
Proof.
  intros Hrun Htext Hsph.
  pose proof (eq_trans (eq_sym (CanvasFacts.create_nebula_icon_steps g)) Hrun)
    as Hsteps.
  clear Hrun. rename Hsteps into Hrun.
  apply bind_Ok_inv in Hrun. destruct Hrun as (bg & Hbg & Hrun).
  apply bind_Ok_inv in Hrun. destruct Hrun as (back & Hback & Hrun).
  apply bind_Ok_inv in Hrun. destruct Hrun as (f & Hf & Hrun).
  apply bind_Ok_inv in Hrun. destruct Hrun as (front & Hfront & Hrun).
  apply bind_Ok_inv in Hrun. destruct Hrun as (spheres & Hs & Hrun).
  apply bind_Ok_inv in Hrun. destruct Hrun as (img3 & H3 & Hret).
  injection Hret as <- _.
  apply (paint_all_opaque _ x y _ _ H3); [ | reflexivity ].
  assert (Hop : forall ops, Forall opaque_call ops ->
                  Forall (fun op => opaque_call op \/ leaves op x y) ops)
    by (intros ops; apply Forall_impl; intros op; auto).
  assert (Hlv : forall ops, (forall op, In op ops -> leaves op x y) ->
                  Forall (fun op => opaque_call op \/ leaves op x y) ops)
    by (intros ops Hall; apply Forall_forall; intros op Hin; right; auto).
  repeat (apply Forall_app; split).
  - apply Hop, (background_opaque _ _ _ Hbg).
  - apply Hop, (orbital_halves_opaque _ _ _ _ _ _ _ Hback).
  - apply Hlv. intros op. apply (Htext f op Hf).
  - apply Hop, (orbital_halves_opaque _ _ _ _ _ _ _ Hfront).
  - apply Hlv. intros op. apply (Hsph spheres op Hs).
  - apply Hop, sparkles_opaque.
Qed.

Lemma touches_leaves op x y : touches op x y = false -> leaves op x y.
Proof.
  destruct op as [xy fill | p q fill w | xy text fill f]; cbn [touches leaves];
    [ auto | auto | discriminate ].
Qed.

End Composer.

Lemma reference_run_returns :
  exists p,
    create_nebula_icon (libm := ref_libm) (pil := ref_pillow)
      (rnd := mt_random) (MT19937.seed 0) = Ok p.
Proof. apply ArcFacts.is_ok_Ok. vm_compute. reflexivity. Qed.

Lemma reference_spheres_miss (spheres : list draw_op) (op : draw_op) :
  electron_spheres (libm := ref_libm) (pil := ref_pillow) 512 512 340 130
  = Ok spheres ->
  In op spheres -> leaves op 512 100.
Proof.
  intros Hs Hop. apply touches_leaves.
  assert (Hc : match electron_spheres (libm := ref_libm) (pil := ref_pillow)
                       512 512 340 130 with
               | Ok s => forallb (fun op => negb (touches op 512 100)) s
               | Raise _ => false
               end = true) by (vm_compute; reflexivity).
  rewrite Hs in Hc. rewrite forallb_forall in Hc.
  apply negb_true_iff, Hc, Hop.
Qed.

(** On the reference run, pixel (512, 100) of the background disc lies
    under no sphere and outside the text: it is opaque. *)
Lemma translucent_only_under_spheres_or_text_witness :
  exists p,
    create_nebula_icon (libm := ref_libm) (pil := ref_pillow)
      (rnd := mt_random) (MT19937.seed 0) = Ok p
    /\ alpha (getpixel (fst p) 512 100) = 255.
Proof.
  destruct reference_run_returns as ([img g'] & Hrun).
  exists (img, g'). split; [ exact Hrun | ].
  apply (translucent_only_under_spheres_or_text (libm := ref_libm)
           (pil := ref_pillow) (rnd := mt_random) (MT19937.seed 0) img g'
           512 100 Hrun).
  - intros [] op _ Hop. cbn in Hop.
    destruct Hop as [<- | [<- | []]]; intros ink old; reflexivity.
  - apply reference_spheres_miss.
Defined.

End ComposerFacts.

(* ================================================================== *)
(** * Rounding within integer bounds *)
(* ================================================================== *)

Module Enclosure.
Import FloatFacts.

Lemma scaled_pos m e : 0 < m -> 0 < scaled m e \/ e + 3000 < 0.
Proof.
  intros Hm. destruct (Z.le_gt_cases 0 (e + 3000)) as [He | He]; [ left | right; lia ].
  unfold scaled. apply Z.mul_pos_pos; [ exact Hm | ].
  apply Z.pow_pos_nonneg; lia.
Qed.

Lemma scaled_split X e k :
  -3000 <= e -> 0 <= k -> e + k <= 0 ->
  scaled X 0 = X * 2 ^ (- (e + k)) * 2 ^ k * 2 ^ (e + 3000).
Proof.
  intros He Hk Hek. unfold scaled.
  rewrite <- !Z.mul_assoc, <- !Z.pow_add_r by lia.
  f_equal. f_equal. lia.
Qed.

(** Dropping [k] low bits keeps a value between integer bounds, and the
    upper bound is reached only when the bits dropped are zero. *)
Lemma floor_between m e k L U :
  0 <= m -> 0 < k -> -3000 <= e -> e + k <= 0 ->
  scaled L 0 <= scaled m e <= scaled U 0 ->
  L * 2 ^ (- (e + k)) <= m / 2 ^ k <= U * 2 ^ (- (e + k))
  /\ (m / 2 ^ k = U * 2 ^ (- (e + k)) -> m mod 2 ^ k = 0).
Proof.
  intros Hm Hk He Hek [HL HU].
  rewrite (scaled_split L e k) in HL by lia.
  rewrite (scaled_split U e k) in HU by lia.
  unfold scaled in HL, HU.
  assert (Hs : 0 < 2 ^ (e + 3000)) by (apply Z.pow_pos_nonneg; lia).
  assert (Hp : 0 < 2 ^ k) by (apply Z.pow_pos_nonneg; lia).
  apply Z.mul_le_mono_pos_r in HL; [ | exact Hs ].
  apply Z.mul_le_mono_pos_r in HU; [ | exact Hs ].
  set (NL := L * 2 ^ (- (e + k))) in *. set (NU := U * 2 ^ (- (e + k))) in *.
  pose proof (Z.div_mod m (2 ^ k) ltac:(lia)) as Hdm.
  pose proof (Z.mod_pos_bound m (2 ^ k) Hp) as Hmod.
  assert (H1 : NL <= m / 2 ^ k).
  { apply Z.div_le_lower_bound; [ exact Hp | lia ]. }
  assert (H2 : m / 2 ^ k <= NU).
  { apply Z.div_le_upper_bound; [ exact Hp | lia ]. }
  split; [ split; assumption | ].
  intros Heq. rewrite Heq in Hdm. nia.
Qed.

Lemma between_scaled m e L U :
  -3000 <= e -> e <= 0 ->
  L * 2 ^ (- e) <= m <= U * 2 ^ (- e) ->
  scaled L 0 <= scaled m e <= scaled U 0.
Proof.
  intros He He0 [HL HU].
  assert (Hs : 0 < 2 ^ (e + 3000)) by (apply Z.pow_pos_nonneg; lia).
  assert (Hx : forall X, scaled X 0 = X * 2 ^ (- e) * 2 ^ (e + 3000)).
  { intros X. unfold scaled. rewrite <- Z.mul_assoc, <- Z.pow_add_r by lia.
    f_equal. f_equal. lia. }
  rewrite !Hx. unfold scaled. split; apply Z.mul_le_mono_nonneg_r; lia.
Qed.

(** ** Shifting out zero bits is exact *)

Lemma shr_1_clean r :
  0 <= shr_m r -> shr_r r = false -> shr_s r = false ->
  (shr_m r) mod 2 = 0 ->
  shr_r (shr_1 r) = false /\ shr_s (shr_1 r) = false.
Proof.
  destruct r as [m rr ss]. cbn [shr_m shr_r shr_s]. intros Hm -> -> Hev.
  destruct m as [ | p | p ]; [ split; reflexivity | | lia ].
  destruct p as [p | p | ]; cbn [shr_1 orb shr_r shr_s].
  - rewrite Pos2Z.pos_xI in Hev. 
    rewrite Z.add_comm, Z.mul_comm, Z.mod_add in Hev by lia. discriminate.
  - split; reflexivity.
  - discriminate.
Qed.

Lemma divide_pow2_split a b m :
  0 <= a -> 0 <= b -> (2 ^ (a + b) | m) ->
  (2 ^ a | m) /\ (2 ^ b | m / 2 ^ a).
Proof.
  intros Ha Hb [c Hc]. rewrite Z.pow_add_r in Hc by lia.
  assert (Hp : 0 < 2 ^ a) by (apply Z.pow_pos_nonneg; lia).
  split.
  - exists (c * 2 ^ b). lia.
  - exists c. subst m.
    replace (c * (2 ^ a * 2 ^ b)) with (c * 2 ^ b * 2 ^ a) by lia.
    rewrite Z.div_mul by lia. reflexivity.
Qed.

Lemma iter_pos_shr_clean p : forall r,
  0 <= shr_m r -> shr_r r = false -> shr_s r = false ->
  (2 ^ Z.pos p | shr_m r) ->
  shr_r (iter_pos shr_1 p r) = false /\ shr_s (iter_pos shr_1 p r) = false.
Proof.
  assert (Hnn : forall q r, 0 <= shr_m r -> 0 <= shr_m (iter_pos shr_1 q r)).
  { intros q r Hr. rewrite iter_pos_shr_m by exact Hr.
    apply Z.div_pos; [ exact Hr | apply Z.pow_pos_nonneg; lia ]. }
  induction p as [p IH | p IH | ]; intros r Hr Hrr Hrs Hdiv; cbn [iter_pos].
  - replace (Z.pos p~1) with (1 + (Z.pos p + Z.pos p)) in Hdiv by lia.
    apply divide_pow2_split in Hdiv; [ | lia | lia ].
    destruct Hdiv as [H1 H2]. change (2 ^ 1) with 2 in H1, H2.
    destruct (shr_1_clean r Hr Hrr Hrs) as [Hr1 Hs1].
    { apply Z.mod_divide; [ lia | exact H1 ]. }
    assert (Hm1 : 0 <= shr_m (shr_1 r))
      by (rewrite shr_1_m by exact Hr; apply Z.div_pos; lia).
    rewrite <- shr_1_m in H2 by exact Hr.
    apply divide_pow2_split in H2; [ | lia | lia ].
    destruct H2 as [H2 H3].
    destruct (IH _ Hm1 Hr1 Hs1 H2) as [Hr2 Hs2].
    apply IH; [ apply Hnn, Hm1 | exact Hr2 | exact Hs2 | ].
    rewrite iter_pos_shr_m by exact Hm1. exact H3.
  - replace (Z.pos p~0) with (Z.pos p + Z.pos p) in Hdiv by lia.
    apply divide_pow2_split in Hdiv; [ | lia | lia ].
    destruct Hdiv as [H2 H3].
    destruct (IH _ Hr Hrr Hrs H2) as [Hr2 Hs2].
    apply IH; [ apply Hnn, Hr | exact Hr2 | exact Hs2 | ].
    rewrite iter_pos_shr_m by exact Hr. exact H3.
  - apply shr_1_clean; try assumption.
    apply Z.mod_divide; [ lia | exact Hdiv ].
Qed.

Lemma loc_clean r :
  shr_r r = false -> shr_s r = false -> loc_of_shr_record r = loc_Exact.
Proof. destruct r as [m rr ss]. cbn. intros -> ->. reflexivity. Qed.

(** ** Rounding a value between two integers *)

Lemma digits_scaled m e U :
  0 < m -> -3000 <= e -> scaled m e <= scaled U 0 -> U < 2 ^ 52 ->
  Zdigits2 m + e <= 52 /\ e <= 51.
Proof.
  intros Hm He Hle HU.
  destruct m as [ | p | p ]; try lia. cbn [Zdigits2].
  rewrite Zdigits2_log2.
  pose proof (Z.log2_spec (Z.pos p) ltac:(lia)) as [Hlo _].
  pose proof (Z.log2_nonneg (Z.pos p)) as Hnn.
  unfold scaled in Hle. change (0 + 3000) with 3000 in Hle.
  assert (Hs : 0 < 2 ^ (e + 3000)) by (apply Z.pow_pos_nonneg; lia).
  assert (H1 : 2 ^ (Z.log2 (Z.pos p) + (e + 3000)) < 2 ^ (52 + 3000)).
  { rewrite !Z.pow_add_r by lia.
    assert (0 < 2 ^ 3000) by (apply Z.pow_pos_nonneg; lia).
    nia. }
  apply Z.pow_lt_mono_r_iff in H1; lia.
Qed.

(** The first step of rounding: shift to the canonical exponent, then
    round to nearest even. *)
Lemma round_first m e L U :
  0 < m -> -3000 <= e -> 0 <= L -> U < 2 ^ 52 ->
  scaled L 0 <= scaled m e <= scaled U 0 ->
  let r := shr_fexp prec emax m e loc_Exact in
  let m2 := round_nearest_even (shr_m (fst r)) (loc_of_shr_record (fst r)) in
  0 <= m2 /\ -3000 <= snd r <= 51
  /\ scaled L 0 <= scaled m2 (snd r) <= scaled U 0.
Proof.
  intros Hm He HL HU [Hlo Hhi].
  destruct (digits_scaled m e U Hm He Hhi HU) as [Hd He51].
  unfold shr_fexp, shr. cbn [shr_record_of_loc].
  pose proof (fexp_le (Zdigits2 m + e)) as Hf.
  destruct (fexp prec emax (Zdigits2 m + e) - e) as [ | p | p ] eqn:Hk;
    cbn [fst snd shr_m loc_of_shr_record round_nearest_even];
    try (split; [ lia | split; [ lia | split; assumption ] ]).
  set (r0 := {| shr_m := m; shr_r := false; shr_s := false |}).
  assert (Hr0 : 0 <= shr_m r0) by (cbn; lia).
  pose proof (iter_pos_shr_m p r0 Hr0) as Hm1. cbn [shr_m r0] in Hm1.
  destruct (floor_between m e (Z.pos p) L U ltac:(lia) ltac:(lia) He
              ltac:(lia) (conj Hlo Hhi)) as [[H1 H2] Hex].
  rewrite <- Hm1 in H1, H2, Hex.
  pose proof (round_nearest_even_range (shr_m (iter_pos shr_1 p r0))
                (loc_of_shr_record (iter_pos shr_1 p r0))) as Hr.
  assert (Hup : round_nearest_even (shr_m (iter_pos shr_1 p r0))
                  (loc_of_shr_record (iter_pos shr_1 p r0))
                <= U * 2 ^ (- (e + Z.pos p))).
  { destruct (Z.eq_dec (shr_m (iter_pos shr_1 p r0))
                (U * 2 ^ (- (e + Z.pos p)))) as [Heq | Hne]; [ | lia ].
    destruct (iter_pos_shr_clean p r0 Hr0 eq_refl eq_refl) as [Hc1 Hc2].
    { apply Z.mod_divide; [ | apply Hex, Heq ].
      apply Z.pow_nonzero; lia. }
    rewrite (loc_clean _ Hc1 Hc2). cbn [round_nearest_even]. lia. }
  assert (Hge : 0 <= shr_m (iter_pos shr_1 p r0)).
  { rewrite Hm1. apply Z.div_pos; [ lia | apply Z.pow_pos_nonneg; lia ]. }
  split; [ lia | ]. split; [ lia | ].
  apply between_scaled; lia.
Qed.

(** The second step: the mantissa may have grown by one bit. *)
Lemma round_second m e L U :
  0 <= m -> -3000 <= e <= 51 -> 0 <= L -> U < 2 ^ 52 ->
  scaled L 0 <= scaled m e <= scaled U 0 ->
  let r := shr_fexp prec emax m e loc_Exact in
  0 <= shr_m (fst r) /\ -3000 <= snd r
  /\ scaled L 0 <= scaled (shr_m (fst r)) (snd r) <= scaled U 0.
Proof.
  intros Hm He HL HU [Hlo Hhi].
  assert (Hd : Zdigits2 m + e <= 52).
  { destruct (Z.eq_dec m 0) as [-> | Hnz]; [ cbn; lia | ].
    apply (digits_scaled m e U); lia. }
  unfold shr_fexp, shr. cbn [shr_record_of_loc].
  pose proof (fexp_le (Zdigits2 m + e)) as Hf.
  destruct (fexp prec emax (Zdigits2 m + e) - e) as [ | p | p ] eqn:Hk;
    cbn [fst snd shr_m];
    try (split; [ lia | split; [ lia | split; assumption ] ]).
  set (r0 := {| shr_m := m; shr_r := false; shr_s := false |}).
  assert (Hr0 : 0 <= shr_m r0) by (cbn; lia).
  pose proof (iter_pos_shr_m p r0 Hr0) as Hm1. cbn [shr_m r0] in Hm1.
  destruct (floor_between m e (Z.pos p) L U Hm ltac:(lia) ltac:(lia)
              ltac:(lia) (conj Hlo Hhi)) as [[H1 H2] _].
  rewrite <- Hm1 in H1, H2.
  assert (Hge : 0 <= shr_m (iter_pos shr_1 p r0)).
  { rewrite Hm1. apply Z.div_pos; [ lia | apply Z.pow_pos_nonneg; lia ]. }
  split; [ exact Hge | ]. split; [ lia | ].
  apply between_scaled; lia.
Qed.

(** Rounding an exact value that lies between two integers below 2^52
    gives a double between them, of the same sign. *)
Lemma binary_round_aux_between s m e L U :
  0 < m -> -3000 <= e -> 0 <= L -> U < 2 ^ 52 ->
  scaled L 0 <= scaled m e <= scaled U 0 ->
  sf_between L U (binary_round_aux prec emax s m e loc_Exact)
  /\ sf_sign_is s (binary_round_aux prec emax s m e loc_Exact).
Proof.
  intros Hm He HL HU Hb.
  pose proof (round_first m e L U Hm He HL HU Hb) as H1.
  unfold binary_round_aux.
  destruct (shr_fexp prec emax m e loc_Exact) as [mrs1 e1].
  cbn [fst snd] in H1. cbv zeta in H1.
  destruct H1 as (Hm2 & He1 & Hb2).
  pose proof (round_second _ e1 L U Hm2 He1 HL HU Hb2) as H2.
  destruct (shr_fexp prec emax _ e1 loc_Exact) as [mrs2 e2].
  cbn [fst snd] in H2. cbv zeta in H2.
  destruct H2 as (Hm3 & He2 & Hb3).
  destruct (shr_m mrs2) as [ | p | p ] eqn:Hp; [ | | lia ].
  - split; [ | reflexivity ]. cbn [sf_between].
    unfold scaled in Hb3. cbn in Hb3.
    assert (0 < 2 ^ 3000) by (apply Z.pow_pos_nonneg; lia). nia.
  - destruct (digits_scaled (Z.pos p) e2 U ltac:(lia) He2 (proj2 Hb3) HU)
      as [_ He51].
    assert (Hle : (e2 <=? emax - prec) = true)
      by (apply Z.leb_le; change (emax - prec) with 971; lia).
    rewrite Hle. split; [ | reflexivity ]. cbn [sf_between]. auto.
Qed.

End Enclosure.

Module Enclosure2.
Import FloatFacts Enclosure.

Lemma scaled_int m e z :
  -3000 <= e <= 0 -> m = z * 2 ^ (- e) -> scaled m e = scaled z 0.
Proof.
  intros He ->. unfold scaled.
  rewrite <- Z.mul_assoc, <- Z.pow_add_r by lia. f_equal. f_equal. lia.
Qed.

Lemma scaled_add x y e : scaled (x + y) e = scaled x e + scaled y e.
Proof. unfold scaled. lia. Qed.

Lemma scaled_sub x y e : scaled (x - y) e = scaled x e - scaled y e.
Proof. unfold scaled. lia. Qed.

Lemma scaled_le_0 x y : scaled x 0 <= scaled y 0 <-> x <= y.
Proof.
  unfold scaled. change (0 + 3000) with 3000.
  assert (0 < 2 ^ 3000) by (apply Z.pow_pos_nonneg; lia).
  split; intros Hle; nia.
Qed.

Lemma scaled_shift m e d :
  0 <= d -> -3000 <= e - d -> scaled (m * 2 ^ d) (e - d) = scaled m e.
Proof.
  intros Hd He. unfold scaled.
  rewrite <- Z.mul_assoc, <- Z.pow_add_r by lia. f_equal. f_equal. lia.
Qed.

(** A small integer as a double. *)
Lemma small_int_value (z : Z) :
  -256 < z < 256 -> sf_is_int z (Prim2SF (float_of_Z z)) = true.
Proof.
  intros Hz.
  pose proof (LerpFacts.forallb_range 511
    (fun k => sf_is_int (k - 255) (Prim2SF (float_of_Z (k - 255))))
    ltac:(vm_compute; reflexivity) (z + 255) ltac:(lia)) as Hk.
  cbv beta in Hk. replace (z + 255 - 255) with z in Hk by lia. exact Hk.
Qed.

Lemma small_int_cases (z : Z) :
  -256 < z < 256 ->
  (z = 0 /\ Prim2SF (float_of_Z z) = S754_zero false)
  \/ (z <> 0 /\ exists m e,
        Prim2SF (float_of_Z z) = S754_finite (z <? 0) m e
        /\ -60 <= e <= 0 /\ scaled (Z.pos m) e = scaled (Z.abs z) 0).
Proof.
  intros Hz. pose proof (small_int_value z Hz) as Hv.
  unfold sf_is_int in Hv.
  destruct (Prim2SF (float_of_Z z)) as [ s | s | | s m e ]; try discriminate.
  - apply andb_true_iff in Hv. destruct Hv as [H0 Hs].
    apply Z.eqb_eq in H0. destruct s; [ discriminate | ]. left. auto.
  - apply andb_true_iff in Hv. destruct Hv as [Hv Hm].
    apply andb_true_iff in Hv. destruct Hv as [Hv He0].
    apply andb_true_iff in Hv. destruct Hv as [Hs He].
    apply Bool.eqb_prop in Hs. apply Z.leb_le in He, He0.
    apply Z.eqb_eq in Hm. subst s.
    right. split.
    + intros ->. cbn in Hm. lia.
    + exists m, e. split; [ reflexivity | ]. split; [ lia | ].
      apply scaled_int; [ lia | exact Hm ].
Qed.

(** A double of the unit interval. *)
Lemma unit_interval_value (t : float) :
  (0 <=? t)%float = true -> (t <=? 1)%float = true ->
  match Prim2SF t with
  | S754_zero _ => True
  | S754_finite s m e =>
      s = false /\ -1074 <= e /\ scaled (Z.pos m) e <= scaled 1 0
  | _ => False
  end.
Proof.
  rewrite !FloatAxioms.leb_spec.
  change (Prim2SF 0) with (S754_zero false).
  change (Prim2SF 1) with (S754_finite false 4503599627370496 (-52)).
  remember 4503599627370496%positive as X eqn:HX.
  pose proof (Prim2SF_valid t) as Hv.
  destruct (Prim2SF t) as [s | s | | s m e].
  - auto.
  - destruct s; cbn; discriminate.
  - cbn. discriminate.
  - intros H0 H1.
    destruct s; [ cbn in H0; discriminate | ].
    cbn [valid_binary] in Hv. unfold bounded, canonical_mantissa in Hv.
    apply andb_true_iff in Hv. destruct Hv as [Hc _].
    apply Z.eqb_eq in Hc. rewrite fexp_le in Hc.
    pose proof (mantissa_lt_digits m) as Hm.
    split; [ reflexivity | ]. split; [ lia | ].
    assert (Hle : Z.pos m <= 2 ^ (- e) /\ e <= -52).
    { unfold SFleb, SFcompare in H1.
      destruct (Z.compare_spec e (-52)) as [He | He | He];
        [ | | discriminate ].
      - subst e. split; [ | lia ].
        assert (Hmx : (m <= X)%positive).
        { apply Pos.compare_le_iff. intros Hgt.
          rewrite Pos.compare_cont_spec, Hgt in H1. discriminate. }
        subst X. exact (Pos2Z.pos_le_pos _ _ Hmx).
      - split; [ | lia ].
        assert (Z.pos (digits2_pos m) <= 53) by lia.
        apply Z.lt_le_incl. eapply Z.lt_le_trans; [ exact Hm | ].
        apply Z.pow_le_mono_r; lia. }
    destruct Hle as [Hle He].
    unfold scaled. change (0 + 3000) with 3000. rewrite Z.mul_1_l.
    replace 3000 with (- e + (e + 3000)) at 2 by lia.
    rewrite (Z.pow_add_r 2 (- e) (e + 3000)) by lia.
    apply Z.mul_le_mono_nonneg_r; [ apply Z.pow_nonneg; lia | exact Hle ].
Qed.

End Enclosure2.

Module Enclosure3.
Import FloatFacts Enclosure Enclosure2.

(** ** The product [(b - a) * t] *)

Lemma mul_between (d : Z) (t : float) :
  -256 < d < 256 ->
  (0 <=? t)%float = true -> (t <=? 1)%float = true ->
  sf_between 0 (Z.abs d)
    (SFmul prec emax (Prim2SF (float_of_Z d)) (Prim2SF t))
  /\ sf_sign_is (d <? 0)
       (SFmul prec emax (Prim2SF (float_of_Z d)) (Prim2SF t))
     \/ exists s,
          SFmul prec emax (Prim2SF (float_of_Z d)) (Prim2SF t) = S754_zero s.
Proof.
  intros Hd H0 H1.
  pose proof (unit_interval_value t H0 H1) as Ht.
  destruct (small_int_cases d Hd) as [[-> ->] | (Hnz & m & e & -> & He & Hm)].
  - right. destruct (Prim2SF t) as [s | s | | s mt et]; try contradiction;
      cbn [SFmul]; eauto.
  - destruct (Prim2SF t) as [s | s | | s mt et]; try contradiction;
      cbn [SFmul]; [ right; eauto | ].
    destruct Ht as (-> & Het & Hle). left.
    rewrite xorb_false_r.
    apply binary_round_aux_between; try lia.
    assert (Hs : scaled (Z.pos (m * mt)) (e + et) * 2 ^ 3000
                 = scaled (Z.pos m) e * scaled (Z.pos mt) et).
    { unfold scaled. rewrite Pos2Z.inj_mul.
      replace (e + et + 3000 + 3000) with ((e + 3000) + (et + 3000)) by lia.
      transitivity (Z.pos m * Z.pos mt * 2 ^ (e + et + 3000 + 3000)).
      - rewrite (Z.pow_add_r 2 (e + et + 3000) 3000) by lia. lia.
      - replace (e + et + 3000 + 3000) with ((e + 3000) + (et + 3000))
          by lia.
        rewrite Z.pow_add_r by lia. lia. }
    rewrite Hm in Hs.
    assert (Hp : 0 < 2 ^ 3000) by (apply Z.pow_pos_nonneg; lia).
    assert (Hnn : 0 <= scaled (Z.abs d) 0).
    { unfold scaled. apply Z.mul_nonneg_nonneg; [ lia | ].
      apply Z.pow_nonneg; lia. }
    assert (Hpos : 0 <= scaled (Z.pos (m * mt)) (e + et)).
    { unfold scaled. apply Z.mul_nonneg_nonneg; [ lia | ].
      apply Z.pow_nonneg; lia. }
    split.
    + unfold scaled at 1. cbn. exact Hpos.
    + apply (Z.mul_le_mono_pos_r _ _ (2 ^ 3000) Hp). rewrite Hs.
      unfold scaled in Hle at 2. change (1 * 2 ^ (0 + 3000)) with (2 ^ 3000) in Hle.
      apply Z.mul_le_mono_nonneg_l; assumption.
Qed.

(** ** The sum [a + (b - a) * t] *)

Lemma shl_align_exp mx ex ex' :
  snd (shl_align mx ex ex') = ex \/ snd (shl_align mx ex ex') = ex'.
Proof.
  unfold shl_align. destruct (ex' - ex); cbn [snd]; auto.
Qed.

(** [binary_normalize] on an exact positive value between two integers. *)
Lemma binary_normalize_between M e L U :
  0 < M -> -3000 <= e -> 0 <= L -> U < 2 ^ 52 ->
  scaled L 0 <= scaled M e <= scaled U 0 ->
  sf_between L U (binary_normalize prec emax M e false)
  /\ sf_sign_is false (binary_normalize prec emax M e false).
Proof.
  intros HM He HL HU Hb. destruct M as [ | p | p ]; try lia.
  cbn [binary_normalize]. unfold binary_round.
  pose proof (shl_align_spec p e (fexp prec emax (Z.pos (digits2_pos p) + e)))
    as Hal.
  pose proof (shl_align_exp p e (fexp prec emax (Z.pos (digits2_pos p) + e)))
    as Hex.
  pose proof (fexp_le (Z.pos (digits2_pos p) + e)) as Hf.
  destruct (shl_align p e _) as [mz ez]. cbn [snd] in Hex.
  destruct Hal as (Hle & Hmz & _).
  apply binary_round_aux_between; try lia.
  rewrite Hmz. replace ez with (e - (e - ez)) at 2 4 by lia.
  rewrite scaled_shift by lia. exact Hb.
Qed.

Lemma py_int_between x L U :
  0 <= L <= U ->
  sf_between L U (Prim2SF x) -> sf_sign_is false (Prim2SF x) ->
  exists v, py_int x = Ok v /\ L <= v <= U.
Proof.
  intros HL Hb Hs. unfold py_int.
  destruct (Prim2SF x) as [ s | s | | s m e ]; cbn [sf_between sf_sign_is] in *;
    try contradiction.
  - exists 0. split; [ reflexivity | lia ].
  - subst s. destruct Hb as [He Hb].
    eexists. split; [ reflexivity | ]. cbv beta iota zeta.
    destruct (Z.leb_spec 0 e) as [Hpos | Hneg].
    + assert (Heq : scaled (Z.pos m) e = scaled (Z.pos m * 2 ^ e) 0).
      { unfold scaled. rewrite <- Z.mul_assoc, <- Z.pow_add_r by lia.
        reflexivity. }
      rewrite Heq in Hb. destruct Hb as [H1 H2].
      apply (proj1 (scaled_le_0 _ _)) in H1.
      apply (proj1 (scaled_le_0 _ _)) in H2. lia.
    + destruct (floor_between (Z.pos m) e (- e) L U ltac:(lia) ltac:(lia)
                  He ltac:(lia) Hb) as [Hfl _].
      replace (- (e + - e)) with 0 in Hfl by lia.
      change (2 ^ 0) with 1 in Hfl. lia.
Qed.

Lemma scaled_nonneg_inv M e : -3000 <= e -> 0 <= scaled M e -> 0 <= M.
Proof.
  intros He HM. unfold scaled in HM.
  assert (0 < 2 ^ (e + 3000)) by (apply Z.pow_pos_nonneg; lia). nia.
Qed.

(** The exact sum of two doubles of the same sign, or of opposite signs,
    on the common scale. *)
Lemma aligned_scaled mx ex ez :
  -3000 <= ez <= ex ->
  scaled (Z.pos (fst (shl_align mx ex ez))) ez = scaled (Z.pos mx) ex.
Proof.
  intros He. pose proof (shl_align_spec mx ex ez) as Hal.
  destruct (shl_align mx ex ez) as [mz ez']. cbn [fst].
  destruct Hal as (_ & Hmz & Hez). specialize (Hez ltac:(lia)). subst ez'.
  rewrite Hmz. replace ez with (ex - (ex - ez)) at 2 by lia.
  apply scaled_shift; lia.
Qed.

(** One channel: the value [int] returns lies between the two ends. *)
Lemma channel_between a b t :
  0 <= a <= 255 -> 0 <= b <= 255 ->
  (0 <=? t)%float = true -> (t <=? 1)%float = true ->
  exists v,
    py_int (float_of_Z a + float_of_Z (b - a) * t)%float = Ok v
    /\ Z.min a b <= v <= Z.max a b.
Proof.
  intros Ha Hb H0 H1.
  assert (Hgoal :
    sf_between (Z.min a b) (Z.max a b)
      (Prim2SF (float_of_Z a + float_of_Z (b - a) * t)%float)
    /\ sf_sign_is false
         (Prim2SF (float_of_Z a + float_of_Z (b - a) * t)%float)).
  2: { destruct Hgoal as [Hbt Hsg].
       apply (py_int_between _ (Z.min a b) (Z.max a b));
         [ lia | exact Hbt | exact Hsg ]. }
  rewrite FloatAxioms.add_spec, FloatAxioms.mul_spec.
  change SF64add with (SFadd prec emax).
  change SF64mul with (SFmul prec emax).
  pose proof (mul_between (b - a) t ltac:(lia) H0 H1) as HP.
  set (P := SFmul prec emax (Prim2SF (float_of_Z (b - a))) (Prim2SF t)) in *.
  clearbody P.
  assert (Hle0 : forall x y, x <= y -> scaled x 0 <= scaled y 0)
    by (intros x y; apply scaled_le_0).
  destruct (small_int_cases a ltac:(lia))
    as [[-> ->] | (Hnz & ma & ea & -> & Hea & Hma)].
  - (* a = 0 *)
    rewrite Z.sub_0_r in HP. replace (Z.abs b) with b in HP by lia.
    replace (Z.min 0 b) with 0 by lia. replace (Z.max 0 b) with b by lia.
    destruct HP as [[Hbt Hsg] | [s ->]].
    + destruct P as [ s | s | | s m e ]; cbn [sf_between] in Hbt;
        try contradiction; cbn [SFadd].
      * destruct s; split; reflexivity.
      * cbn [sf_sign_is] in Hsg. split; [ exact Hbt | ].
        cbn [sf_sign_is]. rewrite Hsg.
        destruct (Z.ltb_spec b 0); [ lia | reflexivity ].
    + cbn [SFadd]. destruct s; split; reflexivity.
  - (* a > 0 *)
    replace (a <? 0) with false
      by (symmetry; apply Z.ltb_ge; lia).
    replace (Z.abs a) with a in Hma by lia.
    assert (Hself : sf_between (Z.min a b) (Z.max a b)
                      (S754_finite false ma ea)).
    { cbn [sf_between]. split; [ lia | ]. rewrite Hma.
      split; apply Hle0; lia. }
    destruct HP as [[Hbt Hsg] | [s ->]];
      [ | cbn [SFadd]; split; [ exact Hself | reflexivity ] ].
    destruct P as [ s | s | | sp mp ep ]; cbn [sf_between] in Hbt;
      try contradiction; cbn [SFadd];
      [ split; [ exact Hself | reflexivity ] | ].
    cbn [sf_sign_is] in Hsg. destruct Hbt as (Hep & Hp0 & Hp1).
    change (scaled 0 0) with 0 in Hp0.
    set (ez := Z.min ea ep).
    pose proof (aligned_scaled ma ea ez ltac:(lia)) as HA.
    pose proof (aligned_scaled mp ep ez ltac:(lia)) as HB.
    set (ma' := Z.pos (fst (shl_align ma ea ez))) in *.
    set (mp' := Z.pos (fst (shl_align mp ep ez))) in *.
    assert (Hma' : 0 < ma') by (unfold ma'; lia).
    assert (Hmp' : 0 < mp') by (unfold mp'; lia).
    clearbody ma' mp'.
    rewrite Hma in HA. rewrite <- HB in Hp0, Hp1.
    cbn [cond_Zopp].
    destruct (Z.ltb_spec (b - a) 0) as [Hneg | Hpos]; subst sp;
      cbn [cond_Zopp].
    + (* b < a: the product is subtracted *)
      replace (Z.abs (b - a)) with (a - b) in Hp1 by lia.
      rewrite scaled_sub in Hp1.
      replace (Z.min a b) with b by lia. replace (Z.max a b) with a by lia.
      assert (Hsum : scaled b 0 <= scaled (ma' + - mp') ez <= scaled a 0).
      { replace (ma' + - mp') with (ma' - mp') by lia.
        rewrite scaled_sub, HA.
        assert (0 <= scaled mp' ez).
        { unfold scaled. apply Z.mul_nonneg_nonneg; [ lia | ].
          apply Z.pow_nonneg; lia. }
        lia. }
      assert (HM : 0 <= ma' + - mp').
      { apply (scaled_nonneg_inv _ ez); [ lia | ].
        assert (0 <= scaled b 0) by (apply (Hle0 0 b); lia).
        lia. }
      destruct (Z.eq_dec (ma' + - mp') 0) as [Hz | Hz].
      * rewrite Hz in *. cbn [binary_normalize sf_between sf_sign_is].
        split; [ | reflexivity ].
        destruct Hsum as [Hsum _]. unfold scaled at 2 in Hsum.
        rewrite Z.mul_0_l in Hsum.
        apply (proj1 (scaled_le_0 b 0)) in Hsum. lia.
      * apply binary_normalize_between; lia.
    + (* a <= b: the product is added *)
      replace (Z.abs (b - a)) with (b - a) in Hp1 by lia.
      rewrite scaled_sub in Hp1.
      replace (Z.min a b) with a by lia. replace (Z.max a b) with b by lia.
      apply binary_normalize_between; try lia.
      rewrite scaled_add, HA. lia.
Qed.

End Enclosure3.

(* ================================================================== *)
(** * [lerp_color] stays between its colours *)
(* ================================================================== *)

Module LerpRange.

Lemma between_in_gamut c1 : forall c2 out,
  in_gamut c1 -> in_gamut c2 -> between_colors c1 c2 out -> in_gamut out.
Proof.
  unfold between_colors, in_gamut.
  induction c1 as [ | a c1 IH ]; intros c2 out G1 G2 Hb.
  - inversion Hb. constructor.
  - destruct c2 as [ | b c2 ]; [ inversion Hb; constructor | ].
    cbn [combine] in Hb. inversion Hb as [ | ab v l l' Hv Hrest ]; subst.
    inversion G1; subst. inversion G2; subst. cbn [fst snd] in Hv.
    constructor; [ lia | ]. apply (IH c2); assumption.
Qed.

Lemma lerp_color_enclosed (t : float) :
  (0 <=? t)%float = true -> (t <=? 1)%float = true ->
  forall c1 c2, in_gamut c1 -> in_gamut c2 ->
    exists out, lerp_color c1 c2 t = Ok out /\ between_colors c1 c2 out.
Proof.
  intros H0 H1 c1. unfold lerp_color, between_colors.
  induction c1 as [ | a c1 IH ]; intros c2 G1 G2;
    [ exists []; split; [ reflexivity | constructor ] | ].
  destruct c2 as [ | b c2 ];
    [ exists []; split; [ reflexivity | constructor ] | ].
  inversion G1 as [ | ? ? Ha G1' ]; subst.
  inversion G2 as [ | ? ? Hb G2' ]; subst.
  cbn [combine mapM].
  destruct (Enclosure3.channel_between a b t Ha Hb H0 H1) as (v & -> & Hv).
  destruct (IH c2 G1' G2') as (out & -> & Hout).
  cbn [bind]. exists (v :: out). split; [ reflexivity | ].
  constructor; assumption.
Qed.

(** X12. [lerp_color] stays between its colours: for two colours with
    channels in [0,255] and a fraction [t] from 0 to 1, it returns, and
    every channel of the result lies between the two channels it mixes
    (whichever is larger), so the result has its channels in [0,255]
    too.  The rounding of the product and of the sum and the truncation
    of [int] never carry a channel past either end. *)
Theorem lerp_color_between (c1 c2 : color) (t : float) :
  in_gamut c1 -> in_gamut c2 ->
  (0 <=? t)%float = true -> (t <=? 1)%float = true ->
  exists out,
    lerp_color c1 c2 t = Ok out
    /\ between_colors c1 c2 out
    /\ in_gamut out.
Proof.
  intros G1 G2 H0 H1.
  destruct (lerp_color_enclosed t H0 H1 c1 c2 G1 G2) as (out & Hout & Hb).
  exists out. split; [ exact Hout | ]. split; [ exact Hb | ].
  apply (between_in_gamut c1 c2 out G1 G2 Hb).
Qed.

Lemma lerp_color_between_witness :
  exists out,
    lerp_color [0; 100; 255] [255; 100; 0] 0.3 = Ok out
    /\ between_colors [0; 100; 255] [255; 100; 0] out
    /\ in_gamut out.
Proof.
  apply lerp_color_between.
  - repeat constructor; lia.
  - repeat constructor; lia.
  - reflexivity.
  - reflexivity.
Defined.

End LerpRange.

(* ================================================================== *)
(** * The fills of the composition *)
(* ================================================================== *)

Module GamutFacts.
Section Gamut.

Context {libm : Libm} {pil : Pillow} {rnd : PyRandom}.

Lemma is_byte_true v : is_byte v = true -> 0 <= v <= 255.
Proof.
  unfold is_byte. intros Hv. apply andb_true_iff in Hv.
  destruct Hv as [H0 H1]. apply Z.leb_le in H0, H1. lia.
Qed.

Lemma forallb_range_down hi lo (P : Z -> bool) :
  forallb P (range_down hi lo) = true ->
  forall r, In r (range_down hi lo) -> P r = true.
Proof. intros Hall. apply forallb_forall. exact Hall. Qed.

Lemma background_in_gamut cx cy bg :
  background cx cy = Ok bg -> Forall (fun op => in_gamut (fill_of op)) bg.
Proof.
  unfold background. apply ArcEdges.mapM_Forall.
  intros r op Hr Hop.
  pose proof (forallb_range_down (SIZE / 2) 0 background_ring_ok
                ltac:(vm_compute; reflexivity) r Hr) as Hok.
  unfold background_ring_ok in Hok.
  destruct (truediv r (SIZE / 2)) as [t | e]; [ | discriminate ].
  cbn [bind] in Hop.
  destruct (py_int (8 + 12 * t)%float) as [val | e]; [ | discriminate ].
  cbn [bind] in Hop.
  destruct (py_int (float_of_Z val * 1.2)%float) as [blue | e];
    [ | discriminate ].
  cbn [bind] in Hop. injection Hop as <-. cbn [fill_of].
  apply andb_true_iff in Hok. destruct Hok as [Hv Hb].
  apply is_byte_true in Hv, Hb.
  repeat constructor; lia.
Qed.

Lemma draw_thick_arc_in_gamut cx cy rx ry angle_start angle_end rotation width
    (color_start color_end : color) ops :
  in_gamut color_start -> in_gamut color_end ->
  draw_thick_arc cx cy rx ry angle_start angle_end rotation width
    color_start color_end 200 = Ok ops ->
  Forall (fun op => in_gamut (fill_of op)) ops.
Proof.
  intros G1 G2 Hrun. unfold draw_thick_arc in Hrun.
  rewrite ArcFacts.arc_points_200 in Hrun. cbn [bind] in Hrun.
  rewrite ArcFacts.arc_segments_200 in Hrun.
  revert ops Hrun. apply ArcEdges.mapM_Forall. intros i op Hi Hop.
  apply ArcFacts.in_range_inv in Hi. destruct Hi as [Hi _].
  destruct (ArcFacts.midpoint_in_unit i Hi) as [H0 H1].
  destruct (LerpRange.lerp_color_enclosed _ H0 H1 _ _ G1 G2)
    as (c & Hc & Hb).
  rewrite Hc in Hop. cbn [bind] in Hop. injection Hop as <-.
  cbn [fill_of]. apply (LerpRange.between_in_gamut _ _ _ G1 G2 Hb).
Qed.

Lemma orbital_halves_in_gamut cx cy rx ry arc_start arc_end ops :
  orbital_halves cx cy rx ry arc_start arc_end = Ok ops ->
  Forall (fun op => in_gamut (fill_of op)) ops.
Proof.
  unfold orbital_halves. intros Hrun.
  apply bind_Ok_inv in Hrun. destruct Hrun as (parts & Hparts & Hops).
  injection Hops as <-. apply Forall_concat.
  revert parts Hparts. apply ArcEdges.mapM_Forall.
  intros [[rot_deg c_start] c_end] part Ho Hpart.
  destruct (ComposerFacts.orbital_colors _ Ho) as (_ & _ & G1 & G2).
  cbn [fst snd] in G1, G2. unfold draw_orbital in Hpart.
  apply (draw_thick_arc_in_gamut _ _ _ _ _ _ _ _ _ _ _ G1 G2 Hpart).
Qed.

Lemma highlight_alphas_checked radius :
  1 <= radius <= 128 -> highlight_alphas_ok radius = true.
Proof.
  intros Hr.
  pose proof (LerpFacts.forallb_range 128
    (fun k => highlight_alphas_ok (k + 1))
    ltac:(vm_compute; reflexivity) (radius - 1) ltac:(lia)) as Hk.
  cbv beta in Hk. replace (radius - 1 + 1) with radius in Hk by lia.
  exact Hk.
Qed.

Lemma in_gamut_app c1 c2 : in_gamut c1 -> in_gamut c2 -> in_gamut (c1 ++ c2).
Proof. unfold in_gamut. intros H1 H2. apply Forall_app. auto. Qed.

(** The fills of a sphere of radius 1 to 128 fit a byte. *)
Lemma draw_sphere_in_gamut cx cy radius (base_color highlight_color : color)
    ops :
  1 <= radius <= 128 -> in_gamut base_color -> in_gamut highlight_color ->
  draw_sphere cx cy radius base_color highlight_color = Ok ops ->
  Forall (fun op => in_gamut (fill_of op)) ops.
Proof.
  intros Hr G1 G2. rewrite SphereFacts.draw_sphere_steps. intros Hops.
  apply bind_Ok_inv in Hops. destruct Hops as (body & Hb & Hops).
  destruct (SphereFacts.highlight_loop_returns cx cy radius Hr)
    as (Hn & _).
  rewrite Hn in Hops. cbn [bind] in Hops.
  apply bind_Ok_inv in Hops. destruct Hops as (spec & Hs & Hops).
  apply ComposerFacts.Ok_inj in Hops. subst ops.
  apply Forall_app. split; [ | apply Forall_app; split ].
  - unfold glow_rings. apply Forall_map, Forall_forall.
    intros [j a] Hja. cbn [fill_of fst snd].
    apply in_gamut_app; [ exact G1 | ].
    pose proof (proj1 (Forall_forall _ _)
                  (ltac:(unfold glow_alphas; repeat constructor; cbn; lia)
                   : Forall (fun ja : Z * Z => 0 <= snd ja <= 255)
                       glow_alphas) _ Hja) as Ha.
    cbn [snd] in Ha. repeat constructor; lia.
  - revert body Hb. apply ArcEdges.mapM_Forall. intros r op Hin Hop.
    pose proof (SphereFacts.sphere_floats_checked radius Hr) as Hok.
    unfold sphere_floats_ok in Hok.
    apply andb_true_iff in Hok. destruct Hok as [Hok _].
    apply andb_true_iff in Hok. destruct Hok as [Hbody _].
    rewrite forallb_forall in Hbody. specialize (Hbody r Hin).
    apply andb_true_iff in Hbody. destruct Hbody as [H0 H1].
    apply SphereFacts.in_range_down in Hin.
    unfold body_ring in Hop. rewrite truediv_small in Hop by lia.
    cbn [bind] in Hop. fold (body_fraction radius r) in Hop.
    destruct (LerpRange.lerp_color_enclosed _ H0 H1 _ _ G1 G2)
      as (c & Hc & Hbt).
    rewrite Hc in Hop. cbn [bind] in Hop. injection Hop as <-.
    cbn [fill_of]. apply (LerpRange.between_in_gamut _ _ _ G1 G2 Hbt).
  - revert spec Hs. apply ArcEdges.mapM_Forall. intros r2 op Hin Hop.
    pose proof (highlight_alphas_checked radius Hr) as Hok.
    unfold highlight_alphas_ok in Hok. rewrite forallb_forall in Hok.
    specialize (Hok r2 Hin).
    unfold highlight_ring in Hop.
    destruct (fdiv (float_of_Z r2) (float_of_Z radius * 0.35)%float)
      as [q | e]; [ | discriminate ].
    cbn [bind] in Hop, Hok.
    destruct (py_int (200 * (1 - q))%float) as [alpha | e];
      [ | discriminate ].
    cbn [bind] in Hop. injection Hop as <-. cbn [fill_of].
    apply is_byte_true in Hok. repeat constructor; lia.
Qed.

Lemma electron_spheres_in_gamut ops :
  electron_spheres 512 512 340 130 = Ok ops ->
  Forall (fun op => in_gamut (fill_of op)) ops.
Proof.
  intros Hops.
  destruct (ElectronFacts.electron_spheres_calls ops Hops)
    as (x1 & y1 & s1 & x2 & y2 & s2 & _ & _ & Hs1 & _ & _ & Hs2 & ->).
  apply Forall_app. split.
  - apply (fun R A B => draw_sphere_in_gamut _ _ _ _ _ _ R A B Hs1);
      [ lia | repeat constructor; lia | repeat constructor; lia ].
  - apply (fun R A B => draw_sphere_in_gamut _ _ _ _ _ _ R A B Hs2);
      [ lia | repeat constructor; lia | repeat constructor; lia ].
Qed.

Lemma brackets_in_gamut cx cy f :
  Forall (fun op => in_gamut (fill_of op)) (brackets cx cy f).
Proof.
  unfold brackets.
  destruct (textbbox (0, 0) "</>"%string f) as [[[x0 y0] x1] y1].
  repeat constructor; cbn; lia.
Qed.

Lemma sparkles_fills positions : forall g,
  Forall (fun op => exists b, fill_of op = [255; 255; b])
    (fst (sparkles positions g)).
Proof.
  induction positions as [ | [[sx sy] ss] rest IH ]; intros g;
    cbn [sparkles]; [ constructor | ].
  destruct (randint 180 255 g) as [b g1].
  specialize (IH g1). destruct (sparkles rest g1) as [ops g2].
  cbn [fst] in *. apply Forall_app. split; [ | exact IH ].
  unfold draw_sparkle. repeat constructor; exists b; reflexivity.
Qed.

(** X13. Every fill of the composition fits a byte: whatever the
    libraries, when the drawing calls of [create_nebula_icon] have been
    issued, each of them has a fill with all channels in [0,255] (so no
    channel is clipped when it is painted), except for the blue channel
    of a sparkle, which is whatever [random.randint(180, 255)] returned. *)
Theorem create_nebula_icon_fills (g : rng_state) (ops : list draw_op)
    (g' : rng_state) :
  create_nebula_icon_ops g = Ok (ops, g') ->
  Forall fill_in_gamut ops.
Proof.
  unfold create_nebula_icon_ops. change (SIZE / 2) with 512. intros Hrun.
  apply bind_Ok_inv in Hrun. destruct Hrun as (bg & Hbg & Hrun).
  apply bind_Ok_inv in Hrun. destruct Hrun as (back & Hback & Hrun).
  apply bind_Ok_inv in Hrun. destruct Hrun as (f & Hf & Hrun).
  apply bind_Ok_inv in Hrun. destruct Hrun as (front & Hfront & Hrun).
  apply bind_Ok_inv in Hrun. destruct Hrun as (spheres & Hs & Hrun).
  pose proof (sparkles_fills sparkle_positions (seed 42 g)) as Hsp.
  destruct (sparkles sparkle_positions (seed 42 g)) as [sp g2].
  cbn [fst] in Hsp. apply ComposerFacts.Ok_inj in Hrun.
  injection Hrun as <- _.
  assert (Hl : forall l, Forall (fun op => in_gamut (fill_of op)) l ->
                 Forall fill_in_gamut l)
    by (intros l; apply Forall_impl; intros op Hop; left; exact Hop).
  repeat (apply Forall_app; split).
  - apply Hl, (background_in_gamut _ _ _ Hbg).
  - apply Hl, (orbital_halves_in_gamut _ _ _ _ _ _ _ Hback).
  - apply Hl, brackets_in_gamut.
  - apply Hl, (orbital_halves_in_gamut _ _ _ _ _ _ _ Hfront).
  - apply Hl, (electron_spheres_in_gamut _ Hs).
  - revert Hsp. apply Forall_impl. intros op Hop. right. exact Hop.
Qed.

End Gamut.

Lemma create_nebula_icon_fills_witness :
  exists p,
    create_nebula_icon_ops (libm := ref_libm) (pil := ref_pillow)
      (rnd := mt_random) (MT19937.seed 0) = Ok p
    /\ Forall fill_in_gamut (fst p).
Proof.
  destruct (ArcFacts.is_ok_Ok
              (create_nebula_icon_ops (libm := ref_libm) (pil := ref_pillow)
                 (rnd := mt_random) (MT19937.seed 0))
              ltac:(vm_compute; reflexivity)) as [[ops g'] Hrun].
  exists (ops, g'). split; [ exact Hrun | ].
  apply (create_nebula_icon_fills _ ops g' Hrun).
Defined.

End GamutFacts.
